(** * useSimulatedMediaQuery: rewriting width media queries of live style sheets

    A shallow embedding of the hook [useSimulatedMediaQuery] (block-editor):
    the effect scans the style sheets of the page whose [href] contains the
    host name, rewrites every [(min|max)-width:...] clause of the media
    rules found between the two marker rules, and returns a cleanup that
    puts the saved rule texts back.

    The live style sheets are a store of sheet objects addressed by their
    position in [document.styleSheets]; the DOM methods [deleteRule] and
    [insertRule] act on that store and may throw. *)

From Stdlib Require Import String Ascii ZArith Lia.
From stdpp Require Import base option list strings.
From Equations Require Import Equations.

(** ** Strings *)

Module Str.

(** [s.includes(needle)]; also what [s.match(/needle/)] decides for a
    pattern without metacharacters. *)
Fixpoint includes (s needle : string) : bool :=
  String.prefix needle s
  || match s with
     | EmptyString => false
     | String _ s' => includes s' needle
     end.

(** A string is truthy unless it is empty. *)
Definition truthy (s : string) : bool :=
  match s with
  | EmptyString => false
  | String _ _ => true
  end.

(** [lit p s]: [s] with the literal [p] consumed from its front. *)
Fixpoint lit (p s : string) : option string :=
  match p with
  | EmptyString => Some s
  | String a p' =>
      match s with
      | EmptyString => None
      | String b s' => if Ascii.eqb a b then lit p' s' else None
      end
  end.

(** No parenthesis of either kind occurs in the string. *)
Fixpoint paren_free (s : string) : bool :=
  match s with
  | EmptyString => true
  | String c s' =>
      negb (Ascii.eqb c ")") && negb (Ascii.eqb c "(") && paren_free s'
  end.

(** No opening parenthesis occurs in the string. *)
Fixpoint open_free (s : string) : bool :=
  match s with
  | EmptyString => true
  | String c s' => negb (Ascii.eqb c "(") && open_free s'
  end.

End Str.

(** ** The pattern VALID_MEDIA_QUERY_REGEX

    [/\((min|max)-width:[^\(]*?\)/g] *)

Definition ENABLED_MEDIA_QUERY : string := "(min-width:0px)".
Definition DISABLED_MEDIA_QUERY : string := "(min-width:999999px)".

Module Regex.

(** The lazy tail [[^\(]*?\)]: the shortest run of characters other than
    an opening parenthesis that is followed by a closing one.  Returns the
    text consumed, closing parenthesis included, and what follows. *)
Fixpoint lazy_tail (s : string) : option (string * string) :=
  match s with
  | EmptyString => None
  | String c s' =>
      if Ascii.eqb c ")" then Some (String c EmptyString, s')
      else if Ascii.eqb c "(" then None
      else '(m, rest) ← lazy_tail s'; Some (String c m, rest)
  end.

(** The alternation [(min|max)]. *)
Definition min_or_max (s : string) : option (string * string) :=
  match Str.lit "min" s with
  | Some t => Some ("min"%string, t)
  | None => t ← Str.lit "max" s; Some ("max"%string, t)
  end.

(** A match of the whole pattern anchored at the front of [s]: the matched
    substring and the rest of [s]. *)
Definition match_here (s : string) : option (string * string) :=
  s1 ← Str.lit "(" s;
  '(mm, s2) ← min_or_max s1;
  s3 ← Str.lit "-width:" s2;
  '(tl, rest) ← lazy_tail s3;
  Some ("(" +:+ mm +:+ "-width:" +:+ tl, rest).

(** The leftmost match in [s]: the text before it, the matched substring
    and the text after it. *)
Fixpoint exec (s : string) : option (string * string * string) :=
  match match_here s with
  | Some (m, rest) => Some (EmptyString, m, rest)
  | None =>
      match s with
      | EmptyString => None
      | String c s' => '(pre, m, rest) ← exec s'; Some (String c pre, m, rest)
      end
  end.

(** [s.match(VALID_MEDIA_QUERY_REGEX)] is not [null]. *)
Definition test (s : string) : bool := bool_decide (is_Some (exec s)).

End Regex.

(** ** String.prototype.replace with a global pattern and a callback *)

Definition inspect {A} (a : A) : {b : A | a = b} := exist _ a eq_refl.

(** [s.replace(VALID_MEDIA_QUERY_REGEX, f)]: every match, found from left
    to right and without overlap, is replaced by what [f] returns for it;
    the text between the matches is copied. *)
Equations? replace (f : string → string) (s : string) : string
  by wf (String.length s) lt :=
  replace f s with inspect (Regex.exec s) := {
    | exist _ (Some (pre, m, rest)) Hexec => pre +:+ f m +:+ replace f rest
    | exist _ None _ => s }.
Proof.
  assert (Hlit : ∀ p t u, Str.lit p t = Some u →
                 String.length u ≤ String.length t).
  { induction p as [|a p IH]; intros t u; simpl.
    - intros [= ->]. lia.
    - destruct t as [|b t]; [done|]. destruct (Ascii.eqb a b); [|done].
      intros Hu. apply IH in Hu. simpl. lia. }
  assert (Htail : ∀ t tl u, Regex.lazy_tail t = Some (tl, u) →
                  String.length u < String.length t).
  { induction t as [|c t IH]; intros tl u; simpl; [done|].
    destruct (Ascii.eqb c ")"); [intros [= _ ->]; lia|].
    destruct (Ascii.eqb c "("); [done|].
    destruct (Regex.lazy_tail t) as [[tl' u']|] eqn:Ht; simpl; [|done].
    intros [= _ ->]. specialize (IH _ _ eq_refl). lia. }
  assert (Hhere : ∀ t m' u, Regex.match_here t = Some (m', u) →
                  String.length u < String.length t).
  { intros t m' u. unfold Regex.match_here. intros H.
    apply bind_Some in H as (t1 & H1 & H).
    apply bind_Some in H as ([mm t2] & H2 & H).
    apply bind_Some in H as (t3 & H3 & H).
    apply bind_Some in H as ([tl u'] & H4 & H).
    injection H as _ ->. apply Hlit in H1, H3. apply Htail in H4.
    assert (String.length t2 ≤ String.length t1); [|lia].
    unfold Regex.min_or_max in H2.
    destruct (Str.lit "min" t1) as [v|] eqn:Ha.
    - injection H2 as _ ->. by apply Hlit in Ha.
    - destruct (Str.lit "max" t1) as [v|] eqn:Hb; simpl in H2; [|done].
      injection H2 as _ ->. by apply Hlit in Hb. }
  clear replace. revert pre m rest Hexec.
  induction s as [|c s IH]; intros pre m rest; simpl.
  - done.
  - destruct (Regex.match_here (String c s)) as [[m' u]|] eqn:Hm.
    + intros [= _ _ ->]. by apply Hhere in Hm.
    + destruct (Regex.exec s) as [[[pre' m''] rest']|] eqn:He; simpl; [|done].
      intros [= _ _ ->]. specialize (IH _ _ _ eq_refl). lia.
Qed.

(** A text cut at its clauses: each piece is the text that precedes a
    clause, and the clause; [tail] follows the last clause. *)
Fixpoint assemble (pieces : list (string * string)) (tail : string)
    : string :=
  match pieces with
  | [] => tail
  | (before, clause) :: pieces' =>
      before +:+ clause +:+ assemble pieces' tail
  end.

(** ** What a width clause asks for *)

Module WidthClause.

Inductive bound := Min | Max.

Definition digit (c : ascii) : option Z :=
  let n := Z.of_nat (nat_of_ascii c) in
  if (48 <=? n)%Z && (n <=? 57)%Z then Some (n - 48)%Z else None.

Fixpoint skip_spaces (s : string) : string :=
  match s with
  | EmptyString => EmptyString
  | String c s' => if Ascii.eqb c " " then skip_spaces s' else s
  end.

(** A decimal number of pixels that closes the clause: digits, then
    [px)]. *)
Fixpoint pixels (acc : option Z) (s : string) : option Z :=
  match s with
  | EmptyString => None
  | String c s' =>
      match digit c with
      | Some d => pixels (Some (10 * default 0 acc + d)%Z) s'
      | None => if String.eqb s "px)" then acc else None
      end
  end.

(** The bound and the number of pixels of a clause [(min-width:Vpx)] or
    [(max-width:Vpx)]. *)
Definition read (clause : string) : option (bound * Z) :=
  match Str.lit "(min-width:" clause with
  | Some s => v ← pixels None (skip_spaces s); Some (Min, v)
  | None =>
      s ← Str.lit "(max-width:" clause;
      v ← pixels None (skip_spaces s); Some (Max, v)
  end.

(** The range semantics of the two media features. *)
Definition holds (b : bound) (v width : Z) : bool :=
  match b with
  | Min => (v <=? width)%Z
  | Max => (width <=? v)%Z
  end.

End WidthClause.

(** Modelled from the spec: the function [match] of the package
    css-mediaquery, which the sources import and do not contain, on one
    width clause: a [min-width:V] clause matches when the width is at least
    [V], a [max-width:V] clause when it is at most [V]. *)
Definition cssMediaQueryMatch (mediaQuery : string) (width : Z) : bool :=
  match WidthClause.read mediaQuery with
  | Some (b, v) => WidthClause.holds b v width
  | None => false
  end.

(** ** Arrays with holes

    [originalStyles] and its rows are JavaScript arrays that are assigned
    by index: an assignment past the end extends the array with holes. *)

Module JsArray.

Definition get {A} (a : list (option A)) (i : nat) : option A :=
  mjoin (a !! i).

Definition set {A} (a : list (option A)) (i : nat) (v : A)
    : list (option A) :=
  if decide (i < length a) then <[i := Some v]> a
  else a ++ replicate (i - length a) None ++ [Some v].

End JsArray.

(** ** The live style sheets *)

Record CSSRule := {
  cssText : string;
  (** [rule.media.mediaText]; [None] when the rule has no [media]. *)
  media : option string
}.

Record CSSStyleSheet := {
  href : option string;
  cssRules : list CSSRule
}.

(** [window.document.styleSheets]: a sheet object is referred to by its
    position in this list. *)
Abbreviation Document := (list CSSStyleSheet).

Inductive DOMException := IndexSizeError | SyntaxError | TypeError.

Inductive Completion (A : Type) :=
  | Normal (a : A)
  | Throw (e : DOMException).
Arguments Normal {A} a.
Arguments Throw {A} e.

(** A computation on the live style sheets: the sheets it leaves behind
    and how it completed.  A throw keeps the mutations made before it. *)
Definition DOM (A : Type) : Type := Document → Document * Completion A.

Definition dom_ret {A} (a : A) : DOM A := λ doc, (doc, Normal a).

Definition dom_throw {A} (e : DOMException) : DOM A := λ doc, (doc, Throw e).

Definition dom_bind {A B} (m : DOM A) (k : A → DOM B) : DOM B :=
  λ doc,
    match m doc with
    | (doc', Normal a) => k a doc'
    | (doc', Throw e) => (doc', Throw e)
    end.

Global Instance dom_mret : MRet DOM := @dom_ret.
Global Instance dom_mbind : MBind DOM := λ A B k m, dom_bind m k.

Definition withRules (f : list CSSRule → list CSSRule)
    (styleSheet : CSSStyleSheet) : CSSStyleSheet :=
  {| href := href styleSheet; cssRules := f (cssRules styleSheet) |}.

(** [styleSheet.cssRules.length]; 0 for a reference to no sheet. *)
Definition ruleCount (styleSheet : nat) (doc : Document) : nat :=
  from_option (length ∘ cssRules) 0 (doc !! styleSheet).

(** [styleSheet.deleteRule( index )] *)
Definition deleteRule (styleSheet index : nat) : DOM unit :=
  λ doc,
    match doc !! styleSheet with
    | None => (doc, Throw TypeError)
    | Some sheet =>
        if decide (index < length (cssRules sheet))
        then (<[styleSheet := withRules (delete index) sheet]> doc, Normal tt)
        else (doc, Throw IndexSizeError)
    end.

Definition START_MARKER : string := "#start-resizable-editor-section".
Definition END_MARKER : string := "#end-resizable-editor-section".

Abbreviation SavedStyles := (list (option (list (option string)))).

Record Cleanup := {
  styleSheets : list nat;
  originalStyles : SavedStyles
}.

(** ** A parser for running the model

    A style-sheet parser that keeps a rule text as it is written; the media
    text of [@media Q{...}] is [Q], up to the first brace. *)

Fixpoint upToBrace (s : string) : string :=
  match s with
  | EmptyString => EmptyString
  | String c s' =>
      if Ascii.eqb c "{" then EmptyString else String c (upToBrace s')
  end.

Definition verbatimRule (text : string) : CSSRule :=
  {| cssText := text;
     media := upToBrace <$> Str.lit "@media " text |}.

Definition verbatimParse (text : string) : option CSSRule :=
  if Str.truthy text then Some (verbatimRule text) else None.

(** A page served from [wp.test]: a sheet with a closed region, a sheet
    of another host, and a sheet whose region is opened by a media rule and
    never closed. *)
Definition exampleDocument : Document :=
  [ {| href := Some "https://wp.test/style.css"%string;
       cssRules :=
         [ verbatimRule "@media (min-width:600px){a{}}";
           verbatimRule "#start-resizable-editor-section{display:none}";
           verbatimRule
             "@media (min-width:600px) and (orientation:landscape){a{}}";
           verbatimRule "#end-resizable-editor-section{display:none}";
           verbatimRule "@media (max-width:782px){b{}}" ] |};
    {| href := Some "https://cdn.example.org/a.css"%string;
       cssRules :=
         [ verbatimRule "#start-resizable-editor-section{display:none}";
           verbatimRule "@media (min-width:600px){a{}}" ] |};
    {| href := Some "https://wp.test/b.css"%string;
       cssRules :=
         [ verbatimRule
             "@media (min-width:600px){#start-resizable-editor-section{}}";
           verbatimRule "@media (max-width:782px){b{}}" ] |} ].

(** ** The search handlers of the link control

    The handlers that [LinkControl] passes to its search input: they decide
    from the text typed which suggestions are offered.  A promise is
    modelled by the way it settles. *)

Module LinkControl.

Definition CREATE_TYPE : string := "__CREATE__".

(** A suggestion, with the properties the handlers set. *)
Record Suggestion := {
  id : string;
  title : string;
  url : string;
  type : string
}.

Inductive Settled (A : Type) :=
  | Resolved (a : A)
  | Rejected.
Arguments Resolved {A} a.
Arguments Rejected {A}.

(** What the handlers call and the sources do not contain: four functions
    of the package @wordpress/url, and the fetcher of the editor settings,
    called with the search text and the option [perPage]. *)
Class Library := {
  getProtocol : string → option string;
  prependHTTP : string → string;
  cleanForSlug : string → string;
  isURL : string → bool;
  fetchSearchSuggestions : string → option nat → Settled (list Suggestion)
}.

Section Handlers.

Context `{Library}.

(** The promise returned resolves at once, to one suggestion. *)
Definition handleDirectEntry (val : string) : list Suggestion :=
  let type := "URL"%string in
  let protocol := default ""%string (getProtocol val) in
  let type :=
    if Str.includes protocol "mailto" then "mailto"%string else type in
  let type := if Str.includes protocol "tel" then "tel"%string else type in
  let type := if String.prefix "#" val then "internal"%string else type in
  [ {| id := cleanForSlug val;
       title := val;
       url := if String.eqb type "URL" then prependHTTP val else val;
       type := type |} ].

Definition maybeURL (val : string) : bool :=
  let isInternal := String.prefix "#" val in
  isInternal || isURL val || (Str.truthy val && Str.includes val "www.").

(** [Promise.all] of the fetch and of the direct entry rejects when the
    fetch does. *)
Definition handleEntitySearch (val : string) (isInitialSuggestions : bool)
    : Settled (list Suggestion) :=
  match fetchSearchSuggestions val
          (if isInitialSuggestions then Some 3 else None) with
  | Rejected => Rejected
  | Resolved fetched =>
      let direct := handleDirectEntry val in
      let couldBeURL := negb (Str.includes val " ") in
      let results :=
        if couldBeURL && negb isInitialSuggestions
        then fetched ++ direct else fetched in
      Resolved
        (if maybeURL val then results
         else results ++ [ {| id := cleanForSlug val;
                              title := val;
                              url := val;
                              type := CREATE_TYPE |} ])
  end.

Definition getSearchHandler (val : string) (isInitialSuggestions : bool)
    : Settled (list Suggestion) :=
  if maybeURL val then Resolved (handleDirectEntry val)
  else handleEntitySearch val isInitialSuggestions.

End Handlers.

End LinkControl.

Section Simulator.

(** The CSS parser behind [insertRule]: the rule object built from a rule
    text, [None] when the text is refused. *)
Variable parseRule : string → option CSSRule.

(** The function [match] of the package css-mediaquery, called with the
    values [{ type: 'screen', width }]: it is not part of the sources and
    stays a parameter. *)
Variable mediaQueryMatch : string → Z → bool.

(** Every match of the pattern in the rule text is replaced by the
    enabled or the disabled clause, as the matcher decides for that match
    and the width. *)
Definition replaceMediaQueryWithWidthEvaluation
    (ruleText : string) (widthValue : Z) : string :=
  replace
    (λ matchedSubstring,
       if mediaQueryMatch matchedSubstring widthValue
       then ENABLED_MEDIA_QUERY
       else DISABLED_MEDIA_QUERY)
    ruleText.

(** [styleSheet.insertRule( rule, index )] *)
Definition insertRule (styleSheet : nat) (rule : string) (index : nat)
    : DOM unit :=
  λ doc,
    match doc !! styleSheet with
    | None => (doc, Throw TypeError)
    | Some sheet =>
        if decide (index ≤ length (cssRules sheet))
        then
          match parseRule rule with
          | None => (doc, Throw SyntaxError)
          | Some r =>
              (<[styleSheet :=
                   withRules (λ rules, take index rules ++ r :: drop index rules)
                     sheet]> doc,
               Normal tt)
          end
        else (doc, Throw IndexSizeError)
    end.

(** The sheets of the page whose [href] is truthy and contains
    [window.location.hostname]: the array holds the sheet objects
    themselves, here their positions in the store. *)
Definition getStyleSheetsThatMatchHostname (hostname : string)
    (doc : Document) : list nat :=
  List.filter
    (λ i,
       match doc !! i with
       | Some styleSheet =>
           match href styleSheet with
           | Some h => Str.truthy h && Str.includes h hostname
           | None => false
           end
       | None => false
       end)
    (seq 0 (length doc)).

(** [false] for a rule without [media], else whether the pattern matches
    in [rule.media.mediaText]. *)
Definition isReplaceableMediaRule (rule : CSSRule) : bool :=
  match media rule with
  | None => false
  | Some mediaText => Regex.test mediaText
  end.

(** The rule text of a sheet cannot be assigned: the rule is deleted and
    the new text inserted at its index. *)
Definition replaceRule (styleSheet : nat) (newRuleText : string)
    (index : nat) : DOM unit :=
  deleteRule styleSheet index ;;
  insertRule styleSheet newRuleText index.

(** [!! rule.cssText.match( /#start-resizable-editor-section/ )] *)
Definition isStart (rule : CSSRule) : bool :=
  Str.includes (cssText rule) START_MARKER.

(** [!! rule.cssText.match( /#end-resizable-editor-section/ )] *)
Definition isEnd (rule : CSSRule) : bool :=
  Str.includes (cssText rule) END_MARKER.

(** The two marker tests at the head of the loop body: the value of
    [relevantSection] once both have run on [rule]. *)
Definition updateRelevantSection (relevantSection : bool) (rule : CSSRule)
    : bool :=
  let relevantSection :=
    if negb relevantSection && isStart rule
    then true else relevantSection in
  if relevantSection && isEnd rule
  then false else relevantSection.

(** [if ( ! originalStyles[ i ] ) originalStyles[ i ] = [];
     originalStyles[ i ][ j ] = ruleText;] *)
Definition saveOriginal (originalStyles : SavedStyles)
    (styleSheetIndex ruleIndex : nat) (ruleText : string) : SavedStyles :=
  let originalStyles :=
    match JsArray.get originalStyles styleSheetIndex with
    | Some _ => originalStyles
    | None => JsArray.set originalStyles styleSheetIndex []
    end in
  match JsArray.get originalStyles styleSheetIndex with
  | Some row =>
      JsArray.set originalStyles styleSheetIndex
        (JsArray.set row ruleIndex ruleText)
  | None => originalStyles
  end.

(** The [for] loop over the rules of one sheet, from [ruleIndex] on; its
    guard [ruleIndex < styleSheet.cssRules.length] is read on the live
    sheet at every turn. *)
Equations? scanRules (width : Z) (styleSheet styleSheetIndex ruleIndex : nat)
    (relevantSection : bool) (originalStyles : SavedStyles) (doc : Document)
    : Document * Completion SavedStyles
    by wf (ruleCount styleSheet doc - ruleIndex) lt :=
  scanRules width styleSheet styleSheetIndex ruleIndex relevantSection
      originalStyles doc
    with inspect (doc !! styleSheet) := {
    | exist _ None _ => (doc, Throw TypeError)
    | exist _ (Some sheet) Hsheet
        with inspect (cssRules sheet !! ruleIndex) := {
      | exist _ None _ => (doc, Normal originalStyles)
      | exist _ (Some rule) Hrule
          with inspect (updateRelevantSection relevantSection rule) := {
        | exist _ relevant _
            with inspect (negb relevant
                          || negb (isReplaceableMediaRule rule)) := {
          | exist _ true _ =>
              scanRules width styleSheet styleSheetIndex (S ruleIndex)
                relevant originalStyles doc
          | exist _ false _
              with inspect
                     (replaceRule styleSheet
                        (replaceMediaQueryWithWidthEvaluation
                           (cssText rule) width)
                        ruleIndex doc) := {
            | exist _ (doc', Normal _) Hreplaced =>
                scanRules width styleSheet styleSheetIndex (S ruleIndex)
                  relevant
                  (saveOriginal originalStyles styleSheetIndex ruleIndex
                     (cssText rule))
                  doc'
            | exist _ (doc', Throw e) _ => (doc', Throw e) } } } } }.
Proof.
  - apply lookup_lt_Some in Hrule. unfold ruleCount. rewrite Hsheet. simpl. lia.
  - apply lookup_lt_Some in Hrule.
    assert (ruleCount styleSheet doc' = ruleCount styleSheet doc) as ->.
    2:{ unfold ruleCount. rewrite Hsheet. simpl. lia. }
    revert Hreplaced.
    unfold replaceRule, mbind, dom_mbind, dom_bind, deleteRule, insertRule.
    rewrite Hsheet. destruct (decide _) as [_|]; [|lia].
    rewrite list_lookup_insert_eq by (by eapply lookup_lt_Some).
    destruct (decide _) as [_|]; [|done].
    destruct (parseRule _); [|done]. intros [= <-].
    unfold ruleCount. rewrite list_insert_insert_eq.
    rewrite list_lookup_insert_eq by (by eapply lookup_lt_Some).
    rewrite Hsheet. simpl.
    rewrite length_app, length_take. simpl.
    rewrite length_drop, length_delete by (by apply lookup_lt_is_Some_2).
    lia.
Qed.

(** [styleSheets.forEach( ( styleSheet, styleSheetIndex ) => ... )] *)
Fixpoint scanStyleSheets (width : Z) (styleSheets : list nat)
    (styleSheetIndex : nat) (originalStyles : SavedStyles)
    : DOM SavedStyles :=
  match styleSheets with
  | [] => mret originalStyles
  | styleSheet :: rest =>
      originalStyles ←
        scanRules width styleSheet styleSheetIndex 0 false originalStyles;
      scanStyleSheets width rest (S styleSheetIndex) originalStyles
  end.

(** The effect of the hook, for the host name of the page: it returns what
    its cleanup closes over, the selected sheets and the saved texts.  (When
    the effect and its cleanup run is up to [useEffect].) *)
Definition useSimulatedMediaQuery (hostname : string) (width : Z)
    : DOM Cleanup :=
  λ doc,
    let styleSheets := getStyleSheetsThatMatchHostname hostname doc in
    (originalStyles ← scanStyleSheets width styleSheets 0 [];
     mret {| styleSheets := styleSheets;
             originalStyles := originalStyles |}) doc.

(** The body of the inner [for] loop of the cleanup; [styleSheet] is
    [styleSheets[ styleSheetIndex ]]. *)
Definition restoreRule (styleSheet : option nat) (ruleIndex : nat)
    (originalRuleText : option string) : DOM unit :=
  match originalRuleText with
  | Some text =>
      if Str.truthy text
      then
        match styleSheet with
        | Some sheet => replaceRule sheet text ruleIndex
        | None => dom_throw TypeError
        end
      else mret tt
  | None => mret tt
  end.

(** The inner [for] loop of the cleanup, over one row of saved texts. *)
Fixpoint restoreRules (styleSheet : option nat) (ruleIndex : nat)
    (rulesCollection : list (option string)) : DOM unit :=
  match rulesCollection with
  | [] => mret tt
  | originalRuleText :: rest =>
      restoreRule styleSheet ruleIndex originalRuleText;;
      restoreRules styleSheet (S ruleIndex) rest
  end.

(** The callback of [originalStyles.forEach]; [forEach] does not visit
    holes. *)
Definition restoreStyleSheet (styleSheets : list nat) (styleSheetIndex : nat)
    (rulesCollection : option (list (option string))) : DOM unit :=
  match rulesCollection with
  | Some rules => restoreRules (styleSheets !! styleSheetIndex) 0 rules
  | None => mret tt
  end.

(** [originalStyles.forEach( ( rulesCollection, styleSheetIndex ) => ... )] *)
Fixpoint restoreStyleSheets (styleSheets : list nat) (styleSheetIndex : nat)
    (originalStyles : SavedStyles) : DOM unit :=
  match originalStyles with
  | [] => mret tt
  | rulesCollection :: rest =>
      restoreStyleSheet styleSheets styleSheetIndex rulesCollection;;
      restoreStyleSheets styleSheets (S styleSheetIndex) rest
  end.

(** The function the effect returns. *)
Definition cleanup (c : Cleanup) : DOM unit :=
  restoreStyleSheets (styleSheets c) 0 (originalStyles c).

(** ** The effect when [match] throws

    The function [match] of css-mediaquery throws on a media query it
    cannot read.  The matcher above returns for every clause; the
    definitions below take a matcher that may throw.  Its exception leaves
    [replace] and the effect where the call stands: the text of the rule is
    saved already and [replaceRule] is not reached. *)
Variable matchOrThrow : string → Z → Completion bool.

(** [s.replace(VALID_MEDIA_QUERY_REGEX, f)] with a callback that may
    throw: the callback is called on the matches from left to right, and
    its first exception is the one of [replace]. *)
Equations? replaceOrThrow (f : string → Completion string) (s : string)
    : Completion string by wf (String.length s) lt :=
  replaceOrThrow f s with inspect (Regex.exec s) := {
    | exist _ (Some (pre, m, rest)) Hexec =>
        match f m with
        | Throw e => Throw e
        | Normal v =>
            match replaceOrThrow f rest with
            | Throw e => Throw e
            | Normal r => Normal (pre +:+ v +:+ r)
            end
        end
    | exist _ None _ => Normal s }.
Proof.
  assert (Hlit : ∀ p t u, Str.lit p t = Some u →
                 String.length u ≤ String.length t).
  { induction p as [|a p IH]; intros t u; simpl.
    - intros [= ->]. lia.
    - destruct t as [|b t]; [done|]. destruct (Ascii.eqb a b); [|done].
      intros Hu. apply IH in Hu. simpl. lia. }
  assert (Htail : ∀ t tl u, Regex.lazy_tail t = Some (tl, u) →
                  String.length u < String.length t).
  { induction t as [|c t IH]; intros tl u; simpl; [done|].
    destruct (Ascii.eqb c ")"); [intros [= _ ->]; lia|].
    destruct (Ascii.eqb c "("); [done|].
    destruct (Regex.lazy_tail t) as [[tl' u']|] eqn:Ht; simpl; [|done].
    intros [= _ ->]. specialize (IH _ _ eq_refl). lia. }
  assert (Hhere : ∀ t m' u, Regex.match_here t = Some (m', u) →
                  String.length u < String.length t).
  { intros t m' u. unfold Regex.match_here. intros H.
    apply bind_Some in H as (t1 & H1 & H).
    apply bind_Some in H as ([mm t2] & H2 & H).
    apply bind_Some in H as (t3 & H3 & H).
    apply bind_Some in H as ([tl u'] & H4 & H).
    injection H as _ ->. apply Hlit in H1, H3. apply Htail in H4.
    assert (String.length t2 ≤ String.length t1); [|lia].
    unfold Regex.min_or_max in H2.
    destruct (Str.lit "min" t1) as [v'|] eqn:Ha.
    - injection H2 as _ ->. by apply Hlit in Ha.
    - destruct (Str.lit "max" t1) as [v'|] eqn:Hb; simpl in H2; [|done].
      injection H2 as _ ->. by apply Hlit in Hb. }
  clear replaceOrThrow. revert pre m rest Hexec.
  induction s as [|c s IH]; intros pre m rest; simpl.
  - done.
  - destruct (Regex.match_here (String c s)) as [[m' u]|] eqn:Hm.
    + intros [= _ _ ->]. by apply Hhere in Hm.
    + destruct (Regex.exec s) as [[[pre' m''] rest']|] eqn:He; simpl; [|done].
      intros [= _ _ ->]. specialize (IH _ _ _ eq_refl). lia.
Qed.

(** [replaceMediaQueryWithWidthEvaluation] with that matcher. *)
Definition replaceMediaQueryWithWidthEvaluationOrThrow
    (ruleText : string) (widthValue : Z) : Completion string :=
  replaceOrThrow
    (λ matchedSubstring,
       match matchOrThrow matchedSubstring widthValue with
       | Normal true => Normal ENABLED_MEDIA_QUERY
       | Normal false => Normal DISABLED_MEDIA_QUERY
       | Throw e => Throw e
       end)
    ruleText.

(** The [for] loop over the rules of one sheet with that matcher. *)
Equations? scanRulesOrThrow (width : Z)
    (styleSheet styleSheetIndex ruleIndex : nat)
    (relevantSection : bool) (originalStyles : SavedStyles) (doc : Document)
    : Document * Completion SavedStyles
    by wf (ruleCount styleSheet doc - ruleIndex) lt :=
  scanRulesOrThrow width styleSheet styleSheetIndex ruleIndex relevantSection
      originalStyles doc
    with inspect (doc !! styleSheet) := {
    | exist _ None _ => (doc, Throw TypeError)
    | exist _ (Some sheet) Hsheet
        with inspect (cssRules sheet !! ruleIndex) := {
      | exist _ None _ => (doc, Normal originalStyles)
      | exist _ (Some rule) Hrule
          with inspect (updateRelevantSection relevantSection rule) := {
        | exist _ relevant _
            with inspect (negb relevant
                          || negb (isReplaceableMediaRule rule)) := {
          | exist _ true _ =>
              scanRulesOrThrow width styleSheet styleSheetIndex (S ruleIndex)
                relevant originalStyles doc
          | exist _ false _
              with inspect
                     (replaceMediaQueryWithWidthEvaluationOrThrow
                        (cssText rule) width) := {
            | exist _ (Throw e) _ => (doc, Throw e)
            | exist _ (Normal newRuleText) _
                with inspect
                       (replaceRule styleSheet newRuleText ruleIndex doc) := {
              | exist _ (doc', Normal _) Hreplaced =>
                  scanRulesOrThrow width styleSheet styleSheetIndex
                    (S ruleIndex) relevant
                    (saveOriginal originalStyles styleSheetIndex ruleIndex
                       (cssText rule))
                    doc'
              | exist _ (doc', Throw e) _ => (doc', Throw e) } } } } } }.
Proof.
  - apply lookup_lt_Some in Hrule. unfold ruleCount. rewrite Hsheet. simpl. lia.
  - apply lookup_lt_Some in Hrule.
    assert (ruleCount styleSheet doc' = ruleCount styleSheet doc) as ->.
    2:{ unfold ruleCount. rewrite Hsheet. simpl. lia. }
    revert Hreplaced.
    unfold replaceRule, mbind, dom_mbind, dom_bind, deleteRule, insertRule.
    rewrite Hsheet. destruct (decide _) as [_|]; [|lia].
    rewrite list_lookup_insert_eq by (by eapply lookup_lt_Some).
    destruct (decide _) as [_|]; [|done].
    destruct (parseRule _); [|done]. intros [= <-].
    unfold ruleCount. rewrite list_insert_insert_eq.
    rewrite list_lookup_insert_eq by (by eapply lookup_lt_Some).
    rewrite Hsheet. simpl.
    rewrite length_app, length_take. simpl.
    rewrite length_drop, length_delete by (by apply lookup_lt_is_Some_2).
    lia.
Qed.

(** [styleSheets.forEach( ... )] with that matcher. *)
Fixpoint scanStyleSheetsOrThrow (width : Z) (styleSheets : list nat)
    (styleSheetIndex : nat) (originalStyles : SavedStyles)
    : DOM SavedStyles :=
  match styleSheets with
  | [] => mret originalStyles
  | styleSheet :: rest =>
      originalStyles ←
        scanRulesOrThrow width styleSheet styleSheetIndex 0 false
          originalStyles;
      scanStyleSheetsOrThrow width rest (S styleSheetIndex) originalStyles
  end.

(** The effect of the hook with that matcher. *)
Definition useSimulatedMediaQueryOrThrow (hostname : string) (width : Z)
    : DOM Cleanup :=
  λ doc,
    let styleSheets := getStyleSheetsThatMatchHostname hostname doc in
    (originalStyles ← scanStyleSheetsOrThrow width styleSheets 0 [];
     mret {| styleSheets := styleSheets;
             originalStyles := originalStyles |}) doc.

(** ** What the loops compute

    Readings of the sheets and of the saved texts by position, the value
    of the flag of the scan at a rule, and the scan of one sheet as a
    recursion on its rules; the proofs relate the loops above to them. *)

(** [originalStyles[ i ][ j ]], when row [i] exists. *)
Definition saved (originalStyles : SavedStyles)
    (styleSheetIndex ruleIndex : nat) : option string :=
  row ← JsArray.get originalStyles styleSheetIndex;
  JsArray.get row ruleIndex.

(** [document.styleSheets[ s ].cssRules[ i ]] *)
Definition ruleAt (doc : Document) (styleSheet ruleIndex : nat)
    : option CSSRule :=
  sheet ← doc !! styleSheet; cssRules sheet !! ruleIndex.

(** The value of [relevantSection] when the rule [j] places further
    reaches the test that decides whether it is replaced. *)
Definition flagAfter (relevantSection : bool) (todo : list CSSRule)
    (j : nat) : bool :=
  foldl updateRelevantSection relevantSection (take (S j) todo).

(** The same in a scan from the first rule of a sheet. *)
Definition relevantAt (rules : list CSSRule) (ruleIndex : nat) : bool :=
  flagAfter false rules ruleIndex.

(** The rule at [ruleIndex] passes that test. *)
Definition candidate (rules : list CSSRule) (ruleIndex : nat) : bool :=
  match rules !! ruleIndex with
  | Some rule => relevantAt rules ruleIndex && isReplaceableMediaRule rule
  | None => false
  end.

(** The text that the cleanup puts back at a position: the saved text,
    unless it is falsy. *)
Definition restorable (rulesCollection : list (option string))
    (ruleIndex : nat) : option string :=
  text ← JsArray.get rulesCollection ruleIndex;
  if Str.truthy text then Some text else None.

Definition restored (originalStyles : SavedStyles)
    (styleSheetIndex ruleIndex : nat) : option string :=
  row ← JsArray.get originalStyles styleSheetIndex;
  restorable row ruleIndex.

(** What a completed scan makes of one sheet and of its row of saved
    texts: the rules that pass the test are replaced by what the parser
    builds from their rewritten text, and their texts are saved; nothing
    else changes. *)
Definition scannedSheet (width : Z) (sheet sheet' : CSSStyleSheet)
    (before after : nat → option string) : Prop :=
  href sheet' = href sheet ∧
  length (cssRules sheet') = length (cssRules sheet) ∧
  (∀ i rule, cssRules sheet !! i = Some rule →
     if candidate (cssRules sheet) i
     then
       cssRules sheet' !! i
       = parseRule
           (replaceMediaQueryWithWidthEvaluation
              (cssText rule) width)
       ∧ after i = Some (cssText rule)
     else cssRules sheet' !! i = Some rule ∧ after i = before i) ∧
  (∀ i, length (cssRules sheet) ≤ i → after i = before i).

(** The scan of the rules [todo] that remain from [ruleIndex] on: the
    rules it leaves in their place and how it completes.  When the parser
    refuses a rewritten text, the rule is gone (it was deleted and nothing
    was inserted) and the scan stops there. *)
Fixpoint scanFrom (width : Z) (styleSheetIndex ruleIndex : nat)
    (relevantSection : bool) (originalStyles : SavedStyles)
    (todo : list CSSRule) : list CSSRule * Completion SavedStyles :=
  match todo with
  | [] => ([], Normal originalStyles)
  | rule :: todo' =>
      let relevant := updateRelevantSection relevantSection rule in
      if negb relevant || negb (isReplaceableMediaRule rule)
      then
        let '(rules, res) :=
          scanFrom width styleSheetIndex (S ruleIndex) relevant
            originalStyles todo' in
        (rule :: rules, res)
      else
        match parseRule
                (replaceMediaQueryWithWidthEvaluation
                   (cssText rule) width) with
        | None => (todo', Throw SyntaxError)
        | Some r =>
            let '(rules, res) :=
              scanFrom width styleSheetIndex (S ruleIndex) relevant
                (saveOriginal originalStyles styleSheetIndex ruleIndex
                   (cssText rule))
                todo' in
            (r :: rules, res)
        end
  end.

(** The scan of the rules [todo] with a matcher that may throw: when it
    throws, the rule it was called for and the rules behind it are in
    their place. *)
Fixpoint scanFromOrThrow (width : Z) (styleSheetIndex ruleIndex : nat)
    (relevantSection : bool) (originalStyles : SavedStyles)
    (todo : list CSSRule) : list CSSRule * Completion SavedStyles :=
  match todo with
  | [] => ([], Normal originalStyles)
  | rule :: todo' =>
      let relevant := updateRelevantSection relevantSection rule in
      if negb relevant || negb (isReplaceableMediaRule rule)
      then
        let '(rules, res) :=
          scanFromOrThrow width styleSheetIndex (S ruleIndex) relevant
            originalStyles todo' in
        (rule :: rules, res)
      else
        match replaceMediaQueryWithWidthEvaluationOrThrow
                (cssText rule) width with
        | Throw e => (rule :: todo', Throw e)
        | Normal newRuleText =>
            match parseRule newRuleText with
            | None => (todo', Throw SyntaxError)
            | Some r =>
                let '(rules, res) :=
                  scanFromOrThrow width styleSheetIndex (S ruleIndex)
                    relevant
                    (saveOriginal originalStyles styleSheetIndex ruleIndex
                       (cssText rule))
                    todo' in
                (r :: rules, res)
            end
        end
  end.

(** The rewriting of the text of a rule completes, and the parser accepts
    the text it gives. *)
Definition rewritable (width : Z) (rule : CSSRule) : Prop :=
  ∃ text,
    replaceMediaQueryWithWidthEvaluationOrThrow (cssText rule) width
    = Normal text ∧
    is_Some (parseRule text).

(** * Properties *)

(** ** Strings and the pattern *)

Section StringFacts.

Local Arguments String.append !_ _ / : simpl nomatch.
Local Arguments String.prefix !_ !_ /.
Local Arguments Ascii.eqb : simpl never.
Local Arguments ascii_dec : simpl never.

Lemma append_nil_r (s : string) : s +:+ "" = s.
Proof. induction s as [|c s IH]; simpl; congruence. Qed.

Lemma append_assoc (s t u : string) : (s +:+ t) +:+ u = s +:+ t +:+ u.
Proof. induction s as [|c s IH]; simpl; congruence. Qed.

Lemma lit_Some (p s t : string) : Str.lit p s = Some t ↔ s = p +:+ t.
Proof.
  revert s. induction p as [|a p IH]; intros s; simpl.
  - split; [by intros [= ->] | by intros ->].
  - destruct s as [|b s]; [by split|].
    destruct (Ascii.eqb_spec a b) as [->|Hne].
    + rewrite IH. split; [by intros -> | by intros [= ->]].
    + split; [done | intros [= ? ?]; by subst].
Qed.

Lemma lit_append (p t : string) : Str.lit p (p +:+ t) = Some t.
Proof. by apply lit_Some. Qed.

Lemma prefix_lit (p s : string) :
  String.prefix p s = true ↔ is_Some (Str.lit p s).
Proof.
  revert s. induction p as [|a p IH]; intros s; simpl.
  - destruct s; split; eauto.
  - destruct s as [|b s]; simpl; [split; [done | by intros [? ?]]|].
    destruct (ascii_dec a b) as [->|Hne].
    + by rewrite Ascii.eqb_refl.
    + apply Ascii.eqb_neq in Hne. rewrite Hne. split; [done | by intros [? ?]].
Qed.

Lemma includes_prefix (s p : string) :
  String.prefix p s = true → Str.includes s p = true.
Proof. intros H. destruct s; simpl; by rewrite H. Qed.

Lemma includes_cons (c : ascii) (s p : string) :
  Str.includes (String c s) p = false → Str.includes s p = false.
Proof. simpl. by intros [_ ?]%orb_false_iff. Qed.

(** A literal whose characters after the first are not opening
    parentheses cannot straddle the start of a text that opens with one: if
    it is read from [a +:+ "(" ...], and [a] is not empty, it lies in [a]. *)
Lemma lit_before_open (p a r t : string) :
  Str.open_free p = true →
  Str.lit p (a +:+ String "(" r) = Some t →
  String.prefix p a = true.
Proof.
  revert a. induction p as [|x p IH]; intros a Hp Hl.
  - by destruct a.
  - simpl in Hp. apply andb_true_iff in Hp as [Hx Hp].
    destruct a as [|y a]; simpl in *.
    + destruct (Ascii.eqb_spec x "(") as [->|]; [done|].
      destruct (Ascii.eqb x "("); done.
    + destruct (Ascii.eqb_spec x y) as [->|]; [|done].
      destruct (ascii_dec y y); [|done]. by apply IH.
Qed.

Lemma lazy_tail_Some (s m rest : string) :
  Regex.lazy_tail s = Some (m, rest) →
  ∃ body, m = body +:+ ")" ∧ s = m +:+ rest ∧ Str.paren_free body = true.
Proof.
  revert m. induction s as [|c s IH]; intros m; simpl; [done|].
  destruct (Ascii.eqb_spec c ")") as [->|Hc].
  - intros [= <- <-]. by exists ""%string.
  - destruct (Ascii.eqb_spec c "(") as [->|Ho]; [done|].
    destruct (Regex.lazy_tail s) as [[m' rest']|] eqn:Hs; simpl; [|done].
    intros [= <- <-]. destruct (IH _ eq_refl) as (body & -> & -> & Hb).
    exists (String c body). simpl. rewrite Hb.
    apply Ascii.eqb_neq in Hc, Ho. by rewrite Hc, Ho.
Qed.

Lemma lazy_tail_body (body rest : string) :
  Str.paren_free body = true →
  Regex.lazy_tail (body +:+ ")" +:+ rest) = Some (body +:+ ")", rest)%string.
Proof.
  induction body as [|c body IH]; simpl in *; [done|].
  intros [[Hc Ho]%andb_true_iff Hb]%andb_true_iff.
  apply negb_true_iff in Hc, Ho. rewrite Hc, Ho, IH by done. done.
Qed.

(** What the pattern matches at the front of a text: an opening
    parenthesis, [min] or [max], [-width:], a body free of parentheses and
    the closing parenthesis. *)
Lemma match_here_Some (s m rest : string) :
  Regex.match_here s = Some (m, rest) ↔
  s = m +:+ rest ∧
  ∃ mm body, (mm = "min" ∨ mm = "max")%string ∧
    m = "(" +:+ mm +:+ "-width:" +:+ body +:+ ")" ∧
    Str.paren_free body = true.
Proof.
  unfold Regex.match_here, Regex.min_or_max. split.
  - intros H.
    apply bind_Some in H as (s1 & ->%lit_Some & H).
    apply bind_Some in H as ([mm s2] & H2 & H).
    apply bind_Some in H as (s3 & ->%lit_Some & H).
    apply bind_Some in H as ([tl r] & H4 & H). injection H as <- <-.
    apply lazy_tail_Some in H4 as (body & -> & -> & Hb).
    assert (s1 = mm +:+ "-width:" +:+ (body +:+ ")") +:+ r
            ∧ (mm = "min" ∨ mm = "max")%string) as [-> Hmm].
    { destruct (Str.lit "min" s1) as [v|] eqn:Ha.
      - injection H2 as <- ->. apply lit_Some in Ha. auto.
      - apply bind_Some in H2 as (v & Hv%lit_Some & [= <- ->]). auto. }
    split.
    + destruct Hmm as [-> | ->]; simpl; by rewrite append_assoc.
    + exists mm, body. done.
  - intros (-> & mm & body & Hmm & -> & Hb).
    destruct Hmm as [-> | ->]; simpl; rewrite append_assoc;
      rewrite lazy_tail_body by done; done.
Qed.

(** A match does not look past its own end. *)
Lemma match_here_full (s m rest : string) :
  Regex.match_here s = Some (m, rest) →
  Regex.match_here m = Some (m, ""%string).
Proof.
  intros (_ & H)%match_here_Some. apply match_here_Some.
  by rewrite append_nil_r.
Qed.

Lemma match_here_append (m rest : string) :
  Regex.match_here m = Some (m, ""%string) →
  Regex.match_here (m +:+ rest) = Some (m, rest).
Proof. intros (_ & H)%match_here_Some. by apply match_here_Some. Qed.

Lemma exec_Some (s pre m rest : string) :
  Regex.exec s = Some (pre, m, rest) →
  s = pre +:+ m +:+ rest ∧ Regex.match_here m = Some (m, ""%string).
Proof.
  revert pre. induction s as [|c s IH]; intros pre; simpl; [done|].
  destruct (Regex.match_here (String c s)) as [[m' r']|] eqn:Hm.
  - intros [= <- <- <-]. split; [by apply match_here_Some in Hm as [? _]|].
    by eapply match_here_full.
  - destruct (Regex.exec s) as [[[pre' m''] rest']|] eqn:He; simpl; [|done].
    intros [= <- <- <-]. destruct (IH _ eq_refl) as [-> ?]. done.
Qed.

Lemma exec_here (s m rest : string) :
  Regex.match_here s = Some (m, rest) →
  Regex.exec s = Some (""%string, m, rest).
Proof. intros H. destruct s; cbn [Regex.exec]; by rewrite H. Qed.

Lemma match_here_literal (s m rest : string) :
  Regex.match_here s = Some (m, rest) →
  ∃ t, Str.lit "(min-width:" s = Some t ∨ Str.lit "(max-width:" s = Some t.
Proof.
  intros (-> & mm & body & Hmm & -> & _)%match_here_Some.
  exists (body +:+ ")" +:+ rest).
  destruct Hmm as [-> | ->]; [left | right]; apply lit_Some; simpl;
    by rewrite append_assoc.
Qed.

Lemma match_here_open (m rest : string) :
  Regex.match_here m = Some (m, rest) → ∃ m', m = String "(" m'.
Proof. intros (_ & mm & body & _ & -> & _)%match_here_Some. simpl. eauto. Qed.

Lemma literal_before_open (p : string) (c : ascii) (a r t : string) :
  Str.open_free p = true →
  Str.lit (String "(" p) (String c a +:+ String "(" r) = Some t →
  String.prefix (String "(" p) (String c a) = true.
Proof.
  intros Hp. simpl. destruct (Ascii.eqb_spec "(" c) as [<-|]; [|done].
  intros H%lit_before_open; [|done]. by destruct (ascii_dec "(" "(").
Qed.

(** The leftmost match: no text that precedes a clause and contains
    neither [(min-width:] nor [(max-width:] hides an earlier match. *)
Lemma exec_leftmost (pre clause rest : string) :
  Str.includes pre "(min-width:" = false →
  Str.includes pre "(max-width:" = false →
  Regex.match_here clause = Some (clause, ""%string) →
  Regex.exec (pre +:+ clause +:+ rest) = Some (pre, clause, rest).
Proof.
  intros Hmin Hmax Hc.
  induction pre as [|c pre IH].
  - simpl. by apply exec_here, match_here_append.
  - cbn [String.append Regex.exec].
    destruct (Regex.match_here (String c (pre +:+ clause +:+ rest)))
      as [[m r]|] eqn:Hm.
    + exfalso. apply match_here_literal in Hm as [t Hm].
      destruct (match_here_open _ _ Hc) as [clause' ->].
      change (String c (pre +:+ String "(" clause' +:+ rest))
        with (String c pre +:+ String "(" (clause' +:+ rest)) in Hm.
      destruct Hm as [Hm | Hm];
        apply literal_before_open, includes_prefix in Hm; done || congruence.
    + rewrite IH by (by eapply includes_cons). done.
Qed.

Lemma replace_step (f : string → string) (s : string) :
  replace f s =
  match Regex.exec s with
  | Some (pre, m, rest) => pre +:+ f m +:+ replace f rest
  | None => s
  end.
Proof.
  apply (replace_elim (λ f s r,
    r = match Regex.exec s with
        | Some (pre, m, rest) => pre +:+ f m +:+ replace f rest
        | None => s
        end)).
  - intros f' s' pre m rest Hexec _ _. by rewrite Hexec.
  - intros f' s' Hexec _. by rewrite Hexec.
Qed.

End StringFacts.

(** ** Width clauses *)

Section ClauseFacts.

Local Arguments String.append !_ _ / : simpl nomatch.
Local Arguments Ascii.eqb : simpl never.

Lemma digit_not_paren (c : ascii) (d : Z) :
  WidthClause.digit c = Some d →
  Ascii.eqb c ")" = false ∧ Ascii.eqb c "(" = false.
Proof. destruct c as [[] [] [] [] [] [] [] []]; by vm_compute. Qed.

Lemma pixels_tail (acc : option Z) (s : string) (v : Z) :
  WidthClause.pixels acc s = Some v →
  Regex.lazy_tail s = Some (s, ""%string).
Proof.
  revert acc. induction s as [|c s IH]; intros acc; simpl; [done|].
  destruct (WidthClause.digit c) as [d|] eqn:Hd.
  - intros H%IH. apply digit_not_paren in Hd as [-> ->]. by rewrite H.
  - destruct (Ascii.eqb_spec c "p") as [->|]; [|done].
    destruct (String.eqb_spec s "x)") as [->|]; done.
Qed.

Lemma skip_spaces_tail (s : string) :
  Regex.lazy_tail (WidthClause.skip_spaces s)
    = Some (WidthClause.skip_spaces s, ""%string) →
  Regex.lazy_tail s = Some (s, ""%string).
Proof.
  induction s as [|c s IH]; simpl; [done|].
  destruct (Ascii.eqb_spec c " ") as [->|]; [|done].
  intros H%IH. by rewrite H.
Qed.

(** A clause that reads as a number of pixels is one match of the
    pattern. *)
Lemma read_match_here (clause : string) (b : WidthClause.bound) (v : Z) :
  WidthClause.read clause = Some (b, v) →
  Regex.match_here clause = Some (clause, ""%string).
Proof.
  unfold WidthClause.read. intros H.
  assert (∃ mm s, (mm = "min" ∨ mm = "max")%string
            ∧ clause = "(" +:+ mm +:+ "-width:" +:+ s
            ∧ Regex.lazy_tail s = Some (s, ""%string))
    as (mm & s & Hmm & -> & Hs).
  { destruct (Str.lit "(min-width:" clause) as [s|] eqn:Hmin.
    - apply bind_Some in H as (v' & Hv & _).
      apply pixels_tail, skip_spaces_tail in Hv. apply lit_Some in Hmin.
      exists "min"%string, s. auto.
    - apply bind_Some in H as (s & Hmax%lit_Some & H).
      apply bind_Some in H as (v' & Hv & _).
      apply pixels_tail, skip_spaces_tail in Hv.
      exists "max"%string, s. auto. }
  apply lazy_tail_Some in Hs as (body & Hs & _ & Hb).
  apply match_here_Some. rewrite append_nil_r. split; [done|].
  exists mm, body. by rewrite <- Hs.
Qed.

End ClauseFacts.

(** ** Rewriting one rule text *)

Section RewritingFacts.

Local Arguments String.append !_ _ / : simpl nomatch.

Lemma rewrite_clause (pre clause post : string) (w : Z) :
  Str.includes pre "(min-width:" = false →
  Str.includes pre "(max-width:" = false →
  Regex.match_here clause = Some (clause, ""%string) →
  replaceMediaQueryWithWidthEvaluation (pre +:+ clause +:+ post) w
  = pre +:+ (if mediaQueryMatch clause w
             then ENABLED_MEDIA_QUERY else DISABLED_MEDIA_QUERY)
        +:+ replaceMediaQueryWithWidthEvaluation post w.
Proof.
  intros Hmin Hmax Hc. unfold replaceMediaQueryWithWidthEvaluation.
  rewrite replace_step. by rewrite (exec_leftmost _ _ _ Hmin Hmax Hc).
Qed.

Lemma rewrite_no_clause (s : string) (w : Z) :
  Regex.exec s = None → replaceMediaQueryWithWidthEvaluation s w = s.
Proof.
  intros H. unfold replaceMediaQueryWithWidthEvaluation.
  rewrite replace_step. by rewrite H.
Qed.

(** C5: rewriting substitutes only the width clauses: the rule text is a
    sequence of clauses, each one a match of the pattern, with text before,
    between and after them, and the rewritten text has the same pieces of
    text, character for character and in the same order, around the
    replacements. *)
Theorem text_outside_clauses_preserved (ruleText : string) (w : Z) :
  ∃ pieces tail,
    ruleText = assemble pieces tail ∧
    replaceMediaQueryWithWidthEvaluation ruleText w
    = assemble
        (map (λ '(before, clause),
                (before,
                 if mediaQueryMatch clause w
                 then ENABLED_MEDIA_QUERY else DISABLED_MEDIA_QUERY))
           pieces)
        tail ∧
    Forall (λ '(_, clause), Regex.match_here clause = Some (clause, ""%string))
      pieces ∧
    Regex.exec tail = None.
Proof.
  unfold replaceMediaQueryWithWidthEvaluation.
  set (f := λ matchedSubstring : string, _).
  apply (replace_elim (λ g s r,
    ∃ pieces tail,
      s = assemble pieces tail ∧
      r = assemble (map (λ '(before, clause), (before, g clause)) pieces)
            tail ∧
      Forall (λ '(_, clause),
                Regex.match_here clause = Some (clause, ""%string)) pieces ∧
      Regex.exec tail = None)).
  - intros g s pre m rest Hexec (pieces & tail & -> & -> & Hall & Htail) _.
    apply exec_Some in Hexec as [-> Hm].
    exists ((pre, m) :: pieces), tail. by repeat split; [constructor|].
  - intros g s Hexec _. by exists [], s.
Qed.

End RewritingFacts.

(** ** Arrays with holes *)

Section ArrayFacts.

Context {A : Type}.
Implicit Types (a : list (option A)) (v : A).

Lemma get_nil (i : nat) : JsArray.get (@nil (option A)) i = None.
Proof. done. Qed.

Lemma get_set a i j v :
  JsArray.get (JsArray.set a i v) j
  = if decide (i = j) then Some v else JsArray.get a j.
Proof.
  unfold JsArray.get, JsArray.set.
  destruct (decide (i < length a)) as [Hlt|Hge].
  - destruct (decide (i = j)) as [<-|Hne].
    + by rewrite list_lookup_insert_eq.
    + by rewrite list_lookup_insert_ne.
  - destruct (decide (i = j)) as [<-|Hne].
    + rewrite lookup_app_r by lia.
      rewrite lookup_app_r by (rewrite length_replicate; lia).
      rewrite length_replicate.
      by replace (i - length a - (i - length a)) with 0 by lia.
    + destruct (decide (j < length a)) as [Hj|Hj].
      * by rewrite lookup_app_l.
      * rewrite lookup_app_r by lia.
        rewrite (lookup_ge_None_2 a j) by lia.
        destruct (decide (j - length a < i - length a)) as [Hin|Hout].
        -- rewrite lookup_app_l by (by rewrite length_replicate).
           rewrite lookup_replicate_2 by done. done.
        -- rewrite lookup_app_r by (rewrite length_replicate; lia).
           rewrite length_replicate.
           destruct (j - length a - (i - length a)) as [|n] eqn:Hn; [lia|].
           done.
Qed.

End ArrayFacts.

Lemma saved_nil (k i : nat) : saved [] k i = None.
Proof. done. Qed.

Lemma saved_saveOriginal (os : SavedStyles) (k i k' i' : nat) (t : string) :
  saved (saveOriginal os k i t) k' i'
  = if decide (k = k' ∧ i = i') then Some t else saved os k' i'.
Proof.
  unfold saved, saveOriginal.
  destruct (JsArray.get os k) as [row|] eqn:Hrow.
  - rewrite Hrow. rewrite get_set.
    destruct (decide (k = k')) as [<-|Hk].
    + rewrite Hrow. simpl. rewrite get_set.
      destruct (decide (i = i')) as [<-|Hi].
      * by rewrite decide_True.
      * by rewrite decide_False by (by intros [_ ?]).
    + by rewrite decide_False by (by intros [? _]).
  - rewrite get_set, decide_True by done. rewrite !get_set.
    destruct (decide (k = k')) as [<-|Hk].
    + rewrite Hrow. simpl. rewrite get_set.
      destruct (decide (i = i')) as [<-|Hi].
      * by rewrite decide_True.
      * by rewrite decide_False by (by intros [_ ?]).
    + by rewrite decide_False by (by intros [? _]).
Qed.

(** ** The DOM methods *)

Section DomFacts.

Lemma delete_then_insert (rules : list CSSRule) (i : nat) (r : CSSRule) :
  i < length rules →
  take i (delete i rules) ++ r :: drop i (delete i rules) = <[i := r]> rules.
Proof.
  intros Hi. rewrite delete_take_drop.
  rewrite take_app_length' by (rewrite length_take; lia).
  rewrite drop_app_length' by (rewrite length_take; lia).
  by rewrite insert_take_drop.
Qed.

(** The two steps of [replaceRule] as one update, with every way it can
    throw. *)
Lemma replaceRule_spec (styleSheet : nat) (text : string) (i : nat)
    (doc : Document) :
  replaceRule styleSheet text i doc =
  match doc !! styleSheet with
  | None => (doc, Throw TypeError)
  | Some sheet =>
      if decide (i < length (cssRules sheet))
      then
        match parseRule text with
        | Some r =>
            (<[styleSheet := withRules (λ rules, <[i := r]> rules) sheet]> doc,
             Normal tt)
        | None =>
            (<[styleSheet := withRules (delete i) sheet]> doc,
             Throw SyntaxError)
        end
      else (doc, Throw IndexSizeError)
  end.
Proof.
  unfold replaceRule, mbind, dom_mbind, dom_bind, deleteRule, insertRule.
  destruct (doc !! styleSheet) as [sheet|] eqn:Hsheet; [|done].
  destruct (decide (i < length (cssRules sheet))) as [Hi|Hi]; [|done].
  rewrite list_lookup_insert_eq by (by eapply lookup_lt_Some).
  simpl. rewrite decide_True
    by (rewrite length_delete by (by apply lookup_lt_is_Some_2); lia).
  destruct (parseRule text) as [r|]; [|done].
  rewrite list_insert_insert_eq. unfold withRules. simpl.
  by rewrite delete_then_insert.
Qed.

End DomFacts.

(** ** The scan of one sheet *)

Section ScanFacts.

(** One turn of the loop. *)
Lemma scanRules_step (width : Z) (styleSheet styleSheetIndex ruleIndex : nat)
    (relevantSection : bool) (originalStyles : SavedStyles) (doc : Document) :
  scanRules width styleSheet styleSheetIndex ruleIndex relevantSection
    originalStyles doc =
  match doc !! styleSheet with
  | None => (doc, Throw TypeError)
  | Some sheet =>
      match cssRules sheet !! ruleIndex with
      | None => (doc, Normal originalStyles)
      | Some rule =>
          let relevant := updateRelevantSection relevantSection rule in
          if negb relevant || negb (isReplaceableMediaRule rule)
          then
            scanRules width styleSheet styleSheetIndex (S ruleIndex) relevant
              originalStyles doc
          else
            match replaceRule styleSheet
                (replaceMediaQueryWithWidthEvaluation (cssText rule) width)
                    ruleIndex doc with
            | (doc', Normal _) =>
                scanRules width styleSheet styleSheetIndex (S ruleIndex)
                  relevant
                  (saveOriginal originalStyles styleSheetIndex ruleIndex
                     (cssText rule))
                  doc'
            | (doc', Throw e) => (doc', Throw e)
            end
      end
  end.
Proof.
  apply (scanRules_elim
    (λ width styleSheet styleSheetIndex ruleIndex relevantSection
       originalStyles doc result,
     result =
     match doc !! styleSheet with
     | None => (doc, Throw TypeError)
     | Some sheet =>
         match cssRules sheet !! ruleIndex with
         | None => (doc, Normal originalStyles)
         | Some rule =>
             let relevant := updateRelevantSection relevantSection rule in
             if negb relevant || negb (isReplaceableMediaRule rule)
             then
               scanRules width styleSheet styleSheetIndex (S ruleIndex)
                 relevant originalStyles doc
             else
               match replaceRule styleSheet
                   (replaceMediaQueryWithWidthEvaluation (cssText rule) width)
                       ruleIndex doc with
               | (doc', Normal _) =>
                   scanRules width styleSheet styleSheetIndex (S ruleIndex)
                     relevant
                     (saveOriginal originalStyles styleSheetIndex ruleIndex
                        (cssText rule))
                     doc'
               | (doc', Throw e) => (doc', Throw e)
               end
         end
     end)); clear.
  all: intros; simpl;
    repeat match goal with
           | H : _ = _ |- _ => rewrite H
           end; try done.
Qed.

Lemma withRules_id (sheet : CSSStyleSheet) :
  withRules (λ _, cssRules sheet) sheet = sheet.
Proof. by destruct sheet. Qed.

(** The loop computes [scanFrom] on the rules it has not reached, and
    leaves the other sheets in place. *)
Lemma scanRules_scanFrom (width : Z) (styleSheet styleSheetIndex : nat)
    (todo : list CSSRule) :
  ∀ (scanned : list CSSRule) (relevantSection : bool)
    (originalStyles : SavedStyles) (doc : Document) (sheet : CSSStyleSheet),
    doc !! styleSheet = Some sheet →
    cssRules sheet = scanned ++ todo →
    scanRules width styleSheet styleSheetIndex (length scanned)
      relevantSection originalStyles doc
    = let '(rules, res) :=
        scanFrom width styleSheetIndex (length scanned) relevantSection
          originalStyles todo in
      (<[styleSheet := withRules (λ _, scanned ++ rules) sheet]> doc, res).
Proof.
  induction todo as [|rule todo IH];
    intros scanned relevantSection originalStyles doc sheet Hsheet Hrules.
  - simpl. rewrite scanRules_step, Hsheet, Hrules.
    rewrite lookup_ge_None_2 by (rewrite length_app; simpl; lia).
    rewrite <- Hrules, withRules_id, list_insert_id; done.
  - rewrite scanRules_step, Hsheet, Hrules.
    rewrite lookup_app_r, Nat.sub_diag by lia.
    cbn [lookup list_lookup scanFrom].
    set (relevant := updateRelevantSection relevantSection rule).
    cbv zeta.
    destruct (negb relevant || negb (isReplaceableMediaRule rule)).
    + specialize (IH (scanned ++ [rule]) relevant originalStyles doc sheet
                     Hsheet).
      rewrite length_app, Nat.add_1_r in IH.
      rewrite <- app_assoc in IH. rewrite (IH Hrules).
      destruct (scanFrom _ _ _ _ _ todo) as [rules res].
      by rewrite <- app_assoc.
    + rewrite replaceRule_spec, Hsheet, Hrules.
      rewrite decide_True by (rewrite length_app; simpl; lia).
      destruct (parseRule _) as [r|]; simpl.
      * set (sheet1 := withRules _ sheet).
        specialize (IH (scanned ++ [r]) relevant
                       (saveOriginal originalStyles styleSheetIndex
                          (length scanned) (cssText rule))
                       (<[styleSheet := sheet1]> doc) sheet1).
        rewrite length_app, Nat.add_1_r in IH.
        rewrite list_lookup_insert_eq in IH by (by eapply lookup_lt_Some).
        specialize (IH eq_refl).
        assert (cssRules sheet1 = (scanned ++ [r]) ++ todo) as Hrules1.
        { unfold sheet1, withRules. simpl. rewrite Hrules.
          rewrite insert_app_r_alt, Nat.sub_diag by lia.
          by rewrite <- app_assoc. }
        rewrite (IH Hrules1).
        destruct (scanFrom _ _ _ _ _ todo) as [rules res].
        rewrite list_insert_insert_eq. by rewrite <- app_assoc.
      * unfold withRules. simpl. rewrite Hrules.
        rewrite delete_middle. done.
Qed.

Section ScanFromFacts.

Context (width : Z) (styleSheetIndex : nat).

Lemma scanFrom_length (todo : list CSSRule) :
  ∀ ruleIndex relevantSection originalStyles rules originalStyles',
    scanFrom width styleSheetIndex ruleIndex relevantSection originalStyles
      todo = (rules, Normal originalStyles') →
    length rules = length todo.
Proof.
  induction todo as [|rule todo IH]; intros ri rel os rules os'; simpl.
  - by intros [= <- <-].
  - destruct (negb _ || negb _).
    + destruct (scanFrom _ _ _ _ _ todo) as [rs res] eqn:H.
      intros [= <- ->]. simpl. f_equal. eauto.
    + destruct (parseRule _); [|done].
      destruct (scanFrom _ _ _ _ _ todo) as [rs res] eqn:H.
      intros [= <- ->]. simpl. f_equal. eauto.
Qed.

Lemma scanFrom_rules (todo : list CSSRule) :
  ∀ ruleIndex relevantSection originalStyles rules originalStyles',
    scanFrom width styleSheetIndex ruleIndex relevantSection originalStyles
      todo = (rules, Normal originalStyles') →
    ∀ j rule, todo !! j = Some rule →
      rules !! j =
      if flagAfter relevantSection todo j && isReplaceableMediaRule rule
      then parseRule (replaceMediaQueryWithWidthEvaluation (cssText rule) width)
      else Some rule.
Proof.
  unfold flagAfter.
  induction todo as [|rule todo IH]; intros ri rel os rules os'; simpl;
    [done|].
  destruct (negb _ || negb _) eqn:Hskip.
  - destruct (scanFrom _ _ _ _ _ todo) as [rs res] eqn:H.
    intros [= <- ->] [|j] rule'; simpl.
    + intros [= <-]. rewrite ?take_0. simpl.
      apply orb_true_iff in Hskip as [->%negb_true_iff| ->%negb_true_iff];
        by rewrite ?andb_false_r.
    + intros Hj. by eapply IH.
  - destruct (parseRule _) as [r|] eqn:Hr; [|done].
    destruct (scanFrom _ _ _ _ _ todo) as [rs res] eqn:H.
    intros [= <- ->] [|j] rule'; simpl.
    + intros [= <-]. rewrite ?take_0. simpl.
      apply orb_false_iff in Hskip as [->%negb_false_iff ->%negb_false_iff].
      done.
    + intros Hj. by eapply IH.
Qed.

Lemma scanFrom_saved_frame (todo : list CSSRule) :
  ∀ ruleIndex relevantSection originalStyles rules originalStyles',
    scanFrom width styleSheetIndex ruleIndex relevantSection originalStyles
      todo = (rules, Normal originalStyles') →
    ∀ k i,
      k ≠ styleSheetIndex ∨ i < ruleIndex ∨ ruleIndex + length todo ≤ i →
      saved originalStyles' k i = saved originalStyles k i.
Proof.
  induction todo as [|rule todo IH]; intros ri rel os rules os'; simpl.
  - by intros [= <- <-] k i.
  - destruct (negb _ || negb _).
    + destruct (scanFrom _ _ _ _ _ todo) as [rs res] eqn:H.
      intros [= <- ->] k i Hki. apply (IH _ _ _ _ _ H). lia.
    + destruct (parseRule _); [|done].
      destruct (scanFrom _ _ _ _ _ todo) as [rs res] eqn:H.
      intros [= <- ->] k i Hki.
      rewrite (IH _ _ _ _ _ H) by lia.
      rewrite saved_saveOriginal, decide_False; [done | lia].
Qed.

Lemma scanFrom_saved (todo : list CSSRule) :
  ∀ ruleIndex relevantSection originalStyles rules originalStyles',
    scanFrom width styleSheetIndex ruleIndex relevantSection originalStyles
      todo = (rules, Normal originalStyles') →
    ∀ j rule, todo !! j = Some rule →
      saved originalStyles' styleSheetIndex (ruleIndex + j) =
      if flagAfter relevantSection todo j && isReplaceableMediaRule rule
      then Some (cssText rule)
      else saved originalStyles styleSheetIndex (ruleIndex + j).
Proof.
  unfold flagAfter.
  induction todo as [|rule todo IH]; intros ri rel os rules os'; simpl;
    [done|].
  destruct (negb _ || negb _) eqn:Hskip.
  - destruct (scanFrom _ _ _ _ _ todo) as [rs res] eqn:H.
    intros [= <- ->] [|j] rule'; simpl.
    + intros [= <-]. rewrite ?take_0. simpl.
      rewrite (scanFrom_saved_frame _ _ _ _ _ _ H) by lia.
      apply orb_true_iff in Hskip as [->%negb_true_iff| ->%negb_true_iff];
        by rewrite ?andb_false_r.
    + intros Hj. rewrite <- Nat.add_succ_comm. by eapply IH.
  - destruct (parseRule _) as [r|] eqn:Hr; [|done].
    destruct (scanFrom _ _ _ _ _ todo) as [rs res] eqn:H.
    intros [= <- ->] [|j] rule'; simpl.
    + intros [= <-]. rewrite ?take_0. simpl.
      rewrite (scanFrom_saved_frame _ _ _ _ _ _ H) by lia.
      apply orb_false_iff in Hskip as [->%negb_false_iff ->%negb_false_iff].
      simpl. rewrite saved_saveOriginal, decide_True; [done | lia].
    + intros Hj. rewrite <- Nat.add_succ_comm.
      rewrite (IH _ _ _ _ _ H _ _ Hj).
      rewrite saved_saveOriginal, decide_False; [done | lia].
Qed.

(** The scan goes through when the parser accepts the rewritten text of
    every rule it replaces. *)
Lemma scanFrom_completes (todo : list CSSRule) :
  ∀ ruleIndex relevantSection originalStyles,
    (∀ j rule, todo !! j = Some rule →
       flagAfter relevantSection todo j && isReplaceableMediaRule rule →
       is_Some (parseRule
           (replaceMediaQueryWithWidthEvaluation (cssText rule) width))) →
    ∃ rules originalStyles',
      scanFrom width styleSheetIndex ruleIndex relevantSection
        originalStyles todo = (rules, Normal originalStyles').
Proof.
  unfold flagAfter.
  induction todo as [|rule todo IH]; intros ri rel os Hparse; simpl;
    [by eexists _, _|].
  destruct (negb _ || negb _) eqn:Hskip.
  - destruct (IH (S ri) (updateRelevantSection rel rule) os)
      as (rs & os1 & ->); [|by eexists _, _].
    intros j rule' Hj. apply (Hparse (S j) rule' Hj).
  - destruct (Hparse 0 rule eq_refl) as [r ->].
    { rewrite ?take_0. simpl.
      by apply orb_false_iff in Hskip
        as [->%negb_false_iff ->%negb_false_iff]. }
    destruct (IH (S ri) (updateRelevantSection rel rule)
                (saveOriginal os styleSheetIndex ri (cssText rule)))
      as (rs & os1 & ->); [|by eexists _, _].
    intros j rule' Hj. apply (Hparse (S j) rule' Hj).
Qed.

End ScanFromFacts.

End ScanFacts.

(** ** The effect *)

Section EffectFacts.

Lemma candidate_lookup (rules : list CSSRule) (i : nat) (rule : CSSRule) :
  rules !! i = Some rule →
  candidate rules i = flagAfter false rules i && isReplaceableMediaRule rule.
Proof. unfold candidate, relevantAt. by intros ->. Qed.

(** A scan of a whole sheet that completes. *)
Lemma scanRules_Normal (width : Z) (styleSheet k : nat) (os os' : SavedStyles)
    (doc doc' : Document) :
  scanRules width styleSheet k 0 false os doc = (doc', Normal os') →
  ∃ sheet sheet',
    doc !! styleSheet = Some sheet ∧
    doc' = <[styleSheet := sheet']> doc ∧
    scannedSheet width sheet sheet' (saved os k) (saved os' k) ∧
    (∀ k' i, k' ≠ k → saved os' k' i = saved os k' i).
Proof.
  intros Hscan.
  destruct (doc !! styleSheet) as [sheet|] eqn:Hsheet;
    [|by rewrite scanRules_step, Hsheet in Hscan].
  pose proof (scanRules_scanFrom width styleSheet k
                (cssRules sheet) [] false os doc sheet Hsheet eq_refl) as H.
  simpl in H. rewrite H in Hscan. clear H.
  destruct (scanFrom _ _ _ _ _ _) as [rules res] eqn:Hfrom.
  injection Hscan as <- ->.
  exists sheet, (withRules (λ _, rules) sheet). repeat split; try done.
  - apply (scanFrom_length _ _ _ _ _ _ _ _ Hfrom).
  - intros i rule Hi. rewrite (candidate_lookup _ _ _ Hi). simpl.
    rewrite (scanFrom_rules _ _ _ _ _ _ _ _ Hfrom i rule Hi).
    pose proof (scanFrom_saved _ _ _ _ _ _ _ _ Hfrom i rule Hi) as Hs.
    simpl in Hs. rewrite Hs.
    by destruct (flagAfter false _ i && isReplaceableMediaRule rule).
  - intros i Hi.
    apply (scanFrom_saved_frame _ _ _ _ _ _ _ _ Hfrom). simpl. lia.
  - intros k' i Hk.
    apply (scanFrom_saved_frame _ _ _ _ _ _ _ _ Hfrom). auto.
Qed.

(** A scan of a whole sheet completes when the parser accepts what the
    sheet's candidates are rewritten to. *)
Lemma scanRules_completes (width : Z) (styleSheet k : nat) (os : SavedStyles)
    (doc : Document) (sheet : CSSStyleSheet) :
  doc !! styleSheet = Some sheet →
  (∀ i rule, cssRules sheet !! i = Some rule →
     candidate (cssRules sheet) i →
     is_Some (parseRule
         (replaceMediaQueryWithWidthEvaluation (cssText rule) width))) →
  ∃ doc' os', scanRules width styleSheet k 0 false os doc = (doc', Normal os').
Proof.
  intros Hsheet Hparse.
  pose proof (scanRules_scanFrom width styleSheet k
                (cssRules sheet) [] false os doc sheet Hsheet eq_refl) as H.
  simpl in H. rewrite H. clear H.
  destruct (scanFrom_completes width k
              (cssRules sheet) 0 false os) as (rules & os' & ->).
  { intros j rule Hj Hc. apply (Hparse j rule Hj).
    by rewrite (candidate_lookup _ _ _ Hj). }
  by eexists _, _.
Qed.

End EffectFacts.

(** ** The cleanup *)

Section CleanupFacts.

Lemma ruleAt_insert (doc : Document) (s s' i : nat) (sheet : CSSStyleSheet) :
  s < length doc →
  ruleAt (<[s := sheet]> doc) s' i
  = if decide (s = s') then cssRules sheet !! i else ruleAt doc s' i.
Proof.
  intros Hs. unfold ruleAt. destruct (decide (s = s')) as [<-|Hne].
  - by rewrite list_lookup_insert_eq.
  - by rewrite list_lookup_insert_ne.
Qed.

Lemma ruleCount_insert (doc : Document) (s s' : nat) (sheet : CSSStyleSheet) :
  s < length doc →
  ruleCount s' (<[s := sheet]> doc)
  = if decide (s = s') then length (cssRules sheet) else ruleCount s' doc.
Proof.
  intros Hs. unfold ruleCount. destruct (decide (s = s')) as [<-|Hne].
  - by rewrite list_lookup_insert_eq.
  - by rewrite list_lookup_insert_ne.
Qed.

(** A replacement that completes: one rule of one sheet is exchanged. *)
Lemma replaceRule_Normal (s i : nat) (text : string) (doc doc' : Document) :
  replaceRule s text i doc = (doc', Normal tt) →
  ∃ sheet r,
    doc !! s = Some sheet ∧ i < length (cssRules sheet) ∧
    parseRule text = Some r ∧
    doc' = <[s := withRules (λ rules, <[i := r]> rules) sheet]> doc.
Proof.
  rewrite replaceRule_spec.
  destruct (doc !! s) as [sheet|]; [|done].
  destruct (decide _); [|done]. destruct (parseRule text) as [r|]; [|done].
  intros [= <-]. by exists sheet, r.
Qed.

Lemma restorable_cons (o : option string) (row : list (option string))
    (j : nat) :
  restorable (o :: row) (S j) = restorable row j.
Proof. done. Qed.

(** The inner loop, when it completes. *)
Lemma restoreRules_Normal (row : list (option string)) :
  ∀ (sheetRef : option nat) (ri : nat) (doc doc' : Document),
    restoreRules sheetRef ri row doc = (doc', Normal tt) →
    length doc' = length doc ∧
    (∀ s, sheetRef ≠ Some s → doc' !! s = doc !! s) ∧
    (∀ s, href <$> doc' !! s = href <$> doc !! s) ∧
    (∀ s, ruleCount s doc' = ruleCount s doc) ∧
    (∀ s i, sheetRef = Some s → i < ri → ruleAt doc' s i = ruleAt doc s i) ∧
    (∀ s j, sheetRef = Some s →
       ruleAt doc' s (ri + j)
       = match restorable row j with
         | Some text => parseRule text
         | None => ruleAt doc s (ri + j)
         end) ∧
    (∀ j text, restorable row j = Some text →
       ∃ s, sheetRef = Some s ∧ ri + j < ruleCount s doc
            ∧ is_Some (parseRule text)).
Proof.
  induction row as [|o row IH]; intros sheetRef ri doc doc'.
  - intros [= <-]. repeat split; try done.
  - cbn [restoreRules]. unfold mbind, dom_mbind, dom_bind.
    destruct (restoreRule sheetRef ri o doc) as [doc1 [[]|e]]
      eqn:Hfirst; [|done].
    intros Hrest. apply IH in Hrest as (Hlen & Hother & Hhref & Hcount
                                        & Hbelow & Hat & Hok).
    assert ((restorable (o :: row) 0 = None ∧ doc1 = doc) ∨
            ∃ text s sheet r,
              restorable (o :: row) 0 = Some text ∧ sheetRef = Some s ∧
              doc !! s = Some sheet ∧ ri < length (cssRules sheet) ∧
              parseRule text = Some r ∧
              doc1 = <[s := withRules (λ rules, <[ri := r]> rules) sheet]> doc)
      as Hstep.
    { unfold restorable, JsArray.get.
      unfold restoreRule, mret, dom_mret, dom_ret, dom_throw in Hfirst.
      destruct o as [text|]; simpl; [|left; by injection Hfirst].
      destruct (Str.truthy text); [|left; by injection Hfirst].
      destruct sheetRef as [s|]; [|done].
      apply replaceRule_Normal in Hfirst as (sheet & r & ? & ? & ? & ?).
      right. by exists text, s, sheet, r. }
    destruct Hstep as [[H0 ->]|(text & s & sheet & r & H0 & -> & Hs & Hri
                                 & Hr & ->)].
    + repeat split; try done.
      * intros s i Href Hi. apply Hbelow; [done | lia].
      * intros s [|j] Href.
        -- rewrite H0, Nat.add_0_r. apply Hbelow; [done | lia].
        -- rewrite restorable_cons, <- Nat.add_succ_comm. by apply Hat.
      * intros [|j] text; [by rewrite H0|]. rewrite restorable_cons.
        intros (s & ? & ? & ?)%Hok. exists s. split; [done | split; [lia | done]].
    + assert (s < length doc) as Hlt by (by eapply lookup_lt_Some).
      rewrite length_insert in Hlen.
      repeat split; try done.
      * intros s' Hne. rewrite Hother by done.
        apply list_lookup_insert_ne. congruence.
      * intros s'. rewrite Hhref.
        destruct (decide (s = s')) as [<-|Hne].
        -- by rewrite list_lookup_insert_eq, Hs.
        -- by rewrite list_lookup_insert_ne.
      * intros s'. rewrite Hcount, ruleCount_insert by done.
        destruct (decide (s = s')) as [<-|Hne]; [|done].
        unfold ruleCount. rewrite Hs. simpl. by rewrite length_insert.
      * intros s' i [= <-] Hi. rewrite Hbelow by (done || lia).
        rewrite ruleAt_insert, decide_True by done. simpl.
        rewrite list_lookup_insert_ne by lia. unfold ruleAt. by rewrite Hs.
      * intros s' [|j] [= <-].
        -- rewrite H0, Nat.add_0_r. rewrite Hbelow by (done || lia).
           rewrite ruleAt_insert, decide_True by done. simpl.
           by rewrite list_lookup_insert_eq.
        -- rewrite restorable_cons, <- Nat.add_succ_comm.
           rewrite Hat by done. destruct (restorable row j); [done|].
           rewrite ruleAt_insert, decide_True by done. simpl.
           rewrite list_lookup_insert_ne by lia. unfold ruleAt. by rewrite Hs.
      * intros [|j] text'.
        -- rewrite H0. intros [= <-]. exists s. rewrite Nat.add_0_r.
           unfold ruleCount. rewrite Hs. simpl. by rewrite Hr.
        -- rewrite restorable_cons. intros (s' & [= <-] & Hj & ?)%Hok.
           exists s. rewrite ruleCount_insert, decide_True in Hj by done.
           simpl in Hj. rewrite length_insert in Hj.
           unfold ruleCount. rewrite Hs. simpl.
           split; [done | split; [lia | done]].
Qed.

(** The inner loop completes when every text it puts back is accepted
    by the parser and goes to a rule that exists. *)
Lemma restoreRules_completes (row : list (option string)) :
  ∀ (sheetRef : option nat) (ri : nat) (doc : Document),
    (∀ j text, restorable row j = Some text →
       ∃ s, sheetRef = Some s ∧ ri + j < ruleCount s doc
            ∧ is_Some (parseRule text)) →
    ∃ doc', restoreRules sheetRef ri row doc = (doc', Normal tt).
Proof.
  induction row as [|o row IH]; intros sheetRef ri doc Hok; [by eexists|].
  cbn [restoreRules]. unfold mbind, dom_mbind, dom_bind.
  assert (∃ doc1, restoreRule sheetRef ri o doc = (doc1, Normal tt)
                  ∧ ∀ s, ruleCount s doc1 = ruleCount s doc)
    as (doc1 & -> & Hcount).
  { specialize (Hok 0). unfold restorable, JsArray.get in Hok. simpl in Hok.
    unfold restoreRule. destruct o as [text|]; [|by eexists].
    simpl in Hok. destruct (Str.truthy text); [|by eexists].
    destruct (Hok text eq_refl) as (s & -> & Hri & [r Hr]).
    rewrite Nat.add_0_r in Hri. rewrite replaceRule_spec.
    unfold ruleCount in Hri.
    destruct (doc !! s) as [sheet|] eqn:Hs; simpl in Hri; [|lia].
    rewrite decide_True, Hr by done. eexists. split; [done|].
    intros s'. rewrite ruleCount_insert by (by eapply lookup_lt_Some).
    destruct (decide (s = s')) as [<-|]; [|done].
    unfold ruleCount. rewrite Hs. simpl. by rewrite length_insert. }
  apply IH. intros j text Hj.
  destruct (Hok (S j) text Hj) as (s & ? & ? & ?).
  exists s. rewrite Hcount. split; [done | split; [lia | done]].
Qed.

Lemma restored_cons_0 (o : option (list (option string)))
    (rows : SavedStyles) (i : nat) :
  restored (o :: rows) 0 i = row ← o; restorable row i.
Proof. done. Qed.

Lemma restored_cons_S (o : option (list (option string)))
    (rows : SavedStyles) (j i : nat) :
  restored (o :: rows) (S j) i = restored rows j i.
Proof. done. Qed.

Lemma ruleAt_ext (doc doc' : Document) (s i : nat) :
  doc' !! s = doc !! s → ruleAt doc' s i = ruleAt doc s i.
Proof. unfold ruleAt. by intros ->. Qed.

Section Rows.

Variable styleSheets : list nat.
Hypothesis styleSheets_NoDup : NoDup styleSheets.

(** The outer loop, when it completes: the rows from [k] on are put back,
    each into the sheet [styleSheets[ k + j ]]. *)
Lemma restoreStyleSheets_Normal (rows : SavedStyles) :
  ∀ (k : nat) (doc doc' : Document),
    restoreStyleSheets styleSheets k rows doc = (doc', Normal tt) →
    length doc' = length doc ∧
    (∀ s, s ∉ styleSheets → doc' !! s = doc !! s) ∧
    (∀ s, href <$> doc' !! s = href <$> doc !! s) ∧
    (∀ s, ruleCount s doc' = ruleCount s doc) ∧
    (∀ j s i, styleSheets !! j = Some s → j < k →
       ruleAt doc' s i = ruleAt doc s i) ∧
    (∀ j s i, styleSheets !! (k + j) = Some s →
       ruleAt doc' s i
       = match restored rows j i with
         | Some text => parseRule text
         | None => ruleAt doc s i
         end) ∧
    (∀ j i text, restored rows j i = Some text →
       ∃ s, styleSheets !! (k + j) = Some s ∧ i < ruleCount s doc
            ∧ is_Some (parseRule text)).
Proof.
  induction rows as [|o rows IH]; intros k doc doc'.
  - intros [= <-]. repeat split; try done.
  - cbn [restoreStyleSheets]. unfold mbind, dom_mbind, dom_bind.
    destruct (restoreStyleSheet styleSheets k o doc)
      as [doc1 [[]|e]] eqn:Hfirst; [|done].
    intros Hrest. apply IH in Hrest as (Hlen & Hout & Hhref & Hcount
                                        & Hpast & Hat & Hok).
    assert (length doc1 = length doc ∧
            (∀ s, styleSheets !! k ≠ Some s → doc1 !! s = doc !! s) ∧
            (∀ s, href <$> doc1 !! s = href <$> doc !! s) ∧
            (∀ s, ruleCount s doc1 = ruleCount s doc) ∧
            (∀ s i, styleSheets !! k = Some s →
               ruleAt doc1 s i
               = match restored (o :: rows) 0 i with
                 | Some text => parseRule text
                 | None => ruleAt doc s i
                 end) ∧
            (∀ i text, restored (o :: rows) 0 i = Some text →
               ∃ s, styleSheets !! k = Some s ∧ i < ruleCount s doc
                    ∧ is_Some (parseRule text)))
      as (Hlen1 & Hother1 & Hhref1 & Hcount1 & Hat1 & Hok1).
    { unfold restoreStyleSheet in Hfirst.
      destruct o as [row|]; [|by injection Hfirst as <-].
      apply restoreRules_Normal in Hfirst
        as (? & ? & ? & ? & _ & Hat1 & Hok1).
      repeat split; try done. }
    assert (∀ j s, styleSheets !! j = Some s → j ≠ k →
              styleSheets !! k ≠ Some s) as Hdistinct.
    { intros j s Hj Hne Hk. apply Hne.
      by eapply NoDup_lookup. }
    repeat split.
    + congruence.
    + intros s Hs. rewrite Hout by done. apply Hother1.
      intros Hk. apply Hs. by eapply list_elem_of_lookup_2.
    + intros s. by rewrite Hhref.
    + intros s. by rewrite Hcount.
    + intros j s i Hj Hlt. rewrite (Hpast j) by (done || lia).
      apply ruleAt_ext, Hother1. eapply Hdistinct; [done | lia].
    + intros [|j] s i Hj.
      * rewrite Nat.add_0_r in Hj. rewrite (Hpast k) by (done || lia).
        by apply Hat1.
      * rewrite restored_cons_S. rewrite <- Nat.add_succ_comm in Hj.
        rewrite (Hat _ _ _ Hj). destruct (restored rows j i); [done|].
        apply ruleAt_ext, Hother1. eapply Hdistinct; [done | lia].
    + intros [|j] i text.
      * rewrite Nat.add_0_r. apply Hok1.
      * rewrite restored_cons_S. intros (s & Hs & Hi & ?)%Hok.
        exists s. rewrite <- Nat.add_succ_comm, <- Hcount1. done.
Qed.

End Rows.

(** The outer loop completes when every text it puts back is accepted by
    the parser and goes to a rule that exists. *)
Lemma restoreStyleSheets_completes (styleSheets : list nat)
    (rows : SavedStyles) :
  ∀ (k : nat) (doc : Document),
    (∀ j i text, restored rows j i = Some text →
       ∃ s, styleSheets !! (k + j) = Some s ∧ i < ruleCount s doc
            ∧ is_Some (parseRule text)) →
    ∃ doc', restoreStyleSheets styleSheets k rows doc = (doc', Normal tt).
Proof.
  induction rows as [|o rows IH]; intros k doc Hok; [by eexists|].
  cbn [restoreStyleSheets]. unfold mbind, dom_mbind, dom_bind.
  assert (∃ doc1, restoreStyleSheet styleSheets k o doc
                  = (doc1, Normal tt)
                  ∧ ∀ s, ruleCount s doc1 = ruleCount s doc)
    as (doc1 & -> & Hcount).
  { unfold restoreStyleSheet. destruct o as [row|]; [|by eexists].
    destruct (restoreRules_completes row (styleSheets !! k) 0 doc)
      as [doc1 Hdoc1].
    { intros j text Hj. destruct (Hok 0 j text) as (s & Hs & ? & ?).
      - by rewrite restored_cons_0.
      - rewrite Nat.add_0_r in Hs. by exists s. }
    exists doc1. split; [done|].
    by apply restoreRules_Normal in Hdoc1 as (_ & _ & _ & ? & _). }
  apply IH. intros j i text Hj.
  destruct (Hok (S j) i text Hj) as (s & Hs & ? & ?).
  exists s. rewrite Hcount, Nat.add_succ_comm. done.
Qed.

End CleanupFacts.

(** ** All the selected sheets *)

Section SheetsFacts.

Lemma scannedSheet_ext (width : Z) (sheet sheet' : CSSStyleSheet)
    (before after before' after' : nat → option string) :
  (∀ i, before' i = before i) → (∀ i, after' i = after i) →
  scannedSheet width sheet sheet' before after →
  scannedSheet width sheet sheet' before' after'.
Proof.
  intros Hb Ha (Hhref & Hlen & Hrules & Hframe).
  split; [done|]. split; [done|]. split.
  - intros i rule Hi. specialize (Hrules i rule Hi).
    destruct (candidate _ _); by rewrite Ha, ?Hb.
  - intros i Hi. rewrite Ha, Hb. by apply Hframe.
Qed.

Lemma scanStyleSheets_Normal (width : Z) (refs : list nat) :
  ∀ (k : nat) (os os' : SavedStyles) (doc doc' : Document),
    NoDup refs →
    scanStyleSheets width refs k os doc = (doc', Normal os') →
    length doc' = length doc ∧
    (∀ s, s ∉ refs → doc' !! s = doc !! s) ∧
    (∀ j s, refs !! j = Some s →
       ∃ sheet sheet',
         doc !! s = Some sheet ∧ doc' !! s = Some sheet' ∧
         scannedSheet width sheet sheet'
           (saved os (k + j)) (saved os' (k + j))) ∧
    (∀ k' i, k' < k ∨ k + length refs ≤ k' →
       saved os' k' i = saved os k' i).
Proof.
  induction refs as [|s refs IH]; intros k os os' doc doc' Hnodup.
  - intros [= <- <-]. repeat split; try done.
  - cbn [scanStyleSheets]. unfold mbind, dom_mbind, dom_bind.
    destruct (scanRules width s k 0 false os doc) as [doc1 [os1|e]]
      eqn:Hfirst; [|done].
    apply NoDup_cons in Hnodup as [Hs Hnodup].
    intros Hrest. apply (IH _ _ _ _ _ Hnodup) in Hrest
      as (Hlen & Hout & Hin & Hsaved).
    apply scanRules_Normal in Hfirst
      as (sheet & sheet1 & Hsheet & -> & Hscanned & Hsaved1).
    assert (s < length doc) as Hlt by (by eapply lookup_lt_Some).
    split; [by rewrite Hlen, length_insert|]. split; [|split].
    + intros s' Hs'. apply not_elem_of_cons in Hs' as [Hne Hs'].
      rewrite Hout by done. by apply list_lookup_insert_ne.
    + intros [|j] s' Hj.
      * injection Hj as <-. exists sheet, sheet1.
        split; [done|]. split.
        -- rewrite Hout by done. by apply list_lookup_insert_eq.
        -- eapply scannedSheet_ext; [| |exact Hscanned].
           ++ intros i. by rewrite Nat.add_0_r.
           ++ intros i. rewrite Nat.add_0_r. apply Hsaved. lia.
      * simpl in Hj. destruct (Hin j s' Hj) as (sheet0 & sheet' & H0 & H' & Hsc).
        assert (s ≠ s') as Hne.
        { intros <-. apply Hs. by eapply list_elem_of_lookup_2. }
        rewrite list_lookup_insert_ne in H0 by done.
        exists sheet0, sheet'. split; [done|]. split; [done|].
        eapply scannedSheet_ext; [| |exact Hsc].
        -- intros i. rewrite <- Nat.add_succ_comm. symmetry.
           apply Hsaved1. lia.
        -- intros i. by rewrite <- Nat.add_succ_comm.
    + intros k' i Hk'. simpl in Hk'.
      rewrite Hsaved by lia. apply Hsaved1. lia.
Qed.

Lemma scanStyleSheets_completes (width : Z) (refs : list nat) :
  ∀ (k : nat) (os : SavedStyles) (doc : Document),
    NoDup refs →
    (∀ s, s ∈ refs → is_Some (doc !! s)) →
    (∀ s sheet i rule,
       s ∈ refs → doc !! s = Some sheet → cssRules sheet !! i = Some rule →
       candidate (cssRules sheet) i →
       is_Some (parseRule
           (replaceMediaQueryWithWidthEvaluation (cssText rule) width))) →
    ∃ doc' os', scanStyleSheets width refs k os doc = (doc', Normal os').
Proof.
  induction refs as [|s refs IH]; intros k os doc Hnodup Hvalid Hparse.
  - by eexists _, _.
  - cbn [scanStyleSheets]. unfold mbind, dom_mbind, dom_bind.
    apply NoDup_cons in Hnodup as [Hs Hnodup].
    destruct (Hvalid s) as [sheet Hsheet]; [by left|].
    destruct (scanRules_completes width s k os doc
                sheet Hsheet) as (doc1 & os1 & Hfirst).
    { intros i rule. apply (Hparse s sheet); [by left | done]. }
    rewrite Hfirst.
    apply scanRules_Normal in Hfirst as (? & sheet1 & _ & -> & _).
    assert (∀ s', s' ∈ refs → <[s := sheet1]> doc !! s' = doc !! s') as Hsame.
    { intros s' Hs'. apply list_lookup_insert_ne. by intros <-. }
    apply IH; [done | |].
    + intros s' Hs'. rewrite Hsame by done. apply Hvalid. by right.
    + intros s' sheet' i rule Hs'. rewrite Hsame by done.
      apply (Hparse s' sheet'). by right.
Qed.

(** The sheets the effect selects. *)
Lemma selected_NoDup (hostname : string) (doc : Document) :
  NoDup (getStyleSheetsThatMatchHostname hostname doc).
Proof.
  apply NoDup_ListNoDup, List.NoDup_filter, NoDup_ListNoDup, NoDup_seq.
Qed.

Lemma selected_elem_of (hostname : string) (doc : Document) (s : nat) :
  s ∈ getStyleSheetsThatMatchHostname hostname doc ↔
  ∃ sheet h,
    doc !! s = Some sheet ∧ href sheet = Some h ∧
    Str.truthy h = true ∧ Str.includes h hostname = true.
Proof.
  unfold getStyleSheetsThatMatchHostname.
  rewrite list_elem_of_In, List.filter_In. split.
  - intros [_ H]. destruct (doc !! s) as [sheet|]; [|done].
    destruct (href sheet) as [h|] eqn:Hh; [|done].
    apply andb_true_iff in H as [? ?]. by exists sheet, h.
  - intros (sheet & h & Hs & Hh & Ht & Hi). split.
    + apply list_elem_of_In, elem_of_seq. apply lookup_lt_Some in Hs. lia.
    + by rewrite Hs, Hh, Ht, Hi.
Qed.

(** An effect that completes. *)
Lemma effect_Normal (hostname : string) (width : Z) (doc doc' : Document)
    (c : Cleanup) :
  useSimulatedMediaQuery hostname width doc = (doc', Normal c) →
  styleSheets c = getStyleSheetsThatMatchHostname hostname doc ∧
  length doc' = length doc ∧
  (∀ s, s ∉ styleSheets c → doc' !! s = doc !! s) ∧
  (∀ k s, styleSheets c !! k = Some s →
     ∃ sheet sheet',
       doc !! s = Some sheet ∧ doc' !! s = Some sheet' ∧
       scannedSheet width sheet sheet' (λ _, None)
         (saved (originalStyles c) k)) ∧
  (∀ k i, length (styleSheets c) ≤ k → saved (originalStyles c) k i = None).
Proof.
  unfold useSimulatedMediaQuery, mbind, dom_mbind, dom_bind.
  destruct (scanStyleSheets width _ 0 [] doc) as [doc1 [os|e]] eqn:Hscan;
    [|done].
  intros [= <- <-]. simpl.
  apply scanStyleSheets_Normal in Hscan as (Hlen & Hout & Hin & Hsaved);
    [|apply selected_NoDup].
  repeat split; try done.
  intros k i Hk. rewrite Hsaved by (simpl; lia). done.
Qed.

Lemma effect_completes (hostname : string) (width : Z) (doc : Document) :
  (∀ s sheet i rule,
     s ∈ getStyleSheetsThatMatchHostname hostname doc →
     doc !! s = Some sheet → cssRules sheet !! i = Some rule →
     candidate (cssRules sheet) i →
     is_Some (parseRule
         (replaceMediaQueryWithWidthEvaluation (cssText rule) width))) →
  ∃ doc' c, useSimulatedMediaQuery hostname width doc = (doc', Normal c).
Proof.
  intros Hparse.
  unfold useSimulatedMediaQuery, mbind, dom_mbind, dom_bind.
  destruct (scanStyleSheets_completes width
              (getStyleSheetsThatMatchHostname hostname doc) 0 [] doc)
    as (doc' & os & ->); [apply selected_NoDup | | done | by eexists _, _].
  intros s (sheet & _ & -> & _)%selected_elem_of. eauto.
Qed.

End SheetsFacts.

(** ** The region between the markers *)

Section RegionFacts.

Implicit Types (rule : CSSRule) (rules : list CSSRule).

Lemma update_end (flag : bool) rule :
  isEnd rule = true → updateRelevantSection flag rule = false.
Proof.
  unfold updateRelevantSection. intros ->.
  by destruct flag, (isStart rule).
Qed.

Lemma update_start (flag : bool) rule :
  isStart rule = true → isEnd rule = false →
  updateRelevantSection flag rule = true.
Proof.
  unfold updateRelevantSection. intros -> ->.
  by destruct flag.
Qed.

Lemma update_no_start rule :
  isStart rule = false → updateRelevantSection false rule = false.
Proof. unfold updateRelevantSection. by intros ->. Qed.

Lemma update_no_end rule :
  isEnd rule = false → updateRelevantSection true rule = true.
Proof. unfold updateRelevantSection. by intros ->. Qed.

Lemma foldl_no_start rules :
  Forall (λ rule, isStart rule = false) rules →
  foldl updateRelevantSection false rules = false.
Proof.
  induction 1 as [|rule rules Hr _ IH]; simpl; [done|].
  by rewrite update_no_start.
Qed.

Lemma foldl_no_end rules :
  Forall (λ rule, isEnd rule = false) rules →
  foldl updateRelevantSection true rules = true.
Proof.
  induction 1 as [|rule rules Hr _ IH]; simpl; [done|].
  by rewrite update_no_end.
Qed.

Lemma relevantAt_split rules (e i : nat) rule :
  rules !! e = Some rule → e ≤ i →
  relevantAt rules i
  = foldl updateRelevantSection
      (updateRelevantSection
         (foldl updateRelevantSection false (take e rules)) rule)
      (drop (S e) (take (S i) rules)).
Proof.
  intros He Hi. unfold relevantAt, flagAfter.
  rewrite <- (take_drop (S e) (take (S i) rules)) at 1.
  rewrite take_take, Nat.min_l by lia.
  rewrite (take_S_r _ _ _ He), foldl_app, foldl_app. done.
Qed.

Lemma Forall_segment (P : CSSRule → Prop) rules (e i : nat) :
  (∀ j rule, e < j ≤ i → rules !! j = Some rule → P rule) →
  Forall P (drop (S e) (take (S i) rules)).
Proof.
  intros H. apply Forall_lookup. intros j rule.
  rewrite lookup_drop. intros Hj.
  assert (S e + j < S i) by (apply lookup_lt_Some in Hj;
                             rewrite length_take in Hj; lia).
  rewrite lookup_take_lt in Hj by done.
  apply (H (S e + j)); [lia | done].
Qed.

Lemma Forall_upto (P : CSSRule → Prop) rules (i : nat) :
  (∀ j rule, j ≤ i → rules !! j = Some rule → P rule) →
  Forall P (take (S i) rules).
Proof.
  intros H. apply Forall_lookup. intros j rule Hj.
  assert (j < S i) by (apply lookup_lt_Some in Hj;
                       rewrite length_take in Hj; lia).
  rewrite lookup_take_lt in Hj by done.
  apply (H j); [lia | done].
Qed.

(** Before the first start marker the flag is off. *)
Lemma relevantAt_before_start rules (i : nat) :
  (∀ j rule, j ≤ i → rules !! j = Some rule → isStart rule = false) →
  relevantAt rules i = false.
Proof. intros H. by apply foldl_no_start, Forall_upto. Qed.

(** After an end marker, and until a start marker, the flag is off; it is
    off at the end marker itself. *)
Lemma relevantAt_after_end rules (e i : nat) rule :
  rules !! e = Some rule → isEnd rule = true → e ≤ i →
  (∀ j rule', e < j ≤ i → rules !! j = Some rule' → isStart rule' = false) →
  relevantAt rules i = false.
Proof.
  intros He Hend Hi H.
  rewrite (relevantAt_split _ _ _ _ He Hi), update_end by done.
  by apply foldl_no_start, Forall_segment.
Qed.

(** From a start marker on, and until an end marker, the flag is on. *)
Lemma relevantAt_after_start rules (a i : nat) rule :
  rules !! a = Some rule → isStart rule = true → a ≤ i →
  (∀ j rule', a ≤ j ≤ i → rules !! j = Some rule' → isEnd rule' = false) →
  relevantAt rules i = true.
Proof.
  intros Ha Hstart Hi H.
  rewrite (relevantAt_split _ _ _ _ Ha Hi), update_start;
    [|done | by apply (H a); [lia|]].
  apply foldl_no_end, Forall_segment. intros j rule' Hj. apply H. lia.
Qed.

End RegionFacts.

(** ** What each run leaves alone *)

Section FrameFacts.

(** However it completes, a scan changes no other sheet than its own. *)
Lemma scanRules_frame (width : Z) (s k : nat) (os : SavedStyles)
    (doc doc' : Document) (res : Completion SavedStyles) :
  scanRules width s k 0 false os doc = (doc', res) →
  ∀ s', s' ≠ s → doc' !! s' = doc !! s'.
Proof.
  intros Hscan s' Hne.
  destruct (doc !! s) as [sheet|] eqn:Hsheet.
  - pose proof (scanRules_scanFrom width s k
                  (cssRules sheet) [] false os doc sheet Hsheet eq_refl) as H.
    simpl in H. rewrite H in Hscan. clear H.
    destruct (scanFrom _ _ _ _ _ _) as [rules res'].
    injection Hscan as <- _. by apply list_lookup_insert_ne.
  - rewrite scanRules_step, Hsheet in Hscan. by injection Hscan as <- _.
Qed.

Lemma scanStyleSheets_frame (width : Z) (refs : list nat) :
  ∀ (k : nat) (os : SavedStyles) (doc doc' : Document)
    (res : Completion SavedStyles),
    scanStyleSheets width refs k os doc = (doc', res) →
    ∀ s, s ∉ refs → doc' !! s = doc !! s.
Proof.
  induction refs as [|s0 refs IH]; intros k os doc doc' res.
  - by intros [= <- _].
  - cbn [scanStyleSheets]. unfold mbind, dom_mbind, dom_bind.
    destruct (scanRules width s0 k 0 false os doc) as [doc1 [os1|e]]
      eqn:Hfirst.
    + intros Hrest s [Hne Hs]%not_elem_of_cons.
      rewrite (IH _ _ _ _ _ Hrest) by done.
      by eapply scanRules_frame.
    + intros [= <- _] s [Hne Hs]%not_elem_of_cons.
      by eapply scanRules_frame.
Qed.

Lemma replaceRule_frame (s i : nat) (text : string) (doc doc' : Document)
    (res : Completion unit) :
  replaceRule s text i doc = (doc', res) →
  ∀ s', s' ≠ s → doc' !! s' = doc !! s'.
Proof.
  rewrite replaceRule_spec. intros H s' Hne.
  destruct (doc !! s) as [sheet|]; [|by injection H as <- _].
  destruct (decide _); [|by injection H as <- _].
  destruct (parseRule text); injection H as <- _;
    by apply list_lookup_insert_ne.
Qed.

Lemma restoreRules_frame (row : list (option string)) :
  ∀ (sheetRef : option nat) (ri : nat) (doc doc' : Document)
    (res : Completion unit),
    restoreRules sheetRef ri row doc = (doc', res) →
    ∀ s, sheetRef ≠ Some s → doc' !! s = doc !! s.
Proof.
  induction row as [|o row IH]; intros sheetRef ri doc doc' res.
  - by intros [= <- _].
  - cbn [restoreRules]. unfold mbind, dom_mbind, dom_bind.
    destruct (restoreRule sheetRef ri o doc) as [doc1 r1]
      eqn:Hfirst.
    assert (∀ s, sheetRef ≠ Some s → doc1 !! s = doc !! s) as Hstep.
    { intros s Hs. unfold restoreRule in Hfirst.
      destruct o as [text|]; [|by injection Hfirst as <- _].
      destruct (Str.truthy text); [|by injection Hfirst as <- _].
      destruct sheetRef as [s0|]; [|by injection Hfirst as <- _].
      eapply replaceRule_frame; [done | congruence]. }
    destruct r1 as [[]|e].
    + intros Hrest s Hs. rewrite (IH _ _ _ _ _ Hrest) by done. by apply Hstep.
    + intros [= <- _]. done.
Qed.

Lemma restoreStyleSheets_frame (refs : list nat) (rows : SavedStyles) :
  ∀ (k : nat) (doc doc' : Document) (res : Completion unit),
    restoreStyleSheets refs k rows doc = (doc', res) →
    ∀ s, s ∉ refs → doc' !! s = doc !! s.
Proof.
  induction rows as [|o rows IH]; intros k doc doc' res.
  - by intros [= <- _].
  - cbn [restoreStyleSheets]. unfold mbind, dom_mbind, dom_bind.
    destruct (restoreStyleSheet refs k o doc) as [doc1 r1]
      eqn:Hfirst.
    assert (∀ s, s ∉ refs → doc1 !! s = doc !! s) as Hstep.
    { intros s Hs. unfold restoreStyleSheet in Hfirst.
      destruct o as [row|]; [|by injection Hfirst as <- _].
      eapply restoreRules_frame; [done|].
      intros Hk. apply Hs. by eapply list_elem_of_lookup_2. }
    destruct r1 as [[]|e].
    + intros Hrest s Hs. rewrite (IH _ _ _ _ Hrest) by done. by apply Hstep.
    + intros [= <- _]. done.
Qed.

Lemma restoreStyleSheets_count (refs : list nat) (rows : SavedStyles) :
  ∀ (k : nat) (doc doc' : Document),
    restoreStyleSheets refs k rows doc = (doc', Normal tt) →
    length doc' = length doc ∧ ∀ s, ruleCount s doc' = ruleCount s doc.
Proof.
  induction rows as [|o rows IH]; intros k doc doc'.
  - by intros [= <-].
  - cbn [restoreStyleSheets]. unfold mbind, dom_mbind, dom_bind.
    destruct (restoreStyleSheet refs k o doc) as [doc1 [[]|e]]
      eqn:Hfirst; [|done].
    intros [Hlen Hcount]%IH.
    unfold restoreStyleSheet in Hfirst. destruct o as [row|].
    + apply restoreRules_Normal in Hfirst as (Hlen1 & _ & _ & Hcount1 & _).
      split; [congruence|]. intros s. by rewrite Hcount.
    + by injection Hfirst as <-.
Qed.

(** Two documents with the same sheets, rule by rule, are the same. *)
Lemma document_ext (doc doc' : Document) :
  length doc' = length doc →
  (∀ s, href <$> doc' !! s = href <$> doc !! s) →
  (∀ s, ruleCount s doc' = ruleCount s doc) →
  (∀ s i, ruleAt doc' s i = ruleAt doc s i) →
  doc' = doc.
Proof.
  intros Hlen Hhref Hcount Hrule. apply list_eq. intros s.
  specialize (Hhref s). specialize (Hcount s). specialize (Hrule s).
  unfold ruleAt, ruleCount in *.
  destruct (doc' !! s) as [[h' rules']|] eqn:H', (doc !! s) as [[h rules]|]
    eqn:H; simpl in *; try done.
  injection Hhref as ->. f_equal. f_equal. by apply list_eq.
Qed.

End FrameFacts.

(** * The hook: activation and deactivation *)

Section Hook.

(** Every position of a selected sheet after an effect that completed. *)
Lemma effect_pointwise (hostname : string) (width : Z) (doc doc1 : Document)
    (c : Cleanup) :
  useSimulatedMediaQuery hostname width doc = (doc1, Normal c) →
  ∀ k s sheet i,
    styleSheets c !! k = Some s → doc !! s = Some sheet →
    ruleCount s doc1 = length (cssRules sheet) ∧
    href <$> doc1 !! s = Some (href sheet) ∧
    match cssRules sheet !! i with
    | Some rule =>
        if candidate (cssRules sheet) i
        then ruleAt doc1 s i = parseRule
            (replaceMediaQueryWithWidthEvaluation (cssText rule) width)
             ∧ saved (originalStyles c) k i = Some (cssText rule)
        else ruleAt doc1 s i = Some rule
             ∧ saved (originalStyles c) k i = None
    | None => ruleAt doc1 s i = None ∧ saved (originalStyles c) k i = None
    end.
Proof.
  intros (_ & _ & _ & Hin & _)%effect_Normal k s sheet i Hk Hs.
  destruct (Hin k s Hk) as (sheet0 & sheet' & Hs0 & Hs' & Hhref & Hlen
                            & Hrules & Hframe).
  rewrite Hs in Hs0. injection Hs0 as <-.
  unfold ruleCount, ruleAt. rewrite Hs'. simpl.
  split; [done|]. split; [by rewrite Hhref|].
  destruct (cssRules sheet !! i) as [rule|] eqn:Hi.
  - apply (Hrules i rule Hi).
  - apply lookup_ge_None in Hi. split; [|by apply Hframe].
    apply lookup_ge_None. lia.
Qed.

(** A saved text belongs to a rule that passed the test. *)
Lemma saved_Some_inv (hostname : string) (width : Z) (doc doc1 : Document)
    (c : Cleanup) (k i : nat) (text : string) :
  useSimulatedMediaQuery hostname width doc = (doc1, Normal c) →
  saved (originalStyles c) k i = Some text →
  ∃ s sheet rule,
    styleSheets c !! k = Some s ∧ doc !! s = Some sheet ∧
    cssRules sheet !! i = Some rule ∧
    candidate (cssRules sheet) i = true ∧ text = cssText rule.
Proof.
  intros Heff Hsaved.
  pose proof (effect_Normal _ _ _ _ _ Heff) as (_ & _ & _ & Hin & Hbeyond).
  destruct (styleSheets c !! k) as [s|] eqn:Hk.
  - destruct (Hin k s Hk) as (sheet & _ & Hs & _).
    destruct (effect_pointwise _ _ _ _ _ Heff k s sheet i Hk Hs)
      as (_ & _ & Hi).
    destruct (cssRules sheet !! i) as [rule|] eqn:Hrule.
    + destruct (candidate (cssRules sheet) i) eqn:Hc.
      * destruct Hi as [_ Hi]. rewrite Hi in Hsaved. injection Hsaved as <-.
        by exists s, sheet, rule.
      * destruct Hi as [_ Hi]. by rewrite Hi in Hsaved.
    + destruct Hi as [_ Hi]. by rewrite Hi in Hsaved.
  - apply lookup_ge_None in Hk. by rewrite Hbeyond in Hsaved.
Qed.

Lemma restored_Some (os : SavedStyles) (k i : nat) (text : string) :
  restored os k i = Some text ↔
  saved os k i = Some text ∧ Str.truthy text = true.
Proof.
  unfold restored, saved, restorable.
  destruct (JsArray.get os k) as [row|]; simpl; [|by split; [|intros []]].
  destruct (JsArray.get row i) as [t|]; simpl; [|by split; [|intros []]].
  destruct (Str.truthy t) eqn:Ht.
  - split; [by intros [= <-] | by intros [[= <-] _]].
  - split; [done | intros [[= <-] ?]; congruence].
Qed.

Lemma restored_None (os : SavedStyles) (k i : nat) :
  saved os k i = None → restored os k i = None.
Proof.
  unfold restored, saved, restorable.
  destruct (JsArray.get os k) as [row|]; simpl; [|done]. by intros ->.
Qed.

(** C6: after the effect has completed, every rule that passed the test of
    the scan (it lies in the region and is a replaceable media rule) has
    been replaced by the rule built from its rewritten text and has its
    original text saved under its own sheet index and rule index; every
    other rule of a selected sheet is as it was and has no saved text; and
    a saved text is always the original text of such a rewritten rule. *)
Theorem saved_originals_invariant (hostname : string) (width : Z)
    (doc doc1 : Document) (c : Cleanup) :
  useSimulatedMediaQuery hostname width doc = (doc1, Normal c) →
  (∀ k s sheet i rule,
     styleSheets c !! k = Some s → doc !! s = Some sheet →
     cssRules sheet !! i = Some rule →
     if candidate (cssRules sheet) i
     then ruleAt doc1 s i = parseRule
         (replaceMediaQueryWithWidthEvaluation (cssText rule) width)
          ∧ saved (originalStyles c) k i = Some (cssText rule)
     else ruleAt doc1 s i = Some rule
          ∧ saved (originalStyles c) k i = None) ∧
  (∀ k i text,
     saved (originalStyles c) k i = Some text →
     ∃ s sheet rule,
       styleSheets c !! k = Some s ∧ doc !! s = Some sheet ∧
       cssRules sheet !! i = Some rule ∧
       candidate (cssRules sheet) i = true ∧ text = cssText rule).
Proof.
  intros Heff. split.
  - intros k s sheet i rule Hk Hs Hi.
    destruct (effect_pointwise _ _ _ _ _ Heff k s sheet i Hk Hs)
      as (_ & _ & H).
    by rewrite Hi in H.
  - intros k i text. by eapply saved_Some_inv.
Qed.

(** What the cleanup makes of the sheets the effect left behind. *)
Lemma cleanup_after_effect (hostname : string) (width : Z)
    (doc doc1 : Document) (c : Cleanup) :
  useSimulatedMediaQuery hostname width doc = (doc1, Normal c) →
  (∀ s sheet i rule,
     s ∈ getStyleSheetsThatMatchHostname hostname doc →
     doc !! s = Some sheet → cssRules sheet !! i = Some rule →
     candidate (cssRules sheet) i = true →
     Str.truthy (cssText rule) = true ∧
     is_Some (parseRule (cssText rule))) →
  ∃ doc2,
    cleanup c doc1 = (doc2, Normal tt) ∧
    length doc2 = length doc ∧
    (∀ s, href <$> doc2 !! s = href <$> doc !! s) ∧
    (∀ s, ruleCount s doc2 = ruleCount s doc) ∧
    (∀ s i,
       ruleAt doc2 s i = ruleAt doc s i ∨
       ∃ sheet rule,
         s ∈ getStyleSheetsThatMatchHostname hostname doc ∧
         doc !! s = Some sheet ∧ cssRules sheet !! i = Some rule ∧
         candidate (cssRules sheet) i = true ∧
         ruleAt doc2 s i = parseRule (cssText rule)).
Proof.
  intros Heff Hdom.
  pose proof (effect_Normal _ _ _ _ _ Heff)
    as (Hrefs & Hlen1 & Hout1 & Hin1 & _).
  pose proof (selected_NoDup hostname doc) as Hnodup. rewrite <- Hrefs in *.
  assert (∀ s, href <$> doc1 !! s = href <$> doc !! s) as Hhref1.
  { intros s. destruct (decide (s ∈ styleSheets c)) as [Hs|Hs].
    - apply list_elem_of_lookup in Hs as [k Hk].
      destruct (Hin1 k s Hk) as (sheet & sheet' & -> & -> & Hh & _).
      simpl. by rewrite Hh.
    - by rewrite Hout1. }
  assert (∀ s, ruleCount s doc1 = ruleCount s doc) as Hcount1.
  { intros s. unfold ruleCount.
    destruct (decide (s ∈ styleSheets c)) as [Hs|Hs].
    - apply list_elem_of_lookup in Hs as [k Hk].
      destruct (Hin1 k s Hk) as (sheet & sheet' & -> & -> & _ & Hl & _).
      done.
    - by rewrite Hout1. }
  destruct (restoreStyleSheets_completes (styleSheets c)
              (originalStyles c) 0 doc1) as [doc2 Hclean].
  { intros j i text [Hsaved Htruthy]%restored_Some.
    destruct (saved_Some_inv _ _ _ _ _ _ _ _ Heff Hsaved)
      as (s & sheet & rule & Hk & Hs & Hi & Hc & ->).
    exists s. split; [done|]. rewrite Hcount1. unfold ruleCount. rewrite Hs.
    split; [by eapply lookup_lt_Some|].
    eapply Hdom; [by eapply list_elem_of_lookup_2 | done..]. }
  exists doc2. split; [done|].
  apply (restoreStyleSheets_Normal _ Hnodup) in Hclean
    as (Hlen2 & Hout2 & Hhref2 & Hcount2 & _ & Hat2 & _).
  split; [congruence|]. split; [intros s; by rewrite Hhref2|].
  split; [intros s; by rewrite Hcount2|].
  intros s i. destruct (decide (s ∈ styleSheets c)) as [Hs|Hs].
  - pose proof Hs as [k Hk]%list_elem_of_lookup.
    destruct (Hin1 k s Hk) as (sheet & _ & Hsheet & _).
    destruct (effect_pointwise _ _ _ _ _ Heff k s sheet i Hk Hsheet)
      as (_ & _ & Hi).
    rewrite (Hat2 k s i Hk).
    assert (ruleAt doc s i = cssRules sheet !! i) as Hdoc
      by (unfold ruleAt; by rewrite Hsheet).
    destruct (cssRules sheet !! i) as [rule|] eqn:Hrule.
    + destruct (candidate (cssRules sheet) i) eqn:Hc.
      * destruct Hi as [_ Hsaved]. right. exists sheet, rule.
        destruct (Hdom s sheet i rule Hs Hsheet Hrule Hc) as [Ht _].
        rewrite (proj2 (restored_Some _ _ _ _) (conj Hsaved Ht)). done.
      * destruct Hi as [Hr Hsaved]. left.
        rewrite (restored_None _ _ _ Hsaved). congruence.
    + destruct Hi as [Hr Hsaved]. left.
      rewrite (restored_None _ _ _ Hsaved). congruence.
  - left. apply ruleAt_ext. rewrite Hout2 by done. by apply Hout1.
Qed.

(** C2: the effect followed by its cleanup leaves every rule, and so
    every rule that was rewritten, with the text it had before, at the
    position it was read from; the sheets are as they were when the parser
    builds the very rule a text was serialised from.  The live style
    sheets are assumed to behave like style sheets: a rule that is
    rewritten has a text that is not empty and that the parser reads back
    into a rule with that text, and the parser accepts its rewritten
    text. *)
Theorem activate_deactivate_round_trip (hostname : string) (width : Z)
    (doc : Document) :
  (∀ s sheet i rule,
     s ∈ getStyleSheetsThatMatchHostname hostname doc →
     doc !! s = Some sheet → cssRules sheet !! i = Some rule →
     candidate (cssRules sheet) i = true →
     Str.truthy (cssText rule) = true ∧
     is_Some (parseRule
         (replaceMediaQueryWithWidthEvaluation (cssText rule) width)) ∧
     ∃ r, parseRule (cssText rule) = Some r ∧ cssText r = cssText rule) →
  ∃ doc1 c doc2,
    useSimulatedMediaQuery hostname width doc = (doc1, Normal c) ∧
    cleanup c doc1 = (doc2, Normal tt) ∧
    (∀ s i, cssText <$> ruleAt doc2 s i = cssText <$> ruleAt doc s i) ∧
    ((∀ s sheet i rule,
        s ∈ getStyleSheetsThatMatchHostname hostname doc →
        doc !! s = Some sheet → cssRules sheet !! i = Some rule →
        candidate (cssRules sheet) i = true →
        parseRule (cssText rule) = Some rule) →
     doc2 = doc).
Proof.
  intros Hdom.
  destruct (effect_completes hostname width doc)
    as (doc1 & c & Heff).
  { intros s sheet i rule Hs Hsheet Hi Hc.
    apply Is_true_true in Hc. by destruct (Hdom s sheet i rule) as (_ & ? & _). }
  destruct (cleanup_after_effect _ _ _ _ _ Heff)
    as (doc2 & Hclean & Hlen & Hhref & Hcount & Hat).
  { intros s sheet i rule Hs Hsheet Hi Hc.
    destruct (Hdom s sheet i rule) as (? & _ & r & -> & _); done. }
  exists doc1, c, doc2. split; [done|]. split; [done|]. split.
  - intros s i.
    destruct (Hat s i) as [->|(sheet & rule & Hs & Hsheet & Hi & Hc & ->)];
      [done|].
    destruct (Hdom s sheet i rule) as (_ & _ & r & -> & Hr); [done..|].
    unfold ruleAt. rewrite Hsheet. simpl. rewrite Hi. simpl. by rewrite Hr.
  - intros Hstable. apply document_ext; [done..|].
    intros s i.
    destruct (Hat s i) as [->|(sheet & rule & Hs & Hsheet & Hi & Hc & ->)];
      [done|].
    rewrite (Hstable s sheet i rule) by done.
    unfold ruleAt. by rewrite Hsheet.
Qed.

(** A rule the flag is off at is left as it is. *)
Lemma not_relevant_untouched (hostname : string) (width : Z)
    (doc doc1 : Document) (c : Cleanup) (s i : nat) (sheet : CSSStyleSheet)
    (rule : CSSRule) :
  useSimulatedMediaQuery hostname width doc = (doc1, Normal c) →
  doc !! s = Some sheet → cssRules sheet !! i = Some rule →
  relevantAt (cssRules sheet) i = false →
  ruleAt doc1 s i = Some rule ∧
  ∀ k, styleSheets c !! k = Some s → saved (originalStyles c) k i = None.
Proof.
  intros Heff Hs Hi Hflag.
  assert (candidate (cssRules sheet) i = false) as Hc
    by (unfold candidate; by rewrite Hi, Hflag).
  assert (∀ k, styleSheets c !! k = Some s →
               ruleAt doc1 s i = Some rule
               ∧ saved (originalStyles c) k i = None) as Hsel.
  { intros k Hk.
    destruct (effect_pointwise _ _ _ _ _ Heff k s sheet i Hk Hs)
      as (_ & _ & H).
    by rewrite Hi, Hc in H. }
  split; [|intros k Hk; by apply Hsel].
  destruct (decide (s ∈ styleSheets c)) as [[k Hk]%list_elem_of_lookup|Hout].
  - by apply (Hsel k).
  - apply effect_Normal in Heff as (_ & _ & Hsame & _).
    unfold ruleAt. by rewrite Hsame, Hs.
Qed.

(** A replaceable media rule the flag is on at is rewritten. *)
Lemma relevant_rewritten (hostname : string) (width : Z)
    (doc doc1 : Document) (c : Cleanup) (k s i : nat) (sheet : CSSStyleSheet)
    (rule : CSSRule) :
  useSimulatedMediaQuery hostname width doc = (doc1, Normal c) →
  styleSheets c !! k = Some s →
  doc !! s = Some sheet → cssRules sheet !! i = Some rule →
  relevantAt (cssRules sheet) i = true →
  isReplaceableMediaRule rule = true →
  ruleAt doc1 s i = parseRule
      (replaceMediaQueryWithWidthEvaluation (cssText rule) width) ∧
  is_Some (ruleAt doc1 s i) ∧
  saved (originalStyles c) k i = Some (cssText rule).
Proof.
  intros Heff Hk Hs Hi Hflag Hrepl.
  assert (candidate (cssRules sheet) i = true) as Hc
    by (unfold candidate; by rewrite Hi, Hflag, Hrepl).
  destruct (effect_pointwise _ _ _ _ _ Heff k s sheet i Hk Hs)
    as (Hcount & _ & H).
  rewrite Hi, Hc in H. destruct H as [Hr Hsaved].
  split; [done|]. split; [|done].
  unfold ruleAt, ruleCount in *.
  destruct (doc1 !! s) as [sheet'|]; simpl in *.
  - apply lookup_lt_is_Some. rewrite Hcount. by eapply lookup_lt_Some.
  - apply lookup_lt_Some in Hi. lia.
Qed.

(** C3: whatever the target width, a rule that comes before the first
    start marker of its sheet, or after an end marker with no start marker
    in between, is not rewritten: after the effect it is the same rule at
    the same position and no text is saved for it.  In particular a rule
    with no marker at or before it is never touched. *)
Theorem outside_region_untouched (hostname : string) (width : Z)
    (doc doc1 : Document) (c : Cleanup) (s i : nat) (sheet : CSSStyleSheet)
    (rule : CSSRule) :
  useSimulatedMediaQuery hostname width doc = (doc1, Normal c) →
  doc !! s = Some sheet → cssRules sheet !! i = Some rule →
  (∀ j r, j ≤ i → cssRules sheet !! j = Some r → isStart r = false) ∨
  (∃ e r, e < i ∧ cssRules sheet !! e = Some r ∧ isEnd r = true ∧
     ∀ j r', e < j ≤ i → cssRules sheet !! j = Some r' → isStart r' = false) →
  ruleAt doc1 s i = Some rule ∧
  ∀ k, styleSheets c !! k = Some s → saved (originalStyles c) k i = None.
Proof.
  intros Heff Hs Hi Hout.
  eapply not_relevant_untouched; [done..|].
  destruct Hout as [Hbefore|(e & r & He & Hr & Hend & Hafter)].
  - by apply relevantAt_before_start.
  - eapply relevantAt_after_end; [done | done | lia | done].
Qed.

(** C8: the rule that carries the end marker is never rewritten, the flag
    being cleared before the rule is tested; the rule that carries the
    start marker (and not the end marker) is rewritten in the same pass
    when it is a replaceable media rule. *)
Theorem marker_rules_asymmetry (hostname : string) (width : Z)
    (doc doc1 : Document) (c : Cleanup) (k s i : nat) (sheet : CSSStyleSheet)
    (rule : CSSRule) :
  useSimulatedMediaQuery hostname width doc = (doc1, Normal c) →
  styleSheets c !! k = Some s →
  doc !! s = Some sheet → cssRules sheet !! i = Some rule →
  (isEnd rule = true →
     ruleAt doc1 s i = Some rule ∧ saved (originalStyles c) k i = None) ∧
  (isStart rule = true → isEnd rule = false →
   isReplaceableMediaRule rule = true →
     ruleAt doc1 s i = parseRule
         (replaceMediaQueryWithWidthEvaluation (cssText rule) width) ∧
     is_Some (ruleAt doc1 s i) ∧
     saved (originalStyles c) k i = Some (cssText rule)).
Proof.
  intros Heff Hk Hs Hi. split.
  - intros Hend.
    destruct (not_relevant_untouched _ _ _ _ _ s i sheet rule Heff Hs Hi)
      as [Hr Hsaved]; [|by auto].
    eapply relevantAt_after_end; [done | done | lia |].
    intros j r' Hj. lia.
  - intros Hstart Hend Hrepl.
    eapply relevant_rewritten; [done..| |done].
    eapply relevantAt_after_start; [done | done | lia |].
    intros j r' Hj Hr'. assert (j = i) as -> by lia. congruence.
Qed.

(** C9: when a sheet has a rule with the start marker that does not bear
    the end marker itself, and no rule after it bears the end marker, every
    replaceable media rule from that rule to the last rule of the sheet is
    rewritten.  (A rule that bears both markers closes the region it
    opens: the rules after it are left as they are.) *)
Theorem unterminated_region_rewritten (hostname : string) (width : Z)
    (doc doc1 : Document) (c : Cleanup) (k s a : nat) (sheet : CSSStyleSheet)
    (start : CSSRule) :
  useSimulatedMediaQuery hostname width doc = (doc1, Normal c) →
  styleSheets c !! k = Some s → doc !! s = Some sheet →
  cssRules sheet !! a = Some start → isStart start = true →
  (∀ j r, a ≤ j → cssRules sheet !! j = Some r → isEnd r = false) →
  ∀ i rule,
    a ≤ i → cssRules sheet !! i = Some rule →
    isReplaceableMediaRule rule = true →
    ruleAt doc1 s i = parseRule
        (replaceMediaQueryWithWidthEvaluation (cssText rule) width) ∧
    is_Some (ruleAt doc1 s i) ∧
    saved (originalStyles c) k i = Some (cssText rule).
Proof.
  intros Heff Hk Hs Ha Hstart Hopen i rule Hi Hrule Hrepl.
  eapply relevant_rewritten; [done..| |done].
  eapply (relevantAt_after_start _ a i start); [done | done | done |].
  intros j r' Hj. apply Hopen. lia.
Qed.

(** C7: a cleanup that has nothing saved changes nothing: so it is when
    [originalStyles] is still the empty array it starts as, and when the
    effect saved no text; and after an effect, running the cleanup a second
    time leaves the sheets as the first run left them. *)
Theorem deactivate_idempotent (hostname : string) (width : Z)
    (doc doc1 : Document) (c : Cleanup) :
  useSimulatedMediaQuery hostname width doc = (doc1, Normal c) →
  (∀ refs d,
     cleanup {| styleSheets := refs; originalStyles := [] |} d
     = (d, Normal tt)) ∧
  ((∀ k i, saved (originalStyles c) k i = None) →
   ∀ d, cleanup c d = (d, Normal tt)) ∧
  (∀ d d',
     cleanup c d = (d', Normal tt) → cleanup c d' = (d', Normal tt)).
Proof.
  intros Heff. split; [done|].
  pose proof (effect_Normal _ _ _ _ _ Heff) as (Hrefs & _).
  pose proof (selected_NoDup hostname doc) as Hnodup. rewrite <- Hrefs in *.
  unfold cleanup. split.
  - intros Hnone d.
    destruct (restoreStyleSheets_completes (styleSheets c)
                (originalStyles c) 0 d) as [d' Hrun].
    { intros j i text Hj. by rewrite restored_None in Hj. }
    rewrite Hrun. f_equal.
    apply (restoreStyleSheets_Normal _ Hnodup) in Hrun
      as (Hlen & Hout & Hhref & Hcount & _ & Hat & _).
    apply document_ext; [done..|].
    intros s i. destruct (decide (s ∈ styleSheets c)) as [Hs|Hs].
    + apply list_elem_of_lookup in Hs as [k Hk].
      rewrite (Hat k s i Hk). by rewrite restored_None.
    + apply ruleAt_ext. by apply Hout.
  - intros d d' Hfirst.
    apply (restoreStyleSheets_Normal _ Hnodup) in Hfirst
      as (Hlen1 & Hout1 & Hhref1 & Hcount1 & _ & Hat1 & Hok1).
    destruct (restoreStyleSheets_completes (styleSheets c)
                (originalStyles c) 0 d') as [d'' Hsecond].
    { intros j i text Hj. destruct (Hok1 j i text Hj) as (s & ? & ? & ?).
      exists s. by rewrite Hcount1. }
    rewrite Hsecond. f_equal.
    apply (restoreStyleSheets_Normal _ Hnodup) in Hsecond
      as (Hlen2 & Hout2 & Hhref2 & Hcount2 & _ & Hat2 & _).
    apply document_ext; [done..|].
    intros s i. destruct (decide (s ∈ styleSheets c)) as [Hs|Hs].
    + apply list_elem_of_lookup in Hs as [k Hk].
      rewrite (Hat2 k s i Hk), (Hat1 k s i Hk).
      by destruct (restored (originalStyles c) k i).
    + apply ruleAt_ext. by apply Hout2.
Qed.

(** The loop from any of its states, when it completes, leaves every
    sheet with its number of rules. *)
Lemma scanRules_count (width : Z) (s k ri : nat) (rel : bool)
    (os os' : SavedStyles) (d d' : Document) :
  scanRules width s k ri rel os d = (d', Normal os') →
  length d' = length d ∧ ∀ s', ruleCount s' d' = ruleCount s' d.
Proof.
  intros Hscan.
  destruct (d !! s) as [sheet|] eqn:Hs;
    [|by rewrite scanRules_step, Hs in Hscan].
  destruct (decide (ri ≤ length (cssRules sheet))) as [Hri|Hri].
  - pose proof (scanRules_scanFrom width s k (drop ri (cssRules sheet))
                  (take ri (cssRules sheet)) rel os d sheet Hs) as H.
    rewrite take_drop, length_take, Nat.min_l in H by done.
    rewrite (H eq_refl) in Hscan. clear H.
    destruct (scanFrom _ _ _ _ _ _) as [rules res] eqn:Hfrom.
    injection Hscan as <- ->.
    assert (s < length d) as Hlt by (by eapply lookup_lt_Some).
    split; [by rewrite length_insert|].
    intros s'. rewrite ruleCount_insert by done.
    destruct (decide (s = s')) as [<-|]; [|done].
    unfold ruleCount. rewrite Hs. simpl.
    rewrite length_app, (scanFrom_length _ _ _ _ _ _ _ _ Hfrom).
    by rewrite <- length_app, take_drop.
  - rewrite scanRules_step, Hs, lookup_ge_None_2 in Hscan by lia.
    by injection Hscan as <- _.
Qed.

(** C10: a replacement is a delete at an index followed by an insert at
    the same index; when it completes the sheet has as many rules as before
    and every other rule is where it was, so the indices of the rules that
    are not yet scanned stay valid; the scan from any of its states, the
    effect and the cleanup, which only replace, leave every sheet with its
    number of rules. *)
Theorem rule_count_stable :
  (∀ s text i d d',
     replaceRule s text i d = (d', Normal tt) →
     (∃ d1,
        deleteRule s i d = (d1, Normal tt) ∧
        insertRule s text i d1 = (d', Normal tt) ∧
        S (ruleCount s d1) = ruleCount s d) ∧
     length d' = length d ∧
     (∀ s', ruleCount s' d' = ruleCount s' d) ∧
     (∀ s' j, (s', j) ≠ (s, i) → ruleAt d' s' j = ruleAt d s' j)) ∧
  (∀ width s k ri rel os d d' os',
     scanRules width s k ri rel os d = (d', Normal os') →
     length d' = length d ∧ ∀ s', ruleCount s' d' = ruleCount s' d) ∧
  (∀ hostname width doc doc1 c,
     useSimulatedMediaQuery hostname width doc = (doc1, Normal c) →
     length doc1 = length doc ∧ ∀ s, ruleCount s doc1 = ruleCount s doc) ∧
  (∀ c d d',
     cleanup c d = (d', Normal tt) →
     length d' = length d ∧ ∀ s, ruleCount s d' = ruleCount s d).
Proof.
  split; [|split; [|split]].
  - intros s text i d d' Hrep.
    pose proof Hrep as (sheet & r & Hs & Hi & Hr & ->)%replaceRule_Normal.
    assert (s < length d) as Hlt by (by eapply lookup_lt_Some).
    split; [|split; [by rewrite length_insert|split]].
    + unfold replaceRule, mbind, dom_mbind, dom_bind in Hrep.
      destruct (deleteRule s i d) as [d1 [[]|e]] eqn:Hdel; [|done].
      exists d1. split; [done|]. split; [done|].
      unfold deleteRule in Hdel. rewrite Hs, decide_True in Hdel by done.
      injection Hdel as <-. rewrite ruleCount_insert, decide_True by done.
      unfold ruleCount. rewrite Hs. simpl.
      rewrite length_delete by (by apply lookup_lt_is_Some_2). lia.
    + intros s'. rewrite ruleCount_insert by done.
      destruct (decide (s = s')) as [<-|]; [|done].
      unfold ruleCount. rewrite Hs. simpl. by rewrite length_insert.
    + intros s' j Hne. rewrite ruleAt_insert by done.
      destruct (decide (s = s')) as [<-|]; [|done].
      unfold ruleAt. rewrite Hs. simpl.
      apply list_lookup_insert_ne. congruence.
  - intros width s k ri rel os d d' os'. apply scanRules_count.
  - intros hostname width doc doc1 c Heff.
    pose proof (effect_Normal _ _ _ _ _ Heff)
      as (_ & Hlen & Hout & Hin & _).
    split; [done|]. intros s. unfold ruleCount.
    destruct (decide (s ∈ styleSheets c)) as [Hs|Hs].
    + apply list_elem_of_lookup in Hs as [k Hk].
      destruct (Hin k s Hk) as (sheet & sheet' & -> & -> & _ & Hl & _).
      done.
    + by rewrite Hout.
  - intros c d d'. apply restoreStyleSheets_count.
Qed.

(** A sheet that is not scanned does not bear on the scan. *)
Lemma scanRules_insert_other (width : Z) (s k s' : nat) (os : SavedStyles)
    (doc : Document) (x : CSSStyleSheet) :
  s' ≠ s →
  scanRules width s k 0 false os (<[s' := x]> doc)
  = let '(d, res) :=
      scanRules width s k 0 false os doc in
    (<[s' := x]> d, res).
Proof.
  intros Hne. destruct (doc !! s) as [sheet|] eqn:Hs.
  - pose proof (scanRules_scanFrom width s k
                  (cssRules sheet) [] false os doc sheet Hs eq_refl) as H.
    pose proof (scanRules_scanFrom width s k
                  (cssRules sheet) [] false os (<[s' := x]> doc) sheet) as H'.
    rewrite list_lookup_insert_ne in H' by done.
    specialize (H' Hs eq_refl). simpl in H, H'. rewrite H, H'.
    destruct (scanFrom _ _ _ _ _ _) as [rules res].
    by rewrite list_insert_insert_ne.
  - rewrite !scanRules_step, list_lookup_insert_ne, Hs by done. done.
Qed.

Lemma scanStyleSheets_insert_other (width : Z) (refs : list nat) (s' : nat)
    (x : CSSStyleSheet) :
  ∀ (k : nat) (os : SavedStyles) (doc : Document),
    s' ∉ refs →
    scanStyleSheets width refs k os
      (<[s' := x]> doc)
    = let '(d, res) :=
        scanStyleSheets width refs k os doc in
      (<[s' := x]> d, res).
Proof.
  induction refs as [|s refs IH]; intros k os doc Hout; [done|].
  apply not_elem_of_cons in Hout as [Hne Hout].
  cbn [scanStyleSheets]. unfold mbind, dom_mbind, dom_bind.
  rewrite scanRules_insert_other by done.
  destruct (scanRules _ _ _ _ _ _ doc) as [d [os1|e]]; [|done].
  by apply IH.
Qed.

Lemma selected_insert_same_href (hostname : string) (doc : Document)
    (s : nat) (sheet x : CSSStyleSheet) :
  doc !! s = Some sheet → href x = href sheet →
  getStyleSheetsThatMatchHostname hostname (<[s := x]> doc)
  = getStyleSheetsThatMatchHostname hostname doc.
Proof.
  intros Hs Hhref. unfold getStyleSheetsThatMatchHostname.
  rewrite length_insert. apply List.filter_ext. intros i.
  destruct (decide (s = i)) as [<-|Hne].
  - rewrite list_lookup_insert_eq by (by eapply lookup_lt_Some).
    by rewrite Hs, Hhref.
  - by rewrite list_lookup_insert_ne.
Qed.

(** C4: only sheets whose [href] contains the host name are selected; a
    sheet whose [href] does not contain it (or that has none) is never
    changed, neither by the effect, however it completes, nor by the
    cleanup, and it is never looked at: its rules have no bearing on what
    the effect does. *)
Theorem other_hosts_untouched (hostname : string) (width : Z)
    (doc : Document) :
  (∀ s, s ∈ getStyleSheetsThatMatchHostname hostname doc →
     ∃ sheet h, doc !! s = Some sheet ∧ href sheet = Some h ∧
                Str.includes h hostname = true) ∧
  (∀ s sheet,
     doc !! s = Some sheet →
     (∀ h, href sheet = Some h → Str.includes h hostname = false) →
     (s ∉ getStyleSheetsThatMatchHostname hostname doc) ∧
     (∀ doc1 res,
        useSimulatedMediaQuery hostname width doc = (doc1, res) →
        doc1 !! s = Some sheet ∧
        ∀ c d d' res',
          res = Normal c → cleanup c d = (d', res') → d' !! s = d !! s) ∧
     (∀ sheet',
        href sheet' = href sheet →
        useSimulatedMediaQuery hostname width (<[s := sheet']> doc)
        = let '(doc1, res) := useSimulatedMediaQuery hostname width doc in
          (<[s := sheet']> doc1, res))).
Proof.
  split.
  - intros s (sheet & h & ? & ? & _ & ?)%selected_elem_of. by exists sheet, h.
  - intros s sheet Hs Hhref.
    assert (s ∉ getStyleSheetsThatMatchHostname hostname doc) as Hout.
    { intros (sheet' & h & Hs' & Hh & _ & Hi)%selected_elem_of.
      rewrite Hs in Hs'. injection Hs' as <-.
      rewrite (Hhref h Hh) in Hi. done. }
    split; [done|]. split.
    + intros doc1 res Heff.
      unfold useSimulatedMediaQuery, mbind, dom_mbind, dom_bind in Heff.
      destruct (scanStyleSheets _ _ _ _ doc) as [d [os|e]] eqn:Hscan;
        injection Heff as <- <-.
      * split.
        -- by rewrite (scanStyleSheets_frame _ _ _ _ _ _ _ Hscan).
        -- intros c d0 d' res' [= <-] Hclean.
           by eapply restoreStyleSheets_frame.
      * split; [|done].
        by rewrite (scanStyleSheets_frame _ _ _ _ _ _ _ Hscan).
    + intros sheet' Hsame.
      unfold useSimulatedMediaQuery, mbind, dom_mbind, dom_bind.
      rewrite (selected_insert_same_href _ _ _ _ _ Hs Hsame).
      rewrite scanStyleSheets_insert_other by done.
      by destruct (scanStyleSheets _ _ _ _ doc) as [d [os|e]].
Qed.

(** C1: for every target width, the rule that replaces a candidate rule
    of the region is built from its text with the width clauses rewritten;
    every width clause of a text is evaluated on its own against the width
    and replaced by [(min-width:0px)] when it matches and by
    [(min-width:999999px)] when it does not; with a matcher that follows
    the range semantics ([min-width:V] matches iff [V <= w], [max-width:V]
    iff [w <= V]), a clause [(min-width:500px)] becomes the always-true
    form iff [500 <= w] and the always-false form iff [w < 500]. *)
Theorem width_clauses_evaluated (w : Z) :
  (∀ clause b v,
     WidthClause.read clause = Some (b, v) →
     mediaQueryMatch clause w = WidthClause.holds b v w) →
  (∀ hostname doc doc1 c k s sheet i rule,
     useSimulatedMediaQuery hostname w doc = (doc1, Normal c) →
     styleSheets c !! k = Some s → doc !! s = Some sheet →
     cssRules sheet !! i = Some rule →
     candidate (cssRules sheet) i = true →
     ruleAt doc1 s i = parseRule
         (replaceMediaQueryWithWidthEvaluation (cssText rule) w)) ∧
  (∀ pre clause post,
     Str.includes pre "(min-width:" = false →
     Str.includes pre "(max-width:" = false →
     Regex.match_here clause = Some (clause, ""%string) →
     replaceMediaQueryWithWidthEvaluation (pre +:+ clause +:+ post) w
     = pre +:+ (if mediaQueryMatch clause w
                then "(min-width:0px)" else "(min-width:999999px)")
           +:+ replaceMediaQueryWithWidthEvaluation post w) ∧
  (∀ pre clause post b v,
     Str.includes pre "(min-width:" = false →
     Str.includes pre "(max-width:" = false →
     WidthClause.read clause = Some (b, v) →
     replaceMediaQueryWithWidthEvaluation (pre +:+ clause +:+ post) w
     = pre +:+ (if match b with
                   | WidthClause.Min => (v <=? w)%Z
                   | WidthClause.Max => (w <=? v)%Z
                   end
                then "(min-width:0px)" else "(min-width:999999px)")
           +:+ replaceMediaQueryWithWidthEvaluation post w) ∧
  (∀ pre post,
     Str.includes pre "(min-width:" = false →
     Str.includes pre "(max-width:" = false →
     Regex.exec post = None →
     ((500 <= w)%Z ↔
        replaceMediaQueryWithWidthEvaluation
          (pre +:+ "(min-width:500px)" +:+ post) w
        = pre +:+ "(min-width:0px)" +:+ post) ∧
     ((w < 500)%Z ↔
        replaceMediaQueryWithWidthEvaluation
          (pre +:+ "(min-width:500px)" +:+ post) w
        = pre +:+ "(min-width:999999px)" +:+ post)).
Proof.
  intros Hsem. split; [|split; [|split]].
  - intros hostname doc doc1 c k s sheet i rule Heff Hk Hs Hi Hc.
    destruct (effect_pointwise _ _ _ _ _ Heff k s sheet i Hk Hs)
      as (_ & _ & H).
    rewrite Hi, Hc in H. by destruct H.
  - intros pre clause post Hmin Hmax Hc. by apply rewrite_clause.
  - intros pre clause post b v Hmin Hmax Hr.
    rewrite rewrite_clause by eauto using read_match_here.
    by rewrite (Hsem _ _ _ Hr).
  - intros pre post Hmin Hmax Hpost.
    rewrite rewrite_clause by done.
    rewrite (Hsem _ WidthClause.Min 500%Z) by done.
    rewrite rewrite_no_clause by done. simpl.
    destruct (Z.leb_spec 500 w) as [Hle|Hlt].
    + split; [done|]. split; [lia|].
      intros H%(inj (String.append pre)). by vm_compute in H.
    + split; [|done]. split; [lia|].
      intros H%(inj (String.append pre)). by vm_compute in H.
Qed.

End Hook.

(** * Further properties of the pattern and of the rewriting *)

Section PatternFacts.

Local Arguments String.append !_ _ / : simpl nomatch.
Local Arguments String.prefix !_ !_ /.
Local Arguments Ascii.eqb : simpl never.
Local Arguments ascii_dec : simpl never.

(** Two ways of cutting one text: one of the cuts comes first. *)
Lemma append_split (m r p q : string) :
  m +:+ r = p +:+ q →
  (∃ p', p = m +:+ p' ∧ r = p' +:+ q) ∨ (∃ m', m = p +:+ m' ∧ q = m' +:+ r).
Proof.
  revert p. induction m as [|a m IH]; intros p; simpl.
  - intros ->. left. by exists p.
  - destruct p as [|b p]; simpl.
    + intros <-. right. by exists (String a m).
    + intros [= <- H].
      destruct (IH _ H) as [(p' & -> & ->)|(m' & -> & ->)]; [left|right]; eauto.
Qed.

Lemma open_free_append (a b : string) :
  Str.open_free (a +:+ b) = Str.open_free a && Str.open_free b.
Proof.
  induction a as [|c a IH]; simpl; [done|]. by rewrite IH, andb_assoc.
Qed.

Lemma paren_free_open_free (s : string) :
  Str.paren_free s = true → Str.open_free s = true.
Proof.
  induction s as [|c s IH]; simpl; [done|].
  intros [[_ ->]%andb_true_iff ?]%andb_true_iff. by apply IH.
Qed.

(** A match holds one opening parenthesis, its first character: when it
    starts in a text [p] that is followed by an opening parenthesis, it ends
    in [p]. *)
Lemma match_here_before_open (p x m rest : string) :
  p ≠ ""%string →
  Regex.match_here (p +:+ String "(" x) = Some (m, rest) →
  ∃ p', p = m +:+ p' ∧ rest = p' +:+ String "(" x.
Proof.
  intros Hp (Heq & mm & body & Hmm & -> & Hb)%match_here_Some.
  symmetry in Heq.
  apply append_split in Heq as [(p' & -> & ->)|(m' & Hm' & Hq)]; [eauto|].
  destruct m' as [|a m'].
  - exists ""%string. rewrite append_nil_r in Hm'. simpl in Hq.
    by rewrite append_nil_r.
  - exfalso. simpl in Hq. injection Hq as <- _.
    assert (Str.open_free (mm +:+ "-width:" +:+ body +:+ ")") = true) as Hl.
    { rewrite !open_free_append, (paren_free_open_free _ Hb).
      by destruct Hmm as [-> | ->]. }
    destruct p as [|b p]; [done|].
    assert (String "(" (mm +:+ "-width:" +:+ body +:+ ")")
            = String b (p +:+ String "(" m')) as [= _ Hm''] by exact Hm'.
    assert (Str.open_free (p +:+ String "(" m') = true) as Hr
      by (rewrite <- Hm''; exact Hl).
    rewrite open_free_append in Hr.
    apply andb_true_iff in Hr as [_ Hr]. cbn [Str.open_free] in Hr.
    by rewrite Ascii.eqb_refl in Hr.
Qed.

(** Whether the pattern matches at the front of such a text does not
    depend on what follows the opening parenthesis. *)
Lemma match_here_None_swap (p x y : string) :
  p ≠ ""%string →
  Regex.match_here (p +:+ String "(" x) = None →
  Regex.match_here (p +:+ String "(" y) = None.
Proof.
  intros Hp Hx.
  destruct (Regex.match_here (p +:+ String "(" y)) as [[m r]|] eqn:Hy; [|done].
  pose proof (match_here_full _ _ _ Hy) as Hm.
  apply match_here_before_open in Hy as (p' & -> & _); [|done].
  rewrite append_assoc in Hx.
  by rewrite (match_here_append _ _ Hm) in Hx.
Qed.

(** The leftmost match stays the leftmost one when another clause is put
    in its place, whatever follows. *)
Lemma exec_swap_clause (pre : string) :
  ∀ s m rest c rest',
    Regex.exec s = Some (pre, m, rest) →
    Regex.match_here c = Some (c, ""%string) →
    Regex.exec (pre +:+ c +:+ rest') = Some (pre, c, rest').
Proof.
  induction pre as [|a pre IH]; intros s m rest c rest' He Hc.
  - simpl. by apply exec_here, match_here_append.
  - destruct s as [|b s]; [done|]. cbn [Regex.exec] in He.
    destruct (Regex.match_here (String b s)) as [[m' r']|] eqn:Hm; [done|].
    destruct (Regex.exec s) as [[[pre' m''] rest'']|] eqn:He'; [|done].
    simpl in He. injection He as -> -> -> ->.
    cbn [String.append Regex.exec].
    destruct (exec_Some _ _ _ _ He') as [-> Hmm].
    destruct (match_here_open _ _ Hmm) as [m0 ->].
    destruct (match_here_open _ _ Hc) as [c0 ->].
    change (String a (pre +:+ String "(" m0 +:+ rest))
      with (String a pre +:+ String "(" (m0 +:+ rest)) in Hm.
    apply (match_here_None_swap _ _ (c0 +:+ rest')) in Hm; [|done].
    change (String a pre +:+ String "(" (c0 +:+ rest'))
      with (String a (pre +:+ String "(" c0 +:+ rest')) in Hm.
    rewrite Hm.
    by rewrite (IH _ _ _ _ rest' He' Hc).
Qed.

Lemma exec_is_Some_append (pre t : string) :
  is_Some (Regex.match_here t) → is_Some (Regex.exec (pre +:+ t)).
Proof.
  intros [[m r] H]. induction pre as [|a pre IH]; simpl.
  - rewrite (exec_here _ _ _ H). eauto.
  - cbn [Regex.exec].
    destruct (Regex.match_here (String a (pre +:+ t))) as [[? ?]|]; [eauto|].
    destruct IH as [[[? ?] ?] ->]. simpl. eauto.
Qed.

Lemma exec_None_no_literal (s : string) :
  Str.includes s "(min-width:" = false →
  Str.includes s "(max-width:" = false →
  Regex.exec s = None.
Proof.
  induction s as [|c s IH]; intros Hmin Hmax; [done|].
  cbn [Regex.exec].
  destruct (Regex.match_here (String c s)) as [[m r]|] eqn:Hm.
  - exfalso. apply match_here_literal in Hm as [t [Hm | Hm]].
    + assert (String.prefix "(min-width:" (String c s) = true) as Hp
        by (apply prefix_lit; eauto).
      apply includes_prefix in Hp. congruence.
    + assert (String.prefix "(max-width:" (String c s) = true) as Hp
        by (apply prefix_lit; eauto).
      apply includes_prefix in Hp. congruence.
  - rewrite IH by (by eapply includes_cons). done.
Qed.

Lemma string_length_append (a b : string) :
  String.length (a +:+ b) = String.length a + String.length b.
Proof. induction a as [|c a IH]; simpl; [done|]. by rewrite IH. Qed.

(** Induction along the matches of a text, from left to right. *)
Lemma exec_induction (P : string → Prop) :
  (∀ s, Regex.exec s = None → P s) →
  (∀ s pre m rest, Regex.exec s = Some (pre, m, rest) → P rest → P s) →
  ∀ s, P s.
Proof.
  intros Hnone Hsome s.
  remember (String.length s) as n eqn:Hn. revert s Hn.
  induction (lt_wf n) as [n _ IH]. intros s ->.
  destruct (Regex.exec s) as [[[pre m] rest]|] eqn:He; [|by apply Hnone].
  apply (Hsome _ _ _ _ He). apply (IH (String.length rest)); [|done].
  destruct (exec_Some _ _ _ _ He) as [-> Hm].
  destruct (match_here_open _ _ Hm) as [m0 ->].
  rewrite !string_length_append. simpl. lia.
Qed.

Lemma verdict_clause (b : bool) :
  let v := if b then ENABLED_MEDIA_QUERY else DISABLED_MEDIA_QUERY in
  Regex.match_here v = Some (v, ""%string).
Proof. by destruct b. Qed.

(** Replacing twice is replacing once by the composed callback, when the
    first callback returns clauses. *)
Lemma replace_compose (f g : string → string) :
  (∀ m, Regex.match_here (f m) = Some (f m, ""%string)) →
  ∀ s, replace g (replace f s) = replace (λ m, g (f m)) s.
Proof.
  intros Hf. apply exec_induction.
  - intros s He. rewrite (replace_step f), (replace_step (λ m, g (f m))), He.
    by rewrite replace_step, He.
  - intros s pre m rest He IH.
    rewrite (replace_step f), (replace_step (λ m, g (f m))), He.
    rewrite replace_step, (exec_swap_clause _ _ _ _ _ _ He (Hf m)).
    by rewrite IH.
Qed.

Lemma replace_ext (f g : string → string) :
  (∀ m, Regex.match_here m = Some (m, ""%string) → f m = g m) →
  ∀ s, replace f s = replace g s.
Proof.
  intros Hfg. apply exec_induction.
  - intros s He. by rewrite (replace_step f), (replace_step g), He.
  - intros s pre m rest He IH.
    rewrite (replace_step f), (replace_step g), He, IH.
    destruct (exec_Some _ _ _ _ He) as [_ Hm]. by rewrite (Hfg _ Hm).
Qed.

(** X1: a rule is replaceable exactly when it has a [media] whose text
    holds, somewhere, an opening parenthesis, [min] or [max], [-width:], a
    body without any parenthesis and a closing parenthesis. *)
Theorem replaceable_iff_has_width_clause (rule : CSSRule) :
  isReplaceableMediaRule rule = true ↔
  ∃ mediaText pre mm body rest,
    media rule = Some mediaText ∧
    mediaText = pre +:+ "(" +:+ mm +:+ "-width:" +:+ body +:+ ")" +:+ rest ∧
    (mm = "min" ∨ mm = "max")%string ∧
    Str.paren_free body = true.
Proof.
  unfold isReplaceableMediaRule, Regex.test. split.
  - destruct (media rule) as [mediaText|]; [|done].
    intros [[[pre m] rest] He]%bool_decide_eq_true.
    apply exec_Some in He as [-> Hm].
    apply match_here_Some in Hm as (_ & mm & body & Hmm & -> & Hb).
    exists (pre +:+ ("(" +:+ mm +:+ "-width:" +:+ body +:+ ")") +:+ rest),
           pre, mm, body, rest.
    split; [done|]. split; [|done]. f_equal.
    destruct Hmm as [-> | ->]; simpl; by rewrite append_assoc.
  - intros (mediaText & pre & mm & body & rest & -> & -> & Hmm & Hb).
    apply bool_decide_eq_true, exec_is_Some_append.
    exists ("(" +:+ mm +:+ "-width:" +:+ body +:+ ")", rest)%string.
    apply match_here_Some. split; [|by exists mm, body].
    destruct Hmm as [-> | ->]; simpl; by rewrite append_assoc.
Qed.

(** X2: a clause whose value opens a parenthesis before the clause is
    closed, as in [(min-width:calc(...))], is not a match of the pattern
    where it starts. *)
Theorem nested_parenthesis_not_matched (body rest : string) :
  Str.paren_free body = true →
  Regex.match_here ("(min-width:" +:+ body +:+ "(" +:+ rest) = None ∧
  Regex.match_here ("(max-width:" +:+ body +:+ "(" +:+ rest) = None.
Proof.
  intros Hb.
  assert (Regex.lazy_tail (body +:+ String "(" rest) = None) as Htl.
  { induction body as [|c body IH]; [done|]. simpl in Hb |- *.
    apply andb_true_iff in Hb as [[Hc Ho]%andb_true_iff Hb].
    apply negb_true_iff in Hc, Ho. by rewrite Hc, Ho, IH. }
  split.
  - destruct (Regex.match_here _) as [[m r]|] eqn:Hm; [|done].
    unfold Regex.match_here in Hm.
    change (Str.lit "(" ("(min-width:" +:+ body +:+ "(" +:+ rest))
      with (Some ("min-width:" +:+ body +:+ "(" +:+ rest)) in Hm.
    cbn [mbind option_bind] in Hm.
    change (Regex.min_or_max ("min-width:" +:+ body +:+ "(" +:+ rest))
      with (Some ("min", "-width:" +:+ body +:+ "(" +:+ rest))%string in Hm.
    cbn [mbind option_bind] in Hm.
    change (Str.lit "-width:" ("-width:" +:+ body +:+ "(" +:+ rest))
      with (Some (body +:+ "(" +:+ rest)) in Hm.
    cbn [mbind option_bind] in Hm.
    change (body +:+ "(" +:+ rest) with (body +:+ String "(" rest) in Hm.
    by rewrite Htl in Hm.
  - destruct (Regex.match_here _) as [[m r]|] eqn:Hm; [|done].
    unfold Regex.match_here in Hm.
    change (Str.lit "(" ("(max-width:" +:+ body +:+ "(" +:+ rest))
      with (Some ("max-width:" +:+ body +:+ "(" +:+ rest)) in Hm.
    cbn [mbind option_bind] in Hm.
    change (Regex.min_or_max ("max-width:" +:+ body +:+ "(" +:+ rest))
      with (Some ("max", "-width:" +:+ body +:+ "(" +:+ rest))%string in Hm.
    cbn [mbind option_bind] in Hm.
    change (Str.lit "-width:" ("-width:" +:+ body +:+ "(" +:+ rest))
      with (Some (body +:+ "(" +:+ rest)) in Hm.
    cbn [mbind option_bind] in Hm.
    change (body +:+ "(" +:+ rest) with (body +:+ String "(" rest) in Hm.
    by rewrite Htl in Hm.
Qed.

(** X3: a text that holds neither [(min-width:] nor [(max-width:] has no
    match of the pattern, and rewriting returns it as it is, for every
    width. *)
Theorem text_without_width_literal_unchanged (ruleText : string) :
  Str.includes ruleText "(min-width:" = false →
  Str.includes ruleText "(max-width:" = false →
  Regex.test ruleText = false ∧
  ∀ w, replaceMediaQueryWithWidthEvaluation ruleText w = ruleText.
Proof.
  intros Hmin Hmax.
  pose proof (exec_None_no_literal _ Hmin Hmax) as He. split.
  - unfold Regex.test. rewrite He. apply bool_decide_eq_false. by intros [? ?].
  - intros w. unfold replaceMediaQueryWithWidthEvaluation.
    by rewrite replace_step, He.
Qed.

(** X4: rewriting does not change whether a text holds a match of the
    pattern: the clauses it writes are matches themselves, found at the
    places of the ones they replace. *)
Theorem rewritten_text_still_matches (ruleText : string) (w : Z) :
  Regex.test (replaceMediaQueryWithWidthEvaluation ruleText w)
  = Regex.test ruleText.
Proof.
  unfold replaceMediaQueryWithWidthEvaluation, Regex.test.
  rewrite replace_step.
  destruct (Regex.exec ruleText) as [[[pre m] rest]|] eqn:He; [|by rewrite He].
  rewrite (exec_swap_clause _ _ _ _ _ _ He (verdict_clause _)).
  rewrite !bool_decide_eq_true_2; eauto.
Qed.

(** X5: rewriting a rewritten text for a second width evaluates, at the
    place of every clause of the first text, the clause that the first
    rewriting wrote there, not the clause of the first text. *)
Theorem stacked_rewrites_compose (ruleText : string) (w1 w2 : Z) :
  replaceMediaQueryWithWidthEvaluation
    (replaceMediaQueryWithWidthEvaluation ruleText w1) w2
  = replace
      (λ matchedSubstring,
         if mediaQueryMatch
              (if mediaQueryMatch matchedSubstring w1
               then ENABLED_MEDIA_QUERY else DISABLED_MEDIA_QUERY) w2
         then ENABLED_MEDIA_QUERY else DISABLED_MEDIA_QUERY)
      ruleText.
Proof.
  unfold replaceMediaQueryWithWidthEvaluation.
  rewrite replace_compose; [done|]. intros m. apply verdict_clause.
Qed.

(** X6: when the matcher finds that [(min-width:0px)] matches the width
    and [(min-width:999999px)] does not, rewriting a text twice for that
    width is rewriting it once. *)
Theorem rewriting_idempotent (w : Z) (ruleText : string) :
  mediaQueryMatch ENABLED_MEDIA_QUERY w = true →
  mediaQueryMatch DISABLED_MEDIA_QUERY w = false →
  replaceMediaQueryWithWidthEvaluation
    (replaceMediaQueryWithWidthEvaluation ruleText w) w
  = replaceMediaQueryWithWidthEvaluation ruleText w.
Proof.
  intros Hon Hoff. unfold replaceMediaQueryWithWidthEvaluation.
  rewrite replace_compose by (intros m; apply verdict_clause).
  apply replace_ext. intros m _.
  destruct (mediaQueryMatch m w); by rewrite ?Hon, ?Hoff.
Qed.

End PatternFacts.

(** * Further properties of the DOM methods, the selection and the region *)

Section ReplaceRuleFacts.

(** X7: when the parser refuses the new text, [replaceRule] throws a
    [SyntaxError] after the old rule was deleted: the sheet is left one
    rule short, the rules behind the index move up by one place, and no
    other sheet changes. *)
Theorem replaceRule_refused_text_loses_rule (styleSheet : nat)
    (newRuleText : string) (index : nat) (doc : Document)
    (sheet : CSSStyleSheet) :
  doc !! styleSheet = Some sheet →
  index < length (cssRules sheet) →
  parseRule newRuleText = None →
  ∃ doc',
    replaceRule styleSheet newRuleText index doc = (doc', Throw SyntaxError) ∧
    length doc' = length doc ∧
    S (ruleCount styleSheet doc') = ruleCount styleSheet doc ∧
    (∀ j, ruleAt doc' styleSheet j
          = ruleAt doc styleSheet (if decide (j < index) then j else S j)) ∧
    (∀ s, s ≠ styleSheet → doc' !! s = doc !! s).
Proof.
  intros Hs Hi Hparse.
  rewrite replaceRule_spec, Hs, decide_True, Hparse by done.
  eexists. split; [done|].
  assert (styleSheet < length doc) as Hlt by (by eapply lookup_lt_Some).
  split; [by rewrite length_insert|]. split; [|split].
  - rewrite ruleCount_insert, decide_True by done.
    unfold ruleCount. rewrite Hs. simpl.
    rewrite length_delete by (by apply lookup_lt_is_Some_2). lia.
  - intros j. rewrite ruleAt_insert, decide_True by done.
    unfold ruleAt. rewrite Hs. simpl.
    destruct (decide (j < index)) as [Hj|Hj].
    + by apply list_lookup_delete_lt.
    + apply list_lookup_delete_ge. lia.
  - intros s Hne. by apply list_lookup_insert_ne.
Qed.

(** X8: with an index that is not the index of a rule of the sheet,
    [replaceRule] throws in [deleteRule] and leaves every sheet as it is;
    the new text is not inserted, not even at the index just past the last
    rule, where [insertRule] alone would append it. *)
Theorem replaceRule_out_of_range (styleSheet : nat) (newRuleText : string)
    (index : nat) (doc : Document) :
  ruleCount styleSheet doc ≤ index →
  replaceRule styleSheet newRuleText index doc
  = (doc,
     Throw match doc !! styleSheet with
           | Some _ => IndexSizeError
           | None => TypeError
           end) ∧
  (∀ r, is_Some (doc !! styleSheet) → parseRule newRuleText = Some r →
        index = ruleCount styleSheet doc →
        ∃ doc',
          insertRule styleSheet newRuleText index doc = (doc', Normal tt) ∧
          ruleAt doc' styleSheet index = Some r).
Proof.
  intros Hi. split.
  - rewrite replaceRule_spec. unfold ruleCount in Hi.
    destruct (doc !! styleSheet) as [sheet|]; [|done].
    simpl in Hi. by rewrite decide_False by lia.
  - intros r [sheet Hs] Hparse ->. unfold insertRule, ruleCount.
    rewrite Hs. simpl. rewrite decide_True, Hparse by done.
    eexists. split; [done|].
    rewrite ruleAt_insert, decide_True by (by eapply lookup_lt_Some || done).
    simpl. rewrite lookup_app_r by (rewrite length_take; lia).
    rewrite length_take, Nat.min_l, Nat.sub_diag by done. done.
Qed.

End ReplaceRuleFacts.

Section SelectionFacts.

Lemma filter_seq_lower (f : nat → bool) (start n x : nat) :
  x ∈ List.filter f (seq start n) → start ≤ x < start + n.
Proof.
  rewrite list_elem_of_In, List.filter_In. intros [H%in_seq _]. lia.
Qed.

Lemma filter_seq_increasing (f : nat → bool) (n : nat) :
  ∀ start i j a b,
    i < j →
    List.filter f (seq start n) !! i = Some a →
    List.filter f (seq start n) !! j = Some b →
    a < b.
Proof.
  induction n as [|n IH]; intros start i j a b Hij; [done|].
  cbn [seq List.filter]. destruct (f start).
  - destruct j as [|j]; [lia|]. destruct i as [|i].
    + intros [= <-] Hb. simpl in Hb.
      apply list_elem_of_lookup_2, filter_seq_lower in Hb. lia.
    + simpl. apply IH. lia.
  - by apply IH.
Qed.

(** X9: the array of selected sheets lists positions of sheets of the
    document in increasing order: every element of the array is the
    position of a sheet of the document, and the sheets are taken in
    document order, none twice. *)
Theorem selection_in_document_order (hostname : string) (doc : Document) :
  (∀ i a,
     getStyleSheetsThatMatchHostname hostname doc !! i = Some a →
     a < length doc ∧ is_Some (doc !! a)) ∧
  (∀ i j a b,
     i < j →
     getStyleSheetsThatMatchHostname hostname doc !! i = Some a →
     getStyleSheetsThatMatchHostname hostname doc !! j = Some b →
     a < b).
Proof.
  split.
  - intros i a Ha.
    apply list_elem_of_lookup_2, filter_seq_lower in Ha.
    split; [lia|]. apply lookup_lt_is_Some. lia.
  - intros i j a b Hij Ha Hb. by eapply filter_seq_increasing.
Qed.

(** X10: a sheet without [href], or whose [href] is the empty string, is
    selected for no host name; for the empty host name, every other sheet
    of the document is selected. *)
Theorem selection_edge_cases (doc : Document) :
  (∀ hostname s sheet,
     doc !! s = Some sheet →
     href sheet = None ∨ href sheet = Some ""%string →
     s ∉ getStyleSheetsThatMatchHostname hostname doc) ∧
  (∀ s,
     s ∈ getStyleSheetsThatMatchHostname "" doc ↔
     ∃ sheet h, doc !! s = Some sheet ∧ href sheet = Some h ∧ h ≠ ""%string).
Proof.
  split.
  - intros hostname s sheet Hs Hh
      (sheet' & h & Hs' & Hh' & Ht & _)%selected_elem_of.
    rewrite Hs in Hs'. injection Hs' as <-.
    destruct Hh as [Hh | Hh]; rewrite Hh in Hh'; [done|].
    injection Hh' as <-. done.
  - intros s. rewrite selected_elem_of. split.
    + intros (sheet & h & Hs & Hh & Ht & _). exists sheet, h.
      split; [done|]. split; [done|]. by intros ->.
    + intros (sheet & h & Hs & Hh & Hne). exists sheet, h.
      split; [done|]. split; [done|]. by destruct h.
Qed.

End SelectionFacts.

Section RegionCharacterisation.

Lemma relevantAt_0 (rules : list CSSRule) :
  relevantAt rules 0
  = match rules !! 0 with
    | Some rule => updateRelevantSection false rule
    | None => false
    end.
Proof. by destruct rules. Qed.

Lemma relevantAt_S (rules : list CSSRule) (i : nat) :
  relevantAt rules (S i)
  = match rules !! S i with
    | Some rule => updateRelevantSection (relevantAt rules i) rule
    | None => relevantAt rules i
    end.
Proof.
  unfold relevantAt, flagAfter.
  destruct (rules !! S i) as [rule|] eqn:Hi.
  - by rewrite (take_S_r _ _ _ Hi), foldl_app.
  - apply lookup_ge_None in Hi. by rewrite !take_ge by lia.
Qed.

Lemma update_true_inv (flag : bool) (rule : CSSRule) :
  updateRelevantSection flag rule = true →
  isEnd rule = false ∧ (flag = true ∨ isStart rule = true).
Proof.
  unfold updateRelevantSection.
  destruct flag, (isStart rule), (isEnd rule); simpl; auto.
Qed.

(** X11: the flag [relevantSection] is set when a rule reaches the test
    exactly when some rule at or before it bears the start marker and no
    rule from that one up to it bears the end marker. *)
Theorem region_characterisation (rules : list CSSRule) (i : nat) :
  relevantAt rules i = true ↔
  ∃ a start,
    a ≤ i ∧ rules !! a = Some start ∧ isStart start = true ∧
    ∀ j rule, a ≤ j ≤ i → rules !! j = Some rule → isEnd rule = false.
Proof.
  split.
  - induction i as [|i IH].
    + rewrite relevantAt_0. destruct (rules !! 0) as [rule|] eqn:H0; [|done].
      intros [Hend [? | Hstart]]%update_true_inv; [done|].
      exists 0, rule. repeat split; try done.
      intros j rule' Hj. replace j with 0 by lia. congruence.
    + rewrite relevantAt_S. destruct (rules !! S i) as [rule|] eqn:Hi.
      * intros [Hend [Hflag | Hstart]]%update_true_inv.
        -- destruct (IH Hflag) as (a & start & Ha & Hsa & Hst & Hno).
           exists a, start. repeat split; try done; [lia|].
           intros j rule' Hj Hj'. destruct (decide (j = S i)) as [->|].
           ++ congruence.
           ++ apply (Hno j); [lia | done].
        -- exists (S i), rule. repeat split; try done.
           intros j rule' Hj. replace j with (S i) by lia. congruence.
      * intros Hflag.
        destruct (IH Hflag) as (a & start & Ha & Hsa & Hst & Hno).
        exists a, start. repeat split; try done; [lia|].
        intros j rule' Hj Hj'. destruct (decide (j = S i)) as [->|].
        -- congruence.
        -- apply (Hno j); [lia | done].
  - intros (a & start & Ha & Hsa & Hst & Hno).
    by eapply relevantAt_after_start.
Qed.

End RegionCharacterisation.

(** * Further properties of the effect *)

Section EffectOutcomes.

(** X13: a completed effect keeps every rule that is not a replaceable
    media rule, in the region or out of it: a rule without [media], or
    whose media text holds no width clause, is the same rule at the same
    position afterwards, and no text is saved for it. *)
Theorem non_replaceable_rules_kept (hostname : string) (width : Z)
    (doc doc1 : Document) (c : Cleanup) (s i : nat) (sheet : CSSStyleSheet)
    (rule : CSSRule) :
  useSimulatedMediaQuery hostname width doc = (doc1, Normal c) →
  doc !! s = Some sheet → cssRules sheet !! i = Some rule →
  isReplaceableMediaRule rule = false →
  ruleAt doc1 s i = Some rule ∧
  ∀ k, styleSheets c !! k = Some s → saved (originalStyles c) k i = None.
Proof.
  intros Heff Hs Hi Hrepl.
  assert (candidate (cssRules sheet) i = false) as Hc
    by (unfold candidate; by rewrite Hi, Hrepl, andb_false_r).
  assert (∀ k, styleSheets c !! k = Some s →
               ruleAt doc1 s i = Some rule
               ∧ saved (originalStyles c) k i = None) as Hsel.
  { intros k Hk.
    destruct (effect_pointwise _ _ _ _ _ Heff k s sheet i Hk Hs)
      as (_ & _ & H).
    by rewrite Hi, Hc in H. }
  split; [|intros k Hk; by apply Hsel].
  destruct (decide (s ∈ styleSheets c)) as [[k Hk]%list_elem_of_lookup|Hout].
  - by apply (Hsel k).
  - apply effect_Normal in Heff as (_ & _ & Hsame & _).
    unfold ruleAt. by rewrite Hsame, Hs.
Qed.

Lemma scanFrom_no_candidate (width : Z) (styleSheetIndex : nat)
    (todo : list CSSRule) :
  ∀ ruleIndex relevantSection originalStyles,
    (∀ j rule, todo !! j = Some rule →
       flagAfter relevantSection todo j && isReplaceableMediaRule rule
       = false) →
    scanFrom width styleSheetIndex ruleIndex relevantSection originalStyles
      todo = (todo, Normal originalStyles).
Proof.
  induction todo as [|rule todo IH]; intros ri rel os Hno; [done|].
  cbn [scanFrom]. cbv zeta.
  pose proof (Hno 0 rule eq_refl) as H0.
  change (flagAfter rel (rule :: todo) 0)
    with (updateRelevantSection rel rule) in H0.
  rewrite <- negb_andb, H0. simpl.
  rewrite IH; [done|]. intros j rule' Hj. by apply (Hno (S j)).
Qed.

Lemma scanRules_no_candidate (width : Z) (s k : nat) (os : SavedStyles)
    (doc : Document) (sheet : CSSStyleSheet) :
  doc !! s = Some sheet →
  (∀ i, candidate (cssRules sheet) i = false) →
  scanRules width s k 0 false os doc = (doc, Normal os).
Proof.
  intros Hs Hno.
  pose proof (scanRules_scanFrom width s k (cssRules sheet) [] false os doc
                sheet Hs eq_refl) as H.
  simpl in H. rewrite H. clear H.
  rewrite scanFrom_no_candidate.
  - by rewrite withRules_id, list_insert_id.
  - intros j rule Hj. specialize (Hno j).
    by rewrite (candidate_lookup _ _ _ Hj) in Hno.
Qed.

Lemma scanStyleSheets_no_candidate (width : Z) (refs : list nat)
    (doc : Document) :
  (∀ s, s ∈ refs →
     ∃ sheet, doc !! s = Some sheet ∧
              ∀ i, candidate (cssRules sheet) i = false) →
  ∀ k os, scanStyleSheets width refs k os doc = (doc, Normal os).
Proof.
  induction refs as [|s refs IH]; intros Hno k os; [done|].
  cbn [scanStyleSheets]. unfold mbind, dom_mbind, dom_bind.
  destruct (Hno s) as (sheet & Hs & Hc); [by left|].
  rewrite (scanRules_no_candidate _ _ _ _ _ _ Hs Hc).
  apply IH. intros s' Hs'. apply Hno. by right.
Qed.

(** X14: when no rule of a selected sheet passes the test (no sheet is
    selected, no region is opened, or the region holds no replaceable media
    rule), the effect leaves every sheet as it is and returns a cleanup
    with an empty array of saved texts. *)
Theorem nothing_to_rewrite (hostname : string) (width : Z) (doc : Document) :
  (∀ s sheet i,
     s ∈ getStyleSheetsThatMatchHostname hostname doc →
     doc !! s = Some sheet → candidate (cssRules sheet) i = false) →
  useSimulatedMediaQuery hostname width doc
  = (doc,
     Normal {| styleSheets := getStyleSheetsThatMatchHostname hostname doc;
               originalStyles := [] |}).
Proof.
  intros Hno. unfold useSimulatedMediaQuery, mbind, dom_mbind, dom_bind.
  rewrite scanStyleSheets_no_candidate; [done|].
  intros s Hs.
  pose proof Hs as (sheet & _ & Hsheet & _)%selected_elem_of.
  exists sheet. split; [done|]. intros i. by eapply Hno.
Qed.

End EffectOutcomes.

Section WidthIndependence.

Lemma scanFrom_saved_width (w1 w2 : Z) (styleSheetIndex : nat)
    (todo : list CSSRule) :
  ∀ ruleIndex relevantSection originalStyles rules1 rules2 os1 os2,
    scanFrom w1 styleSheetIndex ruleIndex relevantSection originalStyles todo
    = (rules1, Normal os1) →
    scanFrom w2 styleSheetIndex ruleIndex relevantSection originalStyles todo
    = (rules2, Normal os2) →
    os1 = os2.
Proof.
  induction todo as [|rule todo IH]; intros ri rel os rules1 rules2 os1 os2.
  - simpl. by intros [= _ <-] [= _ <-].
  - cbn [scanFrom]. cbv zeta. destruct (negb _ || negb _).
    + destruct (scanFrom w1 _ _ _ _ todo) as [r1 res1] eqn:H1.
      destruct (scanFrom w2 _ _ _ _ todo) as [r2 res2] eqn:H2.
      intros [= _ ->] [= _ ->]. by eapply IH.
    + destruct (parseRule _) as [p1|]; [|done].
      destruct (parseRule _) as [p2|]; [|done].
      destruct (scanFrom w1 _ _ _ _ todo) as [r1 res1] eqn:H1.
      destruct (scanFrom w2 _ _ _ _ todo) as [r2 res2] eqn:H2.
      intros [= _ ->] [= _ ->]. by eapply IH.
Qed.

Lemma scanRules_saved_width (w1 w2 : Z) (s k : nat) (os os1 os2 : SavedStyles)
    (d1 d2 d1' d2' : Document) :
  cssRules <$> d1 !! s = cssRules <$> d2 !! s →
  scanRules w1 s k 0 false os d1 = (d1', Normal os1) →
  scanRules w2 s k 0 false os d2 = (d2', Normal os2) →
  os1 = os2.
Proof.
  intros Hsame.
  destruct (d1 !! s) as [sheet1|] eqn:Hs1;
    [|by rewrite scanRules_step, Hs1].
  destruct (d2 !! s) as [sheet2|] eqn:Hs2; [|done].
  injection Hsame as Hsame.
  pose proof (scanRules_scanFrom w1 s k (cssRules sheet1) [] false os d1
                sheet1 Hs1 eq_refl) as H1.
  pose proof (scanRules_scanFrom w2 s k (cssRules sheet2) [] false os d2
                sheet2 Hs2 eq_refl) as H2.
  simpl in H1, H2. rewrite H1, H2. clear H1 H2. rewrite <- Hsame.
  destruct (scanFrom w1 _ _ _ _ _) as [r1 res1] eqn:Hr1.
  destruct (scanFrom w2 _ _ _ _ _) as [r2 res2] eqn:Hr2.
  intros [= _ ->] [= _ ->]. by eapply scanFrom_saved_width.
Qed.

Lemma scanStyleSheets_saved_width (w1 w2 : Z) (refs : list nat) :
  ∀ (k : nat) (os os1 os2 : SavedStyles) (d1 d2 d1' d2' : Document),
    NoDup refs →
    (∀ s, s ∈ refs → cssRules <$> d1 !! s = cssRules <$> d2 !! s) →
    scanStyleSheets w1 refs k os d1 = (d1', Normal os1) →
    scanStyleSheets w2 refs k os d2 = (d2', Normal os2) →
    os1 = os2.
Proof.
  induction refs as [|s refs IH]; intros k os os1 os2 d1 d2 d1' d2' Hnd Hsame.
  - simpl. by intros [= _ <-] [= _ <-].
  - apply NoDup_cons in Hnd as [Hs Hnd].
    cbn [scanStyleSheets]. unfold mbind, dom_mbind, dom_bind.
    destruct (scanRules w1 s k 0 false os d1) as [e1 [o1|]] eqn:H1; [|done].
    destruct (scanRules w2 s k 0 false os d2) as [e2 [o2|]] eqn:H2; [|done].
    assert (o1 = o2) as <-.
    { eapply scanRules_saved_width; [|done..]. apply Hsame. by left. }
    apply IH; [done|]. intros s' Hs'.
    assert (s' ≠ s) as Hne by (by intros ->).
    rewrite (scanRules_frame _ _ _ _ _ _ _ H1 s' Hne).
    rewrite (scanRules_frame _ _ _ _ _ _ _ H2 s' Hne).
    apply Hsame. by right.
Qed.

(** X16: what the effect saves and returns does not depend on the width:
    two effects that complete on the same sheets for two widths return the
    same selected sheets and the same saved texts. *)
Theorem saved_texts_independent_of_width (hostname : string) (w1 w2 : Z)
    (doc d1 d2 : Document) (c1 c2 : Cleanup) :
  useSimulatedMediaQuery hostname w1 doc = (d1, Normal c1) →
  useSimulatedMediaQuery hostname w2 doc = (d2, Normal c2) →
  c1 = c2.
Proof.
  unfold useSimulatedMediaQuery, mbind, dom_mbind, dom_bind.
  destruct (scanStyleSheets w1 _ 0 [] doc) as [e1 [o1|]] eqn:H1; [|done].
  destruct (scanStyleSheets w2 _ 0 [] doc) as [e2 [o2|]] eqn:H2; [|done].
  intros [= _ <-] [= _ <-]. f_equal.
  eapply scanStyleSheets_saved_width; [apply selected_NoDup | | done..].
  done.
Qed.

End WidthIndependence.

Section HrefFacts.

Lemma selected_ext (hostname : string) (doc doc' : Document) :
  length doc' = length doc →
  (∀ s, href <$> doc' !! s = href <$> doc !! s) →
  getStyleSheetsThatMatchHostname hostname doc'
  = getStyleSheetsThatMatchHostname hostname doc.
Proof.
  intros Hlen Hhref. unfold getStyleSheetsThatMatchHostname.
  rewrite Hlen. apply List.filter_ext. intros i. specialize (Hhref i).
  destruct (doc' !! i) as [x|], (doc !! i) as [y|]; try done.
  injection Hhref as ->. done.
Qed.

Lemma insert_withRules_href (doc : Document) (s : nat)
    (sheet : CSSStyleSheet) (f : list CSSRule → list CSSRule) :
  doc !! s = Some sheet →
  length (<[s := withRules f sheet]> doc) = length doc ∧
  ∀ s', href <$> <[s := withRules f sheet]> doc !! s' = href <$> doc !! s'.
Proof.
  intros Hs. split; [by rewrite length_insert|]. intros s'.
  destruct (decide (s = s')) as [<-|Hne].
  - rewrite list_lookup_insert_eq by (by eapply lookup_lt_Some).
    by rewrite Hs.
  - by rewrite list_lookup_insert_ne.
Qed.

Lemma scanRules_href (width : Z) (s k : nat) (os : SavedStyles)
    (doc doc' : Document) (res : Completion SavedStyles) :
  scanRules width s k 0 false os doc = (doc', res) →
  length doc' = length doc ∧
  ∀ s', href <$> doc' !! s' = href <$> doc !! s'.
Proof.
  destruct (doc !! s) as [sheet|] eqn:Hs.
  - pose proof (scanRules_scanFrom width s k (cssRules sheet) [] false os doc
                  sheet Hs eq_refl) as H.
    simpl in H. rewrite H. destruct (scanFrom _ _ _ _ _ _) as [rules r].
    intros [= <- _]. by apply insert_withRules_href.
  - rewrite scanRules_step, Hs. by intros [= <- _].
Qed.

Lemma scanStyleSheets_href (width : Z) (refs : list nat) :
  ∀ (k : nat) (os : SavedStyles) (doc doc' : Document)
    (res : Completion SavedStyles),
    scanStyleSheets width refs k os doc = (doc', res) →
    length doc' = length doc ∧
    ∀ s', href <$> doc' !! s' = href <$> doc !! s'.
Proof.
  induction refs as [|s refs IH]; intros k os doc doc' res.
  - by intros [= <- _].
  - cbn [scanStyleSheets]. unfold mbind, dom_mbind, dom_bind.
    destruct (scanRules width s k 0 false os doc) as [d [os1|e]] eqn:Hscan.
    + apply scanRules_href in Hscan as [Hlen Hhref].
      intros [Hlen' Hhref']%IH. split; [congruence|].
      intros s'. by rewrite Hhref'.
    + intros [= <- _]. by eapply scanRules_href.
Qed.

Lemma replaceRule_href (s i : nat) (text : string) (doc doc' : Document)
    (res : Completion unit) :
  replaceRule s text i doc = (doc', res) →
  length doc' = length doc ∧
  ∀ s', href <$> doc' !! s' = href <$> doc !! s'.
Proof.
  rewrite replaceRule_spec. destruct (doc !! s) as [sheet|] eqn:Hs.
  - destruct (decide _); [|by intros [= <- _]].
    destruct (parseRule text); intros [= <- _];
      by apply insert_withRules_href.
  - by intros [= <- _].
Qed.

Lemma restoreRules_href (row : list (option string)) :
  ∀ (sheetRef : option nat) (ri : nat) (doc doc' : Document)
    (res : Completion unit),
    restoreRules sheetRef ri row doc = (doc', res) →
    length doc' = length doc ∧
    ∀ s', href <$> doc' !! s' = href <$> doc !! s'.
Proof.
  induction row as [|o row IH]; intros sheetRef ri doc doc' res.
  - by intros [= <- _].
  - cbn [restoreRules]. unfold mbind, dom_mbind, dom_bind.
    destruct (restoreRule sheetRef ri o doc) as [d [[]|e]] eqn:Hone.
    + intros [Hlen' Hhref']%IH.
      assert (length d = length doc
              ∧ ∀ s', href <$> d !! s' = href <$> doc !! s') as [Hlen Hhref].
      { unfold restoreRule in Hone.
        destruct o as [text|]; [|by injection Hone as <-].
        destruct (Str.truthy text); [|by injection Hone as <-].
        destruct sheetRef as [s|]; [|done]. by eapply replaceRule_href. }
      split; [congruence|]. intros s'. by rewrite Hhref'.
    + intros [= <- _].
      unfold restoreRule in Hone. destruct o as [text|]; [|done].
      destruct (Str.truthy text); [|done].
      destruct sheetRef as [s|]; [|by injection Hone as <-].
      by eapply replaceRule_href.
Qed.

Lemma restoreStyleSheets_href (refs : list nat) (rows : SavedStyles) :
  ∀ (k : nat) (doc doc' : Document) (res : Completion unit),
    restoreStyleSheets refs k rows doc = (doc', res) →
    length doc' = length doc ∧
    ∀ s', href <$> doc' !! s' = href <$> doc !! s'.
Proof.
  induction rows as [|o rows IH]; intros k doc doc' res.
  - by intros [= <- _].
  - cbn [restoreStyleSheets]. unfold mbind, dom_mbind, dom_bind.
    destruct (restoreStyleSheet refs k o doc) as [d [[]|e]] eqn:Hone.
    + intros [Hlen' Hhref']%IH.
      assert (length d = length doc
              ∧ ∀ s', href <$> d !! s' = href <$> doc !! s') as [Hlen Hhref].
      { destruct o as [row|]; [|by injection Hone as <-].
        by eapply restoreRules_href. }
      split; [congruence|]. intros s'. by rewrite Hhref'.
    + intros [= <- _]. destruct o as [row|]; [|done].
      by eapply restoreRules_href.
Qed.

(** X17: neither the effect nor the cleanup, however they complete, adds
    or removes a sheet or changes the [href] of one; the sheets selected
    for a host name are the same before and after. *)
Theorem hrefs_and_selection_stable :
  (∀ hostname width doc doc1 res,
     useSimulatedMediaQuery hostname width doc = (doc1, res) →
     length doc1 = length doc ∧
     (∀ s, href <$> doc1 !! s = href <$> doc !! s) ∧
     ∀ h, getStyleSheetsThatMatchHostname h doc1
          = getStyleSheetsThatMatchHostname h doc) ∧
  (∀ c d d' res,
     cleanup c d = (d', res) →
     length d' = length d ∧
     (∀ s, href <$> d' !! s = href <$> d !! s) ∧
     ∀ h, getStyleSheetsThatMatchHostname h d'
          = getStyleSheetsThatMatchHostname h d).
Proof.
  split.
  - intros hostname width doc doc1 res.
    unfold useSimulatedMediaQuery, mbind, dom_mbind, dom_bind.
    destruct (scanStyleSheets width _ 0 [] doc) as [d [os|e]] eqn:Hscan;
      intros [= <- _]; apply scanStyleSheets_href in Hscan as [Hlen Hhref];
      (split; [done|]; split; [done|]; intros h; by apply selected_ext).
  - intros c d d' res [Hlen Hhref]%restoreStyleSheets_href.
    split; [done|]. split; [done|]. intros h. by apply selected_ext.
Qed.

End HrefFacts.

(** * Further properties of the cleanup and of the saved texts *)

Section CleanupOutcomes.

Lemma restored_saved (os : SavedStyles) (k i : nat) :
  restored os k i
  = text ← saved os k i; if Str.truthy text then Some text else None.
Proof.
  unfold restored, saved, restorable.
  by destruct (JsArray.get os k) as [row|].
Qed.

(** X18: a cleanup whose sheets are distinct completes normally on given
    sheets exactly when every saved text that is not empty has a sheet at
    its sheet index, a rule of that sheet at its rule index, and is accepted
    by the parser; an empty saved text asks for nothing. *)
Theorem cleanup_completes_iff (c : Cleanup) (d : Document) :
  NoDup (styleSheets c) →
  ((∃ d', cleanup c d = (d', Normal tt)) ↔
   (∀ k i text,
      saved (originalStyles c) k i = Some text → text ≠ ""%string →
      ∃ s, styleSheets c !! k = Some s ∧ i < ruleCount s d
           ∧ is_Some (parseRule text))).
Proof.
  intros Hnd. unfold cleanup. split.
  - intros [d' Hc] k i text Hsaved Hne.
    apply (restoreStyleSheets_Normal _ Hnd) in Hc
      as (_ & _ & _ & _ & _ & _ & Hreq).
    apply (Hreq k i text). apply restored_Some. split; [done|].
    by destruct text.
  - intros H. apply restoreStyleSheets_completes.
    intros j i text [Hsaved Ht]%restored_Some.
    apply H; [done|]. by intros ->.
Qed.

(** X19: a cleanup whose sheets are distinct and that completes normally
    writes, at every position with a saved text that is not empty, the rule
    the parser builds from that text, whatever rule is there, and leaves
    every other rule and every other sheet as it is. *)
Theorem cleanup_overwrites_saved_positions (c : Cleanup) (d d' : Document) :
  NoDup (styleSheets c) →
  cleanup c d = (d', Normal tt) →
  (∀ s, s ∉ styleSheets c → d' !! s = d !! s) ∧
  (∀ k s i,
     styleSheets c !! k = Some s →
     ruleAt d' s i
     = match saved (originalStyles c) k i with
       | Some text => if Str.truthy text then parseRule text else ruleAt d s i
       | None => ruleAt d s i
       end).
Proof.
  intros Hnd Hc. unfold cleanup in Hc.
  apply (restoreStyleSheets_Normal _ Hnd) in Hc
    as (_ & Hout & _ & _ & _ & Hin & _).
  split; [done|]. intros k s i Hk.
  rewrite (Hin k s i Hk), restored_saved.
  destruct (saved (originalStyles c) k i) as [text|]; [|done].
  simpl. by destruct (Str.truthy text).
Qed.

Lemma length_set {A} (a : list (option A)) (i : nat) (v : A) :
  length (JsArray.set a i v) = max (length a) (S i).
Proof.
  unfold JsArray.set. destruct (decide (i < length a)).
  - rewrite length_insert. lia.
  - rewrite !length_app, length_replicate. simpl. lia.
Qed.

(** X20: recording a text at sheet index [k] and rule index [i] grows the
    array of saved texts to hold row [k], with holes for the rows it had
    not, leaves every other row as it was, creates row [k] when it was a
    hole, and makes the text read back at [(k, i)] and nowhere else. *)
Theorem saveOriginal_round_trip (os : SavedStyles) (k i : nat) (t : string) :
  length (saveOriginal os k i t) = max (length os) (S k) ∧
  (∀ k',
     JsArray.get (saveOriginal os k i t) k'
     = if decide (k = k')
       then Some (JsArray.set (default [] (JsArray.get os k)) i t)
       else JsArray.get os k') ∧
  (∀ k' i',
     saved (saveOriginal os k i t) k' i'
     = if decide (k = k' ∧ i = i') then Some t else saved os k' i').
Proof.
  split; [|split]; [| |intros k' i'; apply saved_saveOriginal].
  - unfold saveOriginal. destruct (JsArray.get os k) as [row|] eqn:Hrow.
    + rewrite Hrow. apply length_set.
    + rewrite get_set, decide_True by done. rewrite !length_set. lia.
  - intros k'. unfold saveOriginal.
    destruct (JsArray.get os k) as [row|] eqn:Hrow.
    + rewrite Hrow. by rewrite get_set.
    + rewrite get_set, decide_True by done. rewrite !get_set.
      by destruct (decide (k = k')).
Qed.

End CleanupOutcomes.

(** * Further properties of the searches in a text *)

Section SearchFacts.

Local Arguments String.append !_ _ / : simpl nomatch.
Local Arguments String.prefix !_ !_ /.
Local Arguments Ascii.eqb : simpl never.
Local Arguments ascii_dec : simpl never.

Lemma includes_iff (s needle : string) :
  Str.includes s needle = true ↔ ∃ a b, s = a +:+ needle +:+ b.
Proof.
  split.
  - assert (∀ t, String.prefix needle t = true →
                 ∃ a b, t = a +:+ needle +:+ b) as Hprefix.
    { intros t [b Hb%lit_Some]%prefix_lit. by exists ""%string, b. }
    induction s as [|c s IH]; cbn [Str.includes].
    + rewrite orb_false_r. apply Hprefix.
    + intros [Hp | Hs]%orb_true_iff; [by apply Hprefix|].
      destruct (IH Hs) as (a & b & ->). by exists (String c a), b.
  - intros (a & b & ->). induction a as [|c a IH].
    + apply includes_prefix, prefix_lit. simpl. rewrite lit_append. eauto.
    + cbn [String.append Str.includes]. rewrite IH. apply orb_true_r.
Qed.

(** X21: the search of the pattern returns the leftmost match: the
    pattern matches at no earlier position of the text; and it returns
    nothing exactly when the pattern matches at no position. *)
Theorem exec_finds_leftmost_match (s : string) :
  (∀ pre m rest,
     Regex.exec s = Some (pre, m, rest) →
     s = pre +:+ m +:+ rest ∧
     Regex.match_here (m +:+ rest) = Some (m, rest) ∧
     ∀ a b, pre = a +:+ b → b ≠ ""%string →
            Regex.match_here (b +:+ m +:+ rest) = None) ∧
  (Regex.exec s = None ↔
   ∀ a b, s = a +:+ b → Regex.match_here b = None).
Proof.
  split.
  - induction s as [|c s IH]; intros pre m rest; [done|].
    cbn [Regex.exec].
    destruct (Regex.match_here (String c s)) as [[m' r']|] eqn:Hm.
    + intros [= <- <- <-].
      pose proof Hm as [Heq _]%match_here_Some. rewrite Heq in Hm |- *.
      split; [done|]. split; [done|].
      intros a b Hab Hb. by destruct a, b.
    + destruct (Regex.exec s) as [[[pre' m''] rest']|] eqn:He; [|done].
      simpl. intros [= <- <- <-].
      destruct (IH _ _ _ eq_refl) as (-> & Hhere & Hleft).
      split; [done|]. split; [done|].
      intros a b Hab Hb. destruct a as [|x a].
      * simpl in Hab. by subst b.
      * simpl in Hab. injection Hab as _ Hab. by apply (Hleft a).
  - induction s as [|c s IH].
    + split; [|done]. intros _ a b Hab. by destruct a, b.
    + cbn [Regex.exec].
      destruct (Regex.match_here (String c s)) as [[m' r']|] eqn:Hm.
      * split; [done|]. intros H. by rewrite (H ""%string (String c s)) in Hm.
      * destruct (Regex.exec s) as [[[pre' m''] rest']|] eqn:He.
        -- split; [done|]. intros H. exfalso.
           destruct IH as [_ IH]. discriminate IH.
           intros a b ->. by apply (H (String c a)).
        -- split; [|done]. intros _ a b Hab.
           destruct a as [|x a]; [simpl in Hab; by subst b|].
           simpl in Hab. injection Hab as _ ->.
           destruct IH as [IH _]. by apply (IH eq_refl a).
Qed.

(** X22: a sheet is selected exactly when its [href] is not empty and
    holds the host name as a substring, at any place: the test is
    containment, not equality with the host of the [href]. *)
Theorem selection_is_substring_containment (hostname : string)
    (doc : Document) (s : nat) :
  s ∈ getStyleSheetsThatMatchHostname hostname doc ↔
  ∃ sheet a b,
    doc !! s = Some sheet ∧
    href sheet = Some (a +:+ hostname +:+ b) ∧
    a +:+ hostname +:+ b ≠ ""%string.
Proof.
  rewrite selected_elem_of. split.
  - intros (sheet & h & Hs & Hh & Ht & (a & b & ->)%includes_iff).
    exists sheet, a, b. split; [done|]. split; [done|].
    intros Heq. by rewrite Heq in Ht.
  - intros (sheet & a & b & Hs & Hh & Hne).
    exists sheet, (a +:+ hostname +:+ b). split; [done|]. split; [done|].
    split; [|apply includes_iff; eauto].
    by destruct (a +:+ hostname +:+ b).
Qed.

End SearchFacts.

(** * The effect when [match] throws *)

Section ThrowingFacts.

Lemma replaceOrThrow_step (f : string → Completion string) (s : string) :
  replaceOrThrow f s =
  match Regex.exec s with
  | Some (pre, m, rest) =>
      match f m with
      | Throw e => Throw e
      | Normal v =>
          match replaceOrThrow f rest with
          | Throw e => Throw e
          | Normal r => Normal (pre +:+ v +:+ r)
          end
      end
  | None => Normal s
  end.
Proof.
  apply (replaceOrThrow_elim (λ f s r,
    r = match Regex.exec s with
        | Some (pre, m, rest) =>
            match f m with
            | Throw e => Throw e
            | Normal v =>
                match replaceOrThrow f rest with
                | Throw e => Throw e
                | Normal r => Normal (pre +:+ v +:+ r)
                end
            end
        | None => Normal s
        end)).
  - intros f' s' pre m rest Hexec _. by rewrite Hexec.
  - intros f' s' Hexec. by rewrite Hexec.
Qed.

Lemma scanRulesOrThrow_step (width : Z)
    (styleSheet styleSheetIndex ruleIndex : nat)
    (relevantSection : bool) (originalStyles : SavedStyles) (doc : Document) :
  scanRulesOrThrow width styleSheet styleSheetIndex ruleIndex relevantSection
    originalStyles doc =
  match doc !! styleSheet with
  | None => (doc, Throw TypeError)
  | Some sheet =>
      match cssRules sheet !! ruleIndex with
      | None => (doc, Normal originalStyles)
      | Some rule =>
          let relevant := updateRelevantSection relevantSection rule in
          if negb relevant || negb (isReplaceableMediaRule rule)
          then
            scanRulesOrThrow width styleSheet styleSheetIndex (S ruleIndex)
              relevant originalStyles doc
          else
            match replaceMediaQueryWithWidthEvaluationOrThrow
                    (cssText rule) width with
            | Throw e => (doc, Throw e)
            | Normal newRuleText =>
                match replaceRule styleSheet newRuleText ruleIndex doc with
                | (doc', Normal _) =>
                    scanRulesOrThrow width styleSheet styleSheetIndex
                      (S ruleIndex) relevant
                      (saveOriginal originalStyles styleSheetIndex ruleIndex
                         (cssText rule))
                      doc'
                | (doc', Throw e) => (doc', Throw e)
                end
            end
      end
  end.
Proof.
  apply (scanRulesOrThrow_elim
    (λ width styleSheet styleSheetIndex ruleIndex relevantSection
       originalStyles doc result,
     result =
     match doc !! styleSheet with
     | None => (doc, Throw TypeError)
     | Some sheet =>
         match cssRules sheet !! ruleIndex with
         | None => (doc, Normal originalStyles)
         | Some rule =>
             let relevant := updateRelevantSection relevantSection rule in
             if negb relevant || negb (isReplaceableMediaRule rule)
             then
               scanRulesOrThrow width styleSheet styleSheetIndex (S ruleIndex)
                 relevant originalStyles doc
             else
               match replaceMediaQueryWithWidthEvaluationOrThrow
                       (cssText rule) width with
               | Throw e => (doc, Throw e)
               | Normal newRuleText =>
                   match replaceRule styleSheet newRuleText ruleIndex doc with
                   | (doc', Normal _) =>
                       scanRulesOrThrow width styleSheet styleSheetIndex
                         (S ruleIndex) relevant
                         (saveOriginal originalStyles styleSheetIndex
                            ruleIndex (cssText rule))
                         doc'
                   | (doc', Throw e) => (doc', Throw e)
                   end
               end
         end
     end)); clear.
  all: intros; simpl;
    repeat match goal with
           | H : _ = _ |- _ => rewrite H
           end; try done.
Qed.

(** The loop with the throwing matcher computes [scanFromOrThrow] on the
    rules it has not reached, and leaves the other sheets in place. *)
Lemma scanRulesOrThrow_scanFromOrThrow (width : Z)
    (styleSheet styleSheetIndex : nat) (todo : list CSSRule) :
  ∀ (scanned : list CSSRule) (relevantSection : bool)
    (originalStyles : SavedStyles) (doc : Document) (sheet : CSSStyleSheet),
    doc !! styleSheet = Some sheet →
    cssRules sheet = scanned ++ todo →
    scanRulesOrThrow width styleSheet styleSheetIndex (length scanned)
      relevantSection originalStyles doc
    = let '(rules, res) :=
        scanFromOrThrow width styleSheetIndex (length scanned)
          relevantSection originalStyles todo in
      (<[styleSheet := withRules (λ _, scanned ++ rules) sheet]> doc, res).
Proof.
  induction todo as [|rule todo IH];
    intros scanned relevantSection originalStyles doc sheet Hsheet Hrules.
  - simpl. rewrite scanRulesOrThrow_step, Hsheet, Hrules.
    rewrite lookup_ge_None_2 by (rewrite length_app; simpl; lia).
    rewrite <- Hrules, withRules_id, list_insert_id; done.
  - rewrite scanRulesOrThrow_step, Hsheet, Hrules.
    rewrite lookup_app_r, Nat.sub_diag by lia.
    cbn [lookup list_lookup scanFromOrThrow].
    set (relevant := updateRelevantSection relevantSection rule).
    cbv zeta.
    destruct (negb relevant || negb (isReplaceableMediaRule rule)).
    + specialize (IH (scanned ++ [rule]) relevant originalStyles doc sheet
                     Hsheet).
      rewrite length_app, Nat.add_1_r in IH.
      rewrite <- app_assoc in IH. rewrite (IH Hrules).
      destruct (scanFromOrThrow _ _ _ _ _ todo) as [rules res].
      by rewrite <- app_assoc.
    + destruct (replaceMediaQueryWithWidthEvaluationOrThrow _ _)
        as [text|e].
      2:{ by rewrite <- Hrules, withRules_id, list_insert_id. }
      rewrite replaceRule_spec, Hsheet, Hrules.
      rewrite decide_True by (rewrite length_app; simpl; lia).
      destruct (parseRule _) as [r|]; simpl.
      * set (sheet1 := withRules _ sheet).
        specialize (IH (scanned ++ [r]) relevant
                       (saveOriginal originalStyles styleSheetIndex
                          (length scanned) (cssText rule))
                       (<[styleSheet := sheet1]> doc) sheet1).
        rewrite length_app, Nat.add_1_r in IH.
        rewrite list_lookup_insert_eq in IH by (by eapply lookup_lt_Some).
        specialize (IH eq_refl).
        assert (cssRules sheet1 = (scanned ++ [r]) ++ todo) as Hrules1.
        { unfold sheet1, withRules. simpl. rewrite Hrules.
          rewrite insert_app_r_alt, Nat.sub_diag by lia.
          by rewrite <- app_assoc. }
        rewrite (IH Hrules1).
        destruct (scanFromOrThrow _ _ _ _ _ todo) as [rules res].
        rewrite list_insert_insert_eq. by rewrite <- app_assoc.
      * unfold withRules. simpl. rewrite Hrules.
        rewrite delete_middle. done.
Qed.

(** The scan of one whole sheet. *)
Lemma scanRulesOrThrow_sheet (width : Z) (s k : nat) (os : SavedStyles)
    (doc : Document) (sheet : CSSStyleSheet) :
  doc !! s = Some sheet →
  scanRulesOrThrow width s k 0 false os doc
  = let '(rules, res) :=
      scanFromOrThrow width k 0 false os (cssRules sheet) in
    (<[s := withRules (λ _, rules) sheet]> doc, res).
Proof.
  intros Hs.
  exact (scanRulesOrThrow_scanFromOrThrow width s k (cssRules sheet) []
           false os doc sheet Hs eq_refl).
Qed.

Lemma scanFromOrThrow_outcome (width : Z) (k : nat) (todo : list CSSRule) :
  ∀ ri rel os rules res,
    scanFromOrThrow width k ri rel os todo = (rules, res) →
    match res with
    | Normal _ =>
        length rules = length todo ∧
        ∀ j rule, todo !! j = Some rule →
          flagAfter rel todo j && isReplaceableMediaRule rule = true →
          rewritable width rule
    | Throw e =>
        (length rules = length todo ∧
         ∃ j rule, todo !! j = Some rule ∧
           flagAfter rel todo j && isReplaceableMediaRule rule = true ∧
           replaceMediaQueryWithWidthEvaluationOrThrow (cssText rule) width
           = Throw e) ∨
        (S (length rules) = length todo ∧ e = SyntaxError ∧
         ∃ j rule text, todo !! j = Some rule ∧
           flagAfter rel todo j && isReplaceableMediaRule rule = true ∧
           replaceMediaQueryWithWidthEvaluationOrThrow (cssText rule) width
           = Normal text ∧
           parseRule text = None)
    end.
Proof.
  induction todo as [|rule todo IH]; intros ri rel os rules res.
  - intros [= <- <-]. split; [done|]. by intros j rule.
  - cbn [scanFromOrThrow]. cbv zeta.
    set (relevant := updateRelevantSection rel rule).
    assert (∀ j, flagAfter rel (rule :: todo) (S j)
                 = flagAfter relevant todo j) as Hshift by done.
    assert (flagAfter rel (rule :: todo) 0 = relevant) as Hhead by done.
    destruct (negb relevant || negb (isReplaceableMediaRule rule)) eqn:Hskip.
    + destruct (scanFromOrThrow _ _ _ _ _ todo) as [rules' res'] eqn:Hrec.
      intros [= <- <-]. apply IH in Hrec.
      rewrite <- negb_andb in Hskip. apply negb_true_iff in Hskip.
      destruct res' as [os'|e].
      * destruct Hrec as [Hlen Hok]. split; [simpl; by rewrite Hlen|].
        intros [|j] rule' Hj Hc.
        -- injection Hj as <-. rewrite Hhead in Hc. congruence.
        -- rewrite Hshift in Hc. by apply (Hok j).
      * destruct Hrec as [(Hlen & j & rule' & Hj & Hc & Hthrow)
                         |(Hlen & -> & j & rule' & text & Hj & Hc & Ht & Hp)].
        -- left. split; [simpl; by rewrite Hlen|].
           exists (S j), rule'. by rewrite Hshift.
        -- right. split; [simpl; by rewrite Hlen|]. split; [done|].
           exists (S j), rule', text. by rewrite Hshift.
    + rewrite <- negb_andb in Hskip. apply negb_false_iff in Hskip.
      destruct (replaceMediaQueryWithWidthEvaluationOrThrow _ _)
        as [text|e] eqn:Ht.
      2:{ intros [= <- <-]. left. split; [done|].
          exists 0, rule. by rewrite Hhead. }
      destruct (parseRule text) as [r|] eqn:Hp.
      2:{ intros [= <- <-]. right. split; [done|]. split; [done|].
          exists 0, rule, text. by rewrite Hhead. }
      destruct (scanFromOrThrow _ _ _ _ _ todo) as [rules' res'] eqn:Hrec.
      intros [= <- <-]. apply IH in Hrec.
      destruct res' as [os'|e].
      * destruct Hrec as [Hlen Hok]. split; [simpl; by rewrite Hlen|].
        intros [|j] rule' Hj Hc.
        -- injection Hj as <-. exists text. by rewrite Hp.
        -- rewrite Hshift in Hc. by apply (Hok j).
      * destruct Hrec as [(Hlen & j & rule' & Hj & Hc & Hthrow)
                         |(Hlen & -> & j & rule' & text' & Hj & Hc & Ht'
                             & Hp')].
        -- left. split; [simpl; by rewrite Hlen|].
           exists (S j), rule'. by rewrite Hshift.
        -- right. split; [simpl; by rewrite Hlen|]. split; [done|].
           exists (S j), rule', text'. by rewrite Hshift.
Qed.

Lemma scanFromOrThrow_completes (width : Z) (k : nat) (todo : list CSSRule) :
  ∀ ri rel os,
    (∀ j rule, todo !! j = Some rule →
       flagAfter rel todo j && isReplaceableMediaRule rule = true →
       rewritable width rule) →
    ∃ rules os', scanFromOrThrow width k ri rel os todo = (rules, Normal os').
Proof.
  induction todo as [|rule todo IH]; intros ri rel os Hok.
  - by eexists _, _.
  - cbn [scanFromOrThrow]. cbv zeta.
    set (relevant := updateRelevantSection rel rule).
    assert (∀ j rule', todo !! j = Some rule' →
              flagAfter relevant todo j && isReplaceableMediaRule rule'
              = true → rewritable width rule') as Hok'.
    { intros j rule' Hj Hc. by apply (Hok (S j)). }
    destruct (negb relevant || negb (isReplaceableMediaRule rule)) eqn:Hskip.
    + destruct (IH (S ri) relevant os Hok') as (rules & os' & ->).
      by eexists _, _.
    + rewrite <- negb_andb in Hskip. apply negb_false_iff in Hskip.
      destruct (Hok 0 rule eq_refl Hskip) as (text & -> & [r ->]).
      destruct (IH (S ri) relevant
                  (saveOriginal os k ri (cssText rule)) Hok')
        as (rules & os' & ->).
      by eexists _, _.
Qed.

Lemma scanRulesOrThrow_outcome (width : Z) (s k : nat) (os : SavedStyles)
    (doc doc' : Document) (res : Completion SavedStyles)
    (sheet : CSSStyleSheet) :
  doc !! s = Some sheet →
  scanRulesOrThrow width s k 0 false os doc = (doc', res) →
  length doc' = length doc ∧
  (∀ s', s' ≠ s → doc' !! s' = doc !! s') ∧
  match res with
  | Normal _ =>
      ruleCount s doc' = ruleCount s doc ∧
      ∀ i rule, cssRules sheet !! i = Some rule →
        candidate (cssRules sheet) i = true → rewritable width rule
  | Throw e =>
      (ruleCount s doc' = ruleCount s doc ∧
       ∃ i rule, cssRules sheet !! i = Some rule ∧
         candidate (cssRules sheet) i = true ∧
         replaceMediaQueryWithWidthEvaluationOrThrow (cssText rule) width
         = Throw e) ∨
      (S (ruleCount s doc') = ruleCount s doc ∧ e = SyntaxError ∧
       ∃ i rule text, cssRules sheet !! i = Some rule ∧
         candidate (cssRules sheet) i = true ∧
         replaceMediaQueryWithWidthEvaluationOrThrow (cssText rule) width
         = Normal text ∧
         parseRule text = None)
  end.
Proof.
  intros Hs. rewrite (scanRulesOrThrow_sheet _ _ _ _ _ _ Hs).
  destruct (scanFromOrThrow _ _ _ _ _ _) as [rules res'] eqn:Hscan.
  intros [= <- <-]. apply scanFromOrThrow_outcome in Hscan.
  assert (s < length doc) as Hlt by (by eapply lookup_lt_Some).
  assert (ruleCount s doc = length (cssRules sheet)) as Hcount
    by (unfold ruleCount; by rewrite Hs).
  split; [by rewrite length_insert|].
  split; [intros s' Hne; by rewrite list_lookup_insert_ne|].
  rewrite ruleCount_insert, decide_True, Hcount by done. simpl.
  destruct res' as [os'|e].
  - destruct Hscan as [Hlen Hok]. split; [done|].
    intros i rule Hi Hc. rewrite (candidate_lookup _ _ _ Hi) in Hc.
    by apply (Hok i).
  - destruct Hscan as [(Hlen & j & rule & Hj & Hc & Hthrow)
                      |(Hlen & -> & j & rule & text & Hj & Hc & Ht & Hp)].
    + left. split; [done|]. exists j, rule.
      by rewrite (candidate_lookup _ _ _ Hj).
    + right. split; [done|]. split; [done|]. exists j, rule, text.
      by rewrite (candidate_lookup _ _ _ Hj).
Qed.

Lemma scanStyleSheetsOrThrow_outcome (width : Z) (refs : list nat) :
  ∀ (k : nat) (os : SavedStyles) (doc doc' : Document)
    (res : Completion SavedStyles),
    NoDup refs →
    (∀ s, s ∈ refs → is_Some (doc !! s)) →
    scanStyleSheetsOrThrow width refs k os doc = (doc', res) →
    length doc' = length doc ∧
    match res with
    | Normal _ =>
        ∀ s sheet i rule,
          s ∈ refs → doc !! s = Some sheet →
          cssRules sheet !! i = Some rule →
          candidate (cssRules sheet) i = true → rewritable width rule
    | Throw e =>
        ((∀ s, ruleCount s doc' = ruleCount s doc) ∧
         ∃ s sheet i rule,
           s ∈ refs ∧ doc !! s = Some sheet ∧
           cssRules sheet !! i = Some rule ∧
           candidate (cssRules sheet) i = true ∧
           replaceMediaQueryWithWidthEvaluationOrThrow (cssText rule) width
           = Throw e) ∨
        (e = SyntaxError ∧
         ∃ s sheet i rule text,
           s ∈ refs ∧ doc !! s = Some sheet ∧
           cssRules sheet !! i = Some rule ∧
           candidate (cssRules sheet) i = true ∧
           replaceMediaQueryWithWidthEvaluationOrThrow (cssText rule) width
           = Normal text ∧
           parseRule text = None ∧
           S (ruleCount s doc') = ruleCount s doc ∧
           ∀ s', s' ≠ s → ruleCount s' doc' = ruleCount s' doc)
    end.
Proof.
  induction refs as [|s refs IH]; intros k os doc doc' res Hnd Hvalid.
  - intros [= <- <-]. split; [done|].
    intros s sheet i rule Hs. by apply not_elem_of_nil in Hs.
  - apply NoDup_cons in Hnd as [Hs Hnd].
    destruct (Hvalid s) as [sheet Hsheet]; [by left|].
    cbn [scanStyleSheetsOrThrow]. unfold mbind, dom_mbind, dom_bind.
    destruct (scanRulesOrThrow width s k 0 false os doc) as [d res1]
      eqn:Hscan.
    apply (scanRulesOrThrow_outcome _ _ _ _ _ _ _ _ Hsheet) in Hscan
      as (Hlen & Hframe & Hout).
    assert (∀ s', s' ∈ refs → d !! s' = doc !! s') as Hsame.
    { intros s' Hs'. apply Hframe. by intros ->. }
    destruct res1 as [os1|e].
    + destruct Hout as [Hcount Hok].
      assert (∀ s', ruleCount s' d = ruleCount s' doc) as Hcounts.
      { intros s'. destruct (decide (s' = s)) as [->|Hne]; [done|].
        unfold ruleCount. by rewrite Hframe. }
      intros Hrest. apply IH in Hrest as [Hlen' Hrest]; [|done|].
      2:{ intros s' Hs'. rewrite Hsame by done. apply Hvalid. by right. }
      split; [congruence|]. destruct res as [os'|e].
      * intros s' sheet' i rule [->|Hs']%elem_of_cons Hs'' Hi Hc.
        -- rewrite Hsheet in Hs''. injection Hs'' as <-. by apply (Hok i).
        -- apply (Hrest s' sheet' i rule); try done. by rewrite Hsame.
      * destruct Hrest as [(Hcount' & s' & sheet' & i & rule & Hs' & Hs''
                             & Hi & Hc & Hthrow)
                          |(-> & s' & sheet' & i & rule & text & Hs' & Hs''
                             & Hi & Hc & Ht & Hp & Hshort & Hothers)].
        -- left. split; [intros s0; by rewrite Hcount', Hcounts|].
           exists s', sheet', i, rule.
           split; [by right|]. by rewrite <- (Hsame s' Hs').
        -- right. split; [done|]. exists s', sheet', i, rule, text.
           split; [by right|]. rewrite <- (Hsame s' Hs').
           repeat (split; [done|]). split; [by rewrite <- Hcounts|].
           intros s0 Hne. by rewrite (Hothers s0 Hne), Hcounts.
    + intros [= <- <-]. split; [done|].
      destruct Hout as [(Hcount & i & rule & Hi & Hc & Hthrow)
                       |(Hshort & -> & i & rule & text & Hi & Hc & Ht & Hp)].
      * left. split.
        -- intros s'. destruct (decide (s' = s)) as [->|Hne]; [done|].
           unfold ruleCount. by rewrite Hframe.
        -- exists s, sheet, i, rule. split; [by left|]. done.
      * right. split; [done|]. exists s, sheet, i, rule, text.
        split; [by left|]. repeat (split; [done|]).
        intros s' Hne. unfold ruleCount. by rewrite Hframe.
Qed.

Lemma scanStyleSheetsOrThrow_completes (width : Z) (refs : list nat) :
  ∀ (k : nat) (os : SavedStyles) (doc : Document),
    NoDup refs →
    (∀ s, s ∈ refs → is_Some (doc !! s)) →
    (∀ s sheet i rule,
       s ∈ refs → doc !! s = Some sheet →
       cssRules sheet !! i = Some rule →
       candidate (cssRules sheet) i = true → rewritable width rule) →
    ∃ doc' os',
      scanStyleSheetsOrThrow width refs k os doc = (doc', Normal os').
Proof.
  induction refs as [|s refs IH]; intros k os doc Hnd Hvalid Hok.
  - by eexists _, _.
  - apply NoDup_cons in Hnd as [Hs Hnd].
    destruct (Hvalid s) as [sheet Hsheet]; [by left|].
    cbn [scanStyleSheetsOrThrow]. unfold mbind, dom_mbind, dom_bind.
    rewrite (scanRulesOrThrow_sheet _ _ _ _ _ _ Hsheet).
    destruct (scanFromOrThrow_completes width k (cssRules sheet) 0 false os)
      as (rules & os1 & ->).
    { intros j rule Hj Hc. apply (Hok s sheet j rule); try done; [by left|].
      by rewrite (candidate_lookup _ _ _ Hj). }
    assert (∀ s', s' ∈ refs →
              <[s := withRules (λ _, rules) sheet]> doc !! s' = doc !! s')
      as Hsame.
    { intros s' Hs'. apply list_lookup_insert_ne. by intros ->. }
    apply IH; [done| |].
    + intros s' Hs'. rewrite Hsame by done. apply Hvalid. by right.
    + intros s' sheet' i rule Hs'. rewrite Hsame by done.
      apply Hok. by right.
Qed.

(** An exception of the rewriting is one the matcher threw for a clause of
    the text. *)
Lemma rewriting_throw_is_match_throw (width : Z) (e : DOMException) :
  ∀ ruleText,
    replaceMediaQueryWithWidthEvaluationOrThrow ruleText width = Throw e →
    ∃ clause,
      Regex.match_here clause = Some (clause, ""%string) ∧
      matchOrThrow clause width = Throw e.
Proof.
  unfold replaceMediaQueryWithWidthEvaluationOrThrow.
  apply (exec_induction (λ ruleText, _ ruleText = Throw e → _)).
  - intros s He. by rewrite replaceOrThrow_step, He.
  - intros s pre m rest He IH. rewrite replaceOrThrow_step, He.
    destruct (exec_Some _ _ _ _ He) as [_ Hm].
    destruct (matchOrThrow m width) as [[|]|e'] eqn:Hmatch.
    + destruct (replaceOrThrow _ rest) as [r|e']; [done|].
      intros [= ->]. by apply IH.
    + destruct (replaceOrThrow _ rest) as [r|e']; [done|].
      intros [= ->]. by apply IH.
    + intros [= ->]. by exists m.
Qed.

(** X12: the effect completes normally exactly when, for every rule that
    passes the test in a selected sheet, the rewriting of its text
    completes ([match] throws for none of its clauses) and the parser
    accepts the rewritten text. *)
Theorem effect_completes_iff (hostname : string) (width : Z)
    (doc : Document) :
  (∃ doc1 c,
     useSimulatedMediaQueryOrThrow hostname width doc = (doc1, Normal c)) ↔
  (∀ s sheet i rule,
     s ∈ getStyleSheetsThatMatchHostname hostname doc →
     doc !! s = Some sheet → cssRules sheet !! i = Some rule →
     candidate (cssRules sheet) i = true →
     ∃ text,
       replaceMediaQueryWithWidthEvaluationOrThrow (cssText rule) width
       = Normal text ∧
       is_Some (parseRule text)).
Proof.
  assert (∀ s, s ∈ getStyleSheetsThatMatchHostname hostname doc →
               is_Some (doc !! s)) as Hvalid.
  { intros s (sheet & _ & -> & _)%selected_elem_of. eauto. }
  unfold useSimulatedMediaQueryOrThrow, mbind, dom_mbind, dom_bind. split.
  - intros (doc1 & c & Heff).
    destruct (scanStyleSheetsOrThrow width _ 0 [] doc) as [d [os|e]]
      eqn:Hscan; [|done].
    apply scanStyleSheetsOrThrow_outcome in Hscan as [_ Hok];
      [done | apply selected_NoDup | done].
  - intros Hok.
    destruct (scanStyleSheetsOrThrow_completes width
                (getStyleSheetsThatMatchHostname hostname doc) 0 [] doc)
      as (doc' & os & ->); [apply selected_NoDup | done | done |].
    by eexists _, _.
Qed.

(** X15: when the effect throws, either [match] threw for a clause of a
    rule that passes the test in a selected sheet, and every sheet has the
    number of rules it had; or the parser refused the rewritten text of
    such a rule, the exception is a [SyntaxError], and the sheet of that
    rule is left one rule short, the other sheets having the number of
    rules they had.  No cleanup is returned. *)
Theorem effect_throw_outcomes (hostname : string) (width : Z)
    (doc doc1 : Document) (e : DOMException) :
  useSimulatedMediaQueryOrThrow hostname width doc = (doc1, Throw e) →
  length doc1 = length doc ∧
  ∃ s sheet i rule,
    s ∈ getStyleSheetsThatMatchHostname hostname doc ∧
    doc !! s = Some sheet ∧ cssRules sheet !! i = Some rule ∧
    candidate (cssRules sheet) i = true ∧
    ((replaceMediaQueryWithWidthEvaluationOrThrow (cssText rule) width
      = Throw e ∧
      (∃ clause,
         Regex.match_here clause = Some (clause, ""%string) ∧
         matchOrThrow clause width = Throw e) ∧
      ∀ s', ruleCount s' doc1 = ruleCount s' doc) ∨
     (∃ text,
        replaceMediaQueryWithWidthEvaluationOrThrow (cssText rule) width
        = Normal text ∧
        parseRule text = None ∧ e = SyntaxError ∧
        S (ruleCount s doc1) = ruleCount s doc ∧
        ∀ s', s' ≠ s → ruleCount s' doc1 = ruleCount s' doc)).
Proof.
  unfold useSimulatedMediaQueryOrThrow, mbind, dom_mbind, dom_bind.
  destruct (scanStyleSheetsOrThrow width _ 0 [] doc) as [d [os|e1]] eqn:Hscan;
    [done|].
  intros [= <- <-].
  apply scanStyleSheetsOrThrow_outcome in Hscan as [Hlen Hout];
    [|apply selected_NoDup|].
  2:{ intros s (sheet & _ & -> & _)%selected_elem_of. eauto. }
  split; [done|].
  destruct Hout as [(Hcount & s & sheet & i & rule & Hs & Hsheet & Hi & Hc
                       & Hthrow)
                   |(-> & s & sheet & i & rule & text & Hs & Hsheet & Hi & Hc
                       & Ht & Hp & Hshort & Hothers)].
  - exists s, sheet, i, rule. repeat (split; [done|]). left.
    split; [done|]. split; [|done].
    by eapply rewriting_throw_is_match_throw.
  - exists s, sheet, i, rule. repeat (split; [done|]). right.
    exists text. done.
Qed.

Section Agreement.

Variable width : Z.

(** For the width, [match] returns for every clause what the matcher of
    the first definitions returns. *)
Hypothesis match_returns :
  ∀ clause,
    Regex.match_here clause = Some (clause, ""%string) →
    matchOrThrow clause width = Normal (mediaQueryMatch clause width).





End Agreement.


End ThrowingFacts.
End Simulator.

(** * The search handlers of the link control *)

Section LinkControlFacts.

Context `{LinkControl.Library}.

(** The suggestion that stands for creating an entity. *)
Local Abbreviation createEntry val :=
  {| LinkControl.id := LinkControl.cleanForSlug val;
     LinkControl.title := val;
     LinkControl.url := val;
     LinkControl.type := LinkControl.CREATE_TYPE |}.

(** X25: the direct entry that is offered beside fetched suggestions is
    never of the type [internal]: the entity search runs only for a text
    that may not be a URL, and such a text does not start with [#]. *)
Theorem entity_search_direct_entry_not_internal (val : string)
    (isInitialSuggestions : bool) (fetched : list LinkControl.Suggestion) :
  LinkControl.maybeURL val = false →
  LinkControl.fetchSearchSuggestions val
    (if isInitialSuggestions then Some 3 else None)
  = LinkControl.Resolved fetched →
  ∃ direct,
    LinkControl.getSearchHandler val isInitialSuggestions
    = LinkControl.Resolved (fetched ++ direct ++ [createEntry val]) ∧
    (direct = [] ∨ direct = LinkControl.handleDirectEntry val) ∧
    ∀ s, s ∈ direct →
      LinkControl.title s = val ∧
      LinkControl.type s ∈ ["URL"; "mailto"; "tel"]%string.
Proof.
  intros Hmaybe Hfetch.
  unfold LinkControl.getSearchHandler, LinkControl.handleEntitySearch.
  rewrite Hmaybe, Hfetch. cbv zeta.
  assert (String.prefix "#" val = false) as Hhash.
  { unfold LinkControl.maybeURL in Hmaybe. cbv zeta in Hmaybe.
    by destruct (String.prefix "#" val). }
  destruct (negb _ && negb _).
  - exists (LinkControl.handleDirectEntry val).
    split; [by rewrite <- app_assoc|]. split; [by right|].
    intros s. unfold LinkControl.handleDirectEntry. cbv zeta.
    rewrite Hhash. intros ->%list_elem_of_singleton.
    cbn [LinkControl.title LinkControl.type]. split; [done|].
    set (protocol := default ""%string (LinkControl.getProtocol val)).
    destruct (Str.includes protocol "tel"), (Str.includes protocol "mailto");
      apply list_elem_of_In; simpl; auto.
  - exists []. split; [done|]. split; [by left|].
    intros s Hs. by apply not_elem_of_nil in Hs.
Qed.

End LinkControlFacts.

(** * The theorems at work on a page *)

(** A mixed condition keeps its other clauses. *)
Example orientation_clause_preserved :
  replaceMediaQueryWithWidthEvaluation cssMediaQueryMatch
    "@media (min-width:600px) and (orientation:landscape){a{}}" 700
  = "@media (min-width:0px) and (orientation:landscape){a{}}"%string.
Proof. vm_compute. reflexivity. Qed.

(** The matcher modelled from the spec follows the range semantics. *)
Lemma cssMediaQueryMatch_holds (w : Z) (clause : string)
    (b : WidthClause.bound) (v : Z) :
  WidthClause.read clause = Some (b, v) →
  cssMediaQueryMatch clause w = WidthClause.holds b v w.
Proof. unfold cssMediaQueryMatch. by intros ->. Qed.

(** The scenario of the spec: at width 320 the rule
    [@media (min-width:768px)] is disabled, at width 1024 it is enabled;
    and the clause [(min-width:500px)] at widths 1024 and 320. *)
Lemma width_clauses_evaluated_witness :
  replaceMediaQueryWithWidthEvaluation cssMediaQueryMatch
    "@media (min-width:768px){a{}}" 320
  = "@media (min-width:999999px){a{}}"%string ∧
  replaceMediaQueryWithWidthEvaluation cssMediaQueryMatch
    "@media (min-width:768px){a{}}" 1024
  = "@media (min-width:0px){a{}}"%string ∧
  replaceMediaQueryWithWidthEvaluation cssMediaQueryMatch
    "@media (min-width:500px){a{}}" 1024
  = "@media (min-width:0px){a{}}"%string ∧
  replaceMediaQueryWithWidthEvaluation cssMediaQueryMatch
    "@media (min-width:500px){a{}}" 320
  = "@media (min-width:999999px){a{}}"%string.
Proof.
  split; [|split; [|split]].
  - exact (proj1 (proj2 (proj2
             (width_clauses_evaluated verbatimParse cssMediaQueryMatch 320
                (cssMediaQueryMatch_holds 320))))
             "@media "%string "(min-width:768px)"%string "{a{}}"%string
             WidthClause.Min 768%Z eq_refl eq_refl eq_refl).
  - exact (proj1 (proj2 (proj2
             (width_clauses_evaluated verbatimParse cssMediaQueryMatch 1024
                (cssMediaQueryMatch_holds 1024))))
             "@media "%string "(min-width:768px)"%string "{a{}}"%string
             WidthClause.Min 768%Z eq_refl eq_refl eq_refl).
  - apply (proj2 (proj2 (proj2
             (width_clauses_evaluated verbatimParse cssMediaQueryMatch 1024
                (cssMediaQueryMatch_holds 1024))))
             "@media "%string "{a{}}"%string eq_refl eq_refl eq_refl).
    lia.
  - apply (proj2 (proj2 (proj2
             (width_clauses_evaluated verbatimParse cssMediaQueryMatch 320
                (cssMediaQueryMatch_holds 320))))
             "@media "%string "{a{}}"%string eq_refl eq_refl eq_refl).
    lia.
Defined.

Local Abbreviation effect :=
  (useSimulatedMediaQuery verbatimParse cssMediaQueryMatch).

(** A conjunction whose second half may use the first. *)
Lemma conj_with (A B : Prop) : A → (A → B) → A ∧ B.
Proof. intros HA HB. exact (conj HA (HB HA)). Qed.

(** On the example page the effect followed by the cleanup gives the page
    back. *)
Lemma activate_deactivate_round_trip_witness :
  ∃ doc1 c doc2,
    effect "wp.test" 700 exampleDocument = (doc1, Normal c) ∧
    cleanup verbatimParse c doc1 = (doc2, Normal tt) ∧
    (∀ s i,
       cssText <$> ruleAt doc2 s i = cssText <$> ruleAt exampleDocument s i) ∧
    ((∀ s sheet i rule,
        s ∈ getStyleSheetsThatMatchHostname "wp.test" exampleDocument →
        exampleDocument !! s = Some sheet →
        cssRules sheet !! i = Some rule →
        candidate (cssRules sheet) i = true →
        verbatimParse (cssText rule) = Some rule) →
     doc2 = exampleDocument).
Proof.
  apply (activate_deactivate_round_trip verbatimParse cssMediaQueryMatch
           "wp.test" 700 exampleDocument).
  intros s sheet i rule _ Hs Hi Hc.
  destruct s as [|[|[|s]]]; simpl in Hs; [| | |done]; injection Hs as <-;
    (destruct i as [|[|[|[|[|i]]]]]; simpl in Hi; [| | | | |done]);
    try done; injection Hi as <-; vm_compute in Hc; try done;
    (split; [reflexivity|]; split; [by eexists|]; by eexists).
Defined.

Local Abbreviation rule0 := (verbatimRule "@media (min-width:600px){a{}}").
Local Abbreviation rule4 := (verbatimRule "@media (max-width:782px){b{}}").

(** The first and the last rule of the first sheet of the example page lie
    outside the region and stay as they are. *)
Lemma outside_region_untouched_witness :
  ∃ doc1 c,
    effect "wp.test" 700 exampleDocument = (doc1, Normal c) ∧
    (ruleAt doc1 0 0 = Some rule0 ∧
     ∀ k, styleSheets c !! k = Some 0 → saved (originalStyles c) k 0 = None) ∧
    (ruleAt doc1 0 4 = Some rule4 ∧
     ∀ k, styleSheets c !! k = Some 0 → saved (originalStyles c) k 4 = None).
Proof.
  eexists _, _.
  apply conj_with; [vm_compute; reflexivity | intros Heff]. split.
  - eapply (outside_region_untouched verbatimParse cssMediaQueryMatch
              "wp.test" 700 exampleDocument _ _ 0 0);
      [exact Heff | reflexivity | reflexivity |].
    left. intros j r Hj Hr. assert (j = 0) as -> by lia.
    injection Hr as <-. reflexivity.
  - eapply (outside_region_untouched verbatimParse cssMediaQueryMatch
              "wp.test" 700 exampleDocument _ _ 0 4);
      [exact Heff | reflexivity | reflexivity |].
    right. eexists 3, _. split; [lia|]. split; [reflexivity|].
    split; [reflexivity|].
    intros j r Hj Hr. assert (j = 4) as -> by lia.
    injection Hr as <-. reflexivity.
Defined.

(** The saved texts of the example page. *)
Lemma saved_originals_invariant_witness :
  ∃ doc1 c,
    effect "wp.test" 700 exampleDocument = (doc1, Normal c) ∧
    saved (originalStyles c) 0 2
    = Some
        "@media (min-width:600px) and (orientation:landscape){a{}}"%string ∧
    saved (originalStyles c) 0 4 = None ∧
    (∀ k i text,
       saved (originalStyles c) k i = Some text →
       ∃ s sheet rule,
         styleSheets c !! k = Some s ∧ exampleDocument !! s = Some sheet ∧
         cssRules sheet !! i = Some rule ∧
         candidate (cssRules sheet) i = true ∧ text = cssText rule).
Proof.
  eexists _, _.
  apply conj_with; [vm_compute; reflexivity | intros Heff].
  pose proof (saved_originals_invariant verbatimParse cssMediaQueryMatch
                "wp.test" 700 exampleDocument _ _ Heff) as [Hrules Hsaved].
  split; [|split; [|exact Hsaved]].
  - exact (proj2 (Hrules 0 0 _ 2 _ eq_refl eq_refl eq_refl)).
  - exact (proj2 (Hrules 0 0 _ 4 _ eq_refl eq_refl eq_refl)).
Defined.

(** On the example page a second run of the cleanup changes nothing. *)
Lemma deactivate_idempotent_witness :
  ∃ doc1 c doc2,
    effect "wp.test" 700 exampleDocument = (doc1, Normal c) ∧
    cleanup verbatimParse c doc1 = (doc2, Normal tt) ∧
    cleanup verbatimParse c doc2 = (doc2, Normal tt) ∧
    cleanup verbatimParse {| styleSheets := [0; 2]; originalStyles := [] |}
      exampleDocument
    = (exampleDocument, Normal tt).
Proof.
  eexists _, _, _.
  apply conj_with; [vm_compute; reflexivity | intros Heff].
  apply conj_with; [vm_compute; reflexivity | intros Hclean].
  pose proof (deactivate_idempotent verbatimParse cssMediaQueryMatch
                "wp.test" 700 exampleDocument _ _ Heff)
    as (Hnil & _ & Htwice).
  split; [|apply Hnil].
  exact (Htwice _ _ Hclean).
Defined.

(** On the example page the rule with the end marker stays, and the media
    rule that carries the start marker is rewritten. *)
Lemma marker_rules_asymmetry_witness :
  ∃ doc1 c,
    effect "wp.test" 700 exampleDocument = (doc1, Normal c) ∧
    ruleAt doc1 0 3
    = Some (verbatimRule "#end-resizable-editor-section{display:none}") ∧
    ruleAt doc1 2 0
    = Some
        (verbatimRule
           "@media (min-width:0px){#start-resizable-editor-section{}}") ∧
    saved (originalStyles c) 1 0
    = Some
        "@media (min-width:600px){#start-resizable-editor-section{}}"%string.
Proof.
  eexists _, _.
  apply conj_with; [vm_compute; reflexivity | intros Heff].
  split; [|split].
  - exact (proj1 (proj1
             (marker_rules_asymmetry verbatimParse cssMediaQueryMatch
                "wp.test" 700 exampleDocument _ _ 0 0 3 _ _
                Heff eq_refl eq_refl eq_refl) eq_refl)).
  - exact (proj1 (proj2
             (marker_rules_asymmetry verbatimParse cssMediaQueryMatch
                "wp.test" 700 exampleDocument _ _ 1 2 0 _ _
                Heff eq_refl eq_refl eq_refl) eq_refl eq_refl eq_refl)).
  - exact (proj2 (proj2 (proj2
             (marker_rules_asymmetry verbatimParse cssMediaQueryMatch
                "wp.test" 700 exampleDocument _ _ 1 2 0 _ _
                Heff eq_refl eq_refl eq_refl) eq_refl eq_refl eq_refl))).
Defined.

(** The third sheet of the example page has a start marker and no end
    marker: its last rule is rewritten. *)
Lemma unterminated_region_rewritten_witness :
  ∃ doc1 c,
    effect "wp.test" 700 exampleDocument = (doc1, Normal c) ∧
    ruleAt doc1 2 1 = Some (verbatimRule "@media (min-width:0px){b{}}") ∧
    saved (originalStyles c) 1 1
    = Some "@media (max-width:782px){b{}}"%string.
Proof.
  eexists _, _.
  apply conj_with; [vm_compute; reflexivity | intros Heff].
  assert (∀ j r,
            0 ≤ j →
            [ verbatimRule
                "@media (min-width:600px){#start-resizable-editor-section{}}";
              rule4 ] !! j = Some r →
            isEnd r = false) as Hopen.
  { intros [|[|j]] r _ Hr; [| |done]; injection Hr as <-; reflexivity. }
  pose proof (unterminated_region_rewritten verbatimParse cssMediaQueryMatch
                "wp.test" 700 exampleDocument _ _ 1 2 0 _ _
                Heff eq_refl eq_refl eq_refl eq_refl Hopen
                1 rule4 ltac:(lia) eq_refl eq_refl) as (Hr & _ & Hs).
  split; [exact Hr | exact Hs].
Defined.

Local Abbreviation closedAtOnce :=
  [ {| href := Some "https://wp.test/c.css"%string;
       cssRules :=
         [ verbatimRule
             "#start-resizable-editor-section,#end-resizable-editor-section{}";
           verbatimRule "@media (min-width:600px){a{}}";
           verbatimRule "@media (max-width:900px){c{}}" ] |} ].

(** A first rule that bears both markers opens the region and closes it
    at once: no rule after it bears the end marker, and the replaceable
    media rules that follow are left as they are. *)
Lemma unterminated_region_counterexample :
  ∃ doc1 c start rule,
    effect "wp.test" 700 closedAtOnce = (doc1, Normal c) ∧
    styleSheets c !! 0 = Some 0 ∧
    ruleAt closedAtOnce 0 0 = Some start ∧ isStart start = true ∧
    (∀ j r, 0 < j → ruleAt closedAtOnce 0 j = Some r → isEnd r = false) ∧
    ruleAt closedAtOnce 0 1 = Some rule ∧
    isReplaceableMediaRule rule = true ∧
    ruleAt doc1 0 1 = Some rule ∧
    ruleAt doc1 0 1
    ≠ verbatimParse
        (replaceMediaQueryWithWidthEvaluation cssMediaQueryMatch
           (cssText rule) 700) ∧
    saved (originalStyles c) 0 1 = None ∧
    doc1 = closedAtOnce.
Proof.
  eexists _, _, _, _.
  split; [vm_compute; reflexivity|].
  split; [reflexivity|]. split; [reflexivity|]. split; [reflexivity|].
  split.
  { intros [|[|[|j]]] r Hj Hr; [lia | | |done];
      injection Hr as <-; reflexivity. }
  split; [reflexivity|]. split; [reflexivity|]. split; [reflexivity|].
  split; [by vm_compute|]. split; reflexivity.
Qed.

(** The sheet of the other host of the example page is not selected and
    stays as it is, through the effect and through the cleanup. *)
Lemma other_hosts_untouched_witness :
  ∃ doc1 c,
    effect "wp.test" 700 exampleDocument = (doc1, Normal c) ∧
    getStyleSheetsThatMatchHostname "wp.test" exampleDocument = [0; 2] ∧
    doc1 !! 1 = exampleDocument !! 1 ∧
    ∀ d d' res, cleanup verbatimParse c d = (d', res) → d' !! 1 = d !! 1.
Proof.
  eexists _, _.
  apply conj_with; [vm_compute; reflexivity | intros Heff].
  split; [reflexivity|].
  destruct (proj2 (other_hosts_untouched verbatimParse cssMediaQueryMatch
                     "wp.test" 700 exampleDocument) 1 _ eq_refl)
    as (_ & Hrun & _).
  { intros h Hh. injection Hh as <-. reflexivity. }
  destruct (Hrun _ _ Heff) as [Hsame Hclean].
  split; [exact Hsame|].
  intros d d' res. exact (Hclean _ d d' res eq_refl).
Defined.

(** The sheets of the example page keep their numbers of rules. *)
Lemma rule_count_stable_witness :
  ∃ doc1 c,
    effect "wp.test" 700 exampleDocument = (doc1, Normal c) ∧
    length doc1 = 3 ∧
    ruleCount 0 doc1 = 5 ∧ ruleCount 1 doc1 = 2 ∧ ruleCount 2 doc1 = 2.
Proof.
  eexists _, _.
  apply conj_with; [vm_compute; reflexivity | intros Heff].
  destruct (proj1 (proj2 (proj2
              (rule_count_stable verbatimParse cssMediaQueryMatch)))
              "wp.test"%string 700%Z exampleDocument _ _ Heff)
    as [Hlen Hcount].
  split; [exact Hlen|].
  split; [exact (Hcount 0)|]. split; [exact (Hcount 1) | exact (Hcount 2)].
Defined.

(** * Further properties at work *)

(** The value [calc(100px + 2em)] opens a parenthesis inside the clause. *)
Lemma nested_parenthesis_not_matched_witness :
  Str.paren_free "calc" = true ∧
  Regex.match_here "(min-width:calc(100px + 2em))" = None ∧
  Regex.match_here "(max-width:calc(100px + 2em))" = None.
Proof.
  split; [reflexivity|].
  exact (nested_parenthesis_not_matched "calc" "100px + 2em))" eq_refl).
Defined.

(** A media rule on the orientation only. *)
Lemma text_without_width_literal_unchanged_witness :
  Regex.test "@media (orientation:landscape){a{}}" = false ∧
  ∀ w,
    replaceMediaQueryWithWidthEvaluation cssMediaQueryMatch
      "@media (orientation:landscape){a{}}" w
    = "@media (orientation:landscape){a{}}"%string.
Proof.
  exact (text_without_width_literal_unchanged cssMediaQueryMatch
           "@media (orientation:landscape){a{}}" eq_refl eq_refl).
Defined.

(** At width 700 the matcher modelled from the spec finds the enabled
    clause true and the disabled one false. *)
Lemma rewriting_idempotent_witness :
  cssMediaQueryMatch ENABLED_MEDIA_QUERY 700 = true ∧
  cssMediaQueryMatch DISABLED_MEDIA_QUERY 700 = false ∧
  replaceMediaQueryWithWidthEvaluation cssMediaQueryMatch
    (replaceMediaQueryWithWidthEvaluation cssMediaQueryMatch
       "@media (min-width:600px) and (max-width:650px){a{}}" 700) 700
  = replaceMediaQueryWithWidthEvaluation cssMediaQueryMatch
      "@media (min-width:600px) and (max-width:650px){a{}}" 700.
Proof.
  apply conj_with; [vm_compute; reflexivity | intros Hon].
  apply conj_with; [vm_compute; reflexivity | intros Hoff].
  exact (rewriting_idempotent cssMediaQueryMatch 700 _ Hon Hoff).
Defined.

(** The parser that keeps texts refuses the empty text: replacing the
    second rule of the first sheet of the example page by it loses the
    rule. *)
Lemma replaceRule_refused_text_loses_rule_witness :
  ∃ doc',
    replaceRule verbatimParse 0 "" 1 exampleDocument
    = (doc', Throw SyntaxError) ∧
    length doc' = length exampleDocument ∧
    S (ruleCount 0 doc') = ruleCount 0 exampleDocument ∧
    (∀ j, ruleAt doc' 0 j
          = ruleAt exampleDocument 0 (if decide (j < 1) then j else S j)) ∧
    (∀ s, s ≠ 0 → doc' !! s = exampleDocument !! s).
Proof.
  apply (replaceRule_refused_text_loses_rule verbatimParse 0 "" 1
           exampleDocument _ eq_refl); [simpl; lia | reflexivity].
Defined.

(** The first sheet of the example page has five rules; the page has three
    sheets. *)
Lemma replaceRule_out_of_range_witness :
  replaceRule verbatimParse 0 "a{}" 5 exampleDocument
  = (exampleDocument, Throw IndexSizeError) ∧
  replaceRule verbatimParse 7 "a{}" 0 exampleDocument
  = (exampleDocument, Throw TypeError).
Proof.
  split.
  - exact (proj1 (replaceRule_out_of_range verbatimParse 0 "a{}" 5
                    exampleDocument (le_n 5))).
  - exact (proj1 (replaceRule_out_of_range verbatimParse 7 "a{}" 0
                    exampleDocument (le_n 0))).
Defined.

(** The example page at the widths 700 and 320. *)
Lemma saved_texts_independent_of_width_witness :
  ∃ d1 d2 c1 c2,
    effect "wp.test" 700 exampleDocument = (d1, Normal c1) ∧
    effect "wp.test" 320 exampleDocument = (d2, Normal c2) ∧
    c1 = c2.
Proof.
  eexists _, _, _, _.
  apply conj_with; [vm_compute; reflexivity | intros H1].
  apply conj_with; [vm_compute; reflexivity | intros H2].
  exact (saved_texts_independent_of_width _ _ _ _ _ _ _ _ _ _ H1 H2).
Defined.

Local Abbreviation plainDocument :=
  [ {| href := Some "https://wp.test/plain.css"%string;
       cssRules :=
         [ verbatimRule "@media (min-width:600px){a{}}";
           verbatimRule "#end-resizable-editor-section{display:none}" ] |} ].

(** A selected sheet whose region is never opened. *)
Lemma nothing_to_rewrite_witness :
  effect "wp.test" 700 plainDocument
  = (plainDocument,
     Normal {| styleSheets := [0]; originalStyles := [] |}).
Proof.
  apply (nothing_to_rewrite verbatimParse cssMediaQueryMatch "wp.test" 700
           plainDocument).
  intros s sheet i _ Hs. destruct s as [|s]; [|done].
  injection Hs as <-. destruct i as [|[|i]]; reflexivity.
Defined.

(** The rule that bears the start marker of the first sheet of the example
    page has no [media]. *)
Lemma non_replaceable_rules_kept_witness :
  ∃ doc1 c,
    effect "wp.test" 700 exampleDocument = (doc1, Normal c) ∧
    ruleAt doc1 0 1
    = Some (verbatimRule "#start-resizable-editor-section{display:none}") ∧
    ∀ k, styleSheets c !! k = Some 0 → saved (originalStyles c) k 1 = None.
Proof.
  eexists _, _.
  apply conj_with; [vm_compute; reflexivity | intros Heff].
  eapply (non_replaceable_rules_kept verbatimParse cssMediaQueryMatch
            "wp.test" 700 exampleDocument _ _ 0 1);
    [exact Heff | reflexivity | reflexivity | reflexivity].
Defined.

(** The first and the third sheet of the example page are selected. *)
Lemma selection_in_document_order_witness :
  getStyleSheetsThatMatchHostname "wp.test" exampleDocument = [0; 2] ∧
  0 < 2 ∧ 0 < length exampleDocument ∧ 2 < length exampleDocument.
Proof.
  split; [reflexivity|].
  pose proof (selection_in_document_order "wp.test" exampleDocument)
    as [Hin Hord].
  split; [exact (Hord 0 1 0 2 (le_n 1) eq_refl eq_refl)|].
  split; [exact (proj1 (Hin 0 0 eq_refl)) | exact (proj1 (Hin 1 2 eq_refl))].
Defined.

Local Abbreviation savedOnce :=
  {| styleSheets := [0];
     originalStyles :=
       [Some [None; Some "@media (min-width:600px){a{}}"%string]] |}.

(** A cleanup with one saved text, run on the example page. *)
Lemma cleanup_completes_iff_witness :
  NoDup (styleSheets savedOnce) ∧
  ((∃ d', cleanup verbatimParse savedOnce exampleDocument
          = (d', Normal tt)) ↔
   (∀ k i text,
      saved (originalStyles savedOnce) k i = Some text → text ≠ ""%string →
      ∃ s, styleSheets savedOnce !! k = Some s
           ∧ i < ruleCount s exampleDocument
           ∧ is_Some (verbatimParse text))).
Proof.
  apply conj_with; [apply NoDup_singleton | intros Hnd].
  exact (cleanup_completes_iff verbatimParse savedOnce exampleDocument Hnd).
Defined.

(** The saved text is written over the rule that bears the start marker. *)
Lemma cleanup_overwrites_saved_positions_witness :
  ∃ d',
    cleanup verbatimParse savedOnce exampleDocument = (d', Normal tt) ∧
    ruleAt exampleDocument 0 1
    = Some (verbatimRule "#start-resizable-editor-section{display:none}") ∧
    ruleAt d' 0 1 = Some (verbatimRule "@media (min-width:600px){a{}}") ∧
    ∀ s, s ∉ styleSheets savedOnce → d' !! s = exampleDocument !! s.
Proof.
  eexists.
  apply conj_with; [vm_compute; reflexivity | intros Hc].
  split; [reflexivity|].
  pose proof (cleanup_overwrites_saved_positions verbatimParse savedOnce
                exampleDocument _ (NoDup_singleton 0) Hc) as [Hout Hin].
  split; [exact (Hin 0 0 1 eq_refl) | exact Hout].
Defined.

(** A library for running the handlers: no text has a protocol or is a
    URL, and the fetcher finds one page. *)
Local Abbreviation plainLibrary :=
  {| LinkControl.getProtocol := λ _, None;
     LinkControl.prependHTTP := λ s, ("http://" +:+ s)%string;
     LinkControl.cleanForSlug := λ s, s;
     LinkControl.isURL := λ _, false;
     LinkControl.fetchSearchSuggestions :=
       λ _ _,
         LinkControl.Resolved
           [ {| LinkControl.id := "7";
                LinkControl.title := "Home";
                LinkControl.url := "https://wp.test/home";
                LinkControl.type := "page" |} ] |}.

(** The search for [home]: the page found, the direct entry, the entry
    for creating an entity. *)
Lemma entity_search_direct_entry_not_internal_witness :
  ∃ direct,
    @LinkControl.getSearchHandler plainLibrary "home" false
    = LinkControl.Resolved
        ([ {| LinkControl.id := "7";
              LinkControl.title := "Home";
              LinkControl.url := "https://wp.test/home";
              LinkControl.type := "page" |} ]
         ++ direct
         ++ [ {| LinkControl.id := "home";
                 LinkControl.title := "home";
                 LinkControl.url := "home";
                 LinkControl.type := LinkControl.CREATE_TYPE |} ]) ∧
    (direct = []
     ∨ direct = @LinkControl.handleDirectEntry plainLibrary "home") ∧
    ∀ s, s ∈ direct →
      LinkControl.title s = "home"%string ∧
      LinkControl.type s ∈ ["URL"; "mailto"; "tel"]%string.
Proof.
  exact (@entity_search_direct_entry_not_internal plainLibrary "home" false
           _ eq_refl eq_refl).
Defined.

(** A matcher that throws a [TypeError] for a clause it cannot read, and
    follows the range semantics for the others. *)
Local Abbreviation throwingMatch :=
  (λ (clause : string) (w : Z),
     match WidthClause.read clause with
     | Some (b, v) => Normal (WidthClause.holds b v w)
     | None => Throw TypeError
     end).

Local Abbreviation unreadableDocument :=
  [ {| href := Some "https://wp.test/u.css"%string;
       cssRules :=
         [ verbatimRule "#start-resizable-editor-section{display:none}";
           verbatimRule "@media (min-width:600px){a{}}";
           verbatimRule "@media (min-width:){b{}}" ] |} ].

(** The clause [(min-width:)] of the third rule has no value: the matcher
    throws, the second rule stays rewritten, the third rule is in its
    place and no rule is lost. *)
Lemma effect_throw_outcomes_witness :
  ∃ doc1,
    useSimulatedMediaQueryOrThrow verbatimParse throwingMatch "wp.test" 700
      unreadableDocument = (doc1, Throw TypeError) ∧
    ruleAt doc1 0 1 = Some (verbatimRule "@media (min-width:0px){a{}}") ∧
    ruleAt doc1 0 2 = Some (verbatimRule "@media (min-width:){b{}}") ∧
    length doc1 = length unreadableDocument ∧
    ∀ s, ruleCount s doc1 = ruleCount s unreadableDocument.
Proof.
  eexists.
  apply conj_with; [vm_compute; reflexivity | intros Heff].
  split; [reflexivity|]. split; [reflexivity|].
  destruct (effect_throw_outcomes _ _ _ _ _ _ _ Heff)
    as (Hlen & s & sheet & i & rule & _ & _ & _ & _
        & [(_ & _ & Hcount) | (text & _ & _ & He & _)]).
  - split; [exact Hlen | exact Hcount].
  - discriminate He.
Defined.

